(** * Verification of the captcha image renderer (image.go)

    A shallow embedding of [image.go]: the layout computation
    ([calculateSizes]), the rasterizer ([drawHorizLine], [drawCircle]), the
    noise generators ([fillWithCircles], [strikeThrough]), the digit renderer
    ([drawNumber]), the brightness jitter ([setRandomBrightness]) and the
    assembler ([NewImage]).

    Modelling choices.
    - Go's [int] is modelled by [Z]; [/] on [int] is [Z.quot] (truncation
      toward zero).  The arithmetic on [int] is exact: the model follows the
      program as long as no intermediate value leaves the range of [int],
      which coordinates on a canvas do not.  [uint8] is a [Z] in [0, 256)
      with the wrap-around of the conversions written out ([uint8]).
    - [float64] is IEEE 754 binary64 as specified by the standard library's
      [SpecFloat] (precision 53, maximal exponent 1024, round to nearest
      even).  [int(f)] truncates toward zero.
    - The process-wide random source is a tape of raw draws together with a
      read position; a panic of the run-time system is the result [Panic]; a loop
      that is given too little fuel ends in [OutOfFuel].  The package [rand]
      is the one that preceded Go 1: [rand.Intn(n)] returns 0 for [n <= 0]
      and does not panic.
    - The pixel buffer of [image.NRGBA] is a finite map from coordinates to
      colours; a pixel that was never set reads as the zero colour. *)

From Stdlib Require Import ZArith Lia Bool List.
From Stdlib Require Import QArith Qpower Qround Lqa.
From Stdlib Require Import Floats.SpecFloat.
From stdpp Require Import base option gmap.

Local Open Scope Z_scope.

(** ** float64 *)

Module F64.

Definition prec : Z := 53.
Definition emax : Z := 1024.

Definition t := spec_float.

(** [float64(z)] for an integer [z]: rounded to nearest even. *)
Definition of_int (z : Z) : t := binary_normalize prec emax z 0 false.

Definition add : t -> t -> t := SFadd prec emax.
Definition mul : t -> t -> t := SFmul prec emax.
Definition div : t -> t -> t := SFdiv prec emax.

(** [x > y] *)
Definition gtb (x y : t) : bool := SFltb y x.

(** The value every conversion of a NaN, an infinity or a number out of
    range yields on amd64 (the "integer indefinite" value); the language
    leaves it to the implementation. *)
Definition int_indefinite : Z := - 2 ^ 63.

(** Magnitude of [m * 2^e] rounded toward zero. *)
Definition trunc_mag (m : positive) (e : Z) : Z :=
  match e with
  | Z0 => Zpos m
  | Zpos p => Zpos m * 2 ^ Zpos p
  | Zneg p => Zpos m / 2 ^ Zpos p
  end.

(** [int(x)]: the fractional part is discarded (truncation toward zero). *)
Definition to_int (x : t) : Z :=
  match x with
  | S754_zero _ => 0
  | S754_finite s m e => cond_Zopp s (trunc_mag m e)
  | S754_infinity _ | S754_nan => int_indefinite
  end.

(** [floor(x)], the rounding the specification speaks of. *)
Definition floor (x : t) : Z :=
  match x with
  | S754_zero _ => 0
  | S754_finite false m e => trunc_mag m e
  | S754_finite true m e =>
      match e with
      | Zneg p => - ((Zpos m + 2 ^ Zpos p - 1) / 2 ^ Zpos p)
      | _ => - trunc_mag m e
      end
  | S754_infinity _ | S754_nan => int_indefinite
  end.

End F64.

(** ** Colours and the pixel buffer (package [image]) *)

Definition uint8 (z : Z) : Z := z mod 256.

Record NRGBAColor := mkColor { R : Z; G : Z; B : Z; A : Z }.

Definition zeroColor : NRGBAColor := mkColor 0 0 0 0.

Global Instance NRGBAColor_eq_dec : EqDecision NRGBAColor.
Proof. solve_decision. Defined.

(** [image.NRGBA] with [Rect.Min = (0, 0)] and [Rect.Max = (MaxX, MaxY)]. *)
Record NRGBA := mkNRGBA {
  Pix : gmap (Z * Z) NRGBAColor;
  MaxX : Z;
  MaxY : Z
}.

Definition NewNRGBA (w h : Z) : NRGBA := mkNRGBA ∅ w h.

Definition inRect (p : NRGBA) (x y : Z) : bool :=
  (0 <=? x) && (x <? MaxX p) && (0 <=? y) && (y <? MaxY p).

(** [p.Set(x, y, c)]: a point outside the rectangle is ignored. *)
Definition NRGBA_Set (p : NRGBA) (x y : Z) (c : NRGBAColor) : NRGBA :=
  if inRect p x y then mkNRGBA (<[(x, y) := c]> (Pix p)) (MaxX p) (MaxY p)
  else p.

(** [p.At(x, y)] *)
Definition NRGBA_At (p : NRGBA) (x y : Z) : NRGBAColor :=
  if inRect p x y then default zeroColor (Pix p !! (x, y)) else zeroColor.

(** ** The random source (package [rand]) and the monad of the renderer *)

Record Rand := mkRand { tape : nat -> Z; pos : nat }.

Inductive result (T : Type) : Type :=
| Ok (v : T) (g : Rand)
| Panic
| OutOfFuel.
Arguments Ok {T} v g.
Arguments Panic {T}.
Arguments OutOfFuel {T}.

Definition M (T : Type) : Type := Rand -> result T.

Definition ret {T} (v : T) : M T := fun g => Ok v g.

Definition bind {T U} (m : M T) (k : T -> M U) : M U :=
  fun g => match m g with
           | Ok v g' => k v g'
           | Panic => Panic
           | OutOfFuel => OutOfFuel
           end.

Definition panic {T} : M T := fun _ => Panic.
Definition out_of_fuel {T} : M T := fun _ => OutOfFuel.

Notation "'do' x <- m ; k" := (bind m (fun x => k))
  (at level 10, x name, m at level 100, k at level 200,
   format "'[v' 'do'  x  <-  m ; '/' k ']'").
Notation "'do' ' p <- m ; k" := (bind m (fun x => let 'p := x in k))
  (at level 10, p pattern, m at level 100, k at level 200,
   format "'[v' 'do'  ' p  <-  m ; '/' k ']'").

(** The next raw draw of the source. *)
Definition draw : M Z :=
  fun g => Ok (tape g (pos g)) (mkRand (tape g) (S (pos g))).

(** [rand.Intn(n)]: a number in [0, n).  The package [rand] this file
    imports is the one that preceded Go 1 (the file also uses [os.Error] and
    [time.Seconds]); its [Intn] is [int(r.Int63n(int64(n)))], and [Int63n]
    begins with [if n <= 0 { return 0 }]: for [n <= 0] the result is 0 and
    the source is not read. *)
Definition Intn (n : Z) : M Z :=
  if n <=? 0 then ret 0 else (do v <- draw; ret (v mod n)).

(** [rand.Float64()]: a number in [0.0, 1.0). *)
Definition Float64 : M F64.t :=
  do v <- draw;
  ret (F64.div (F64.of_int (v mod 2 ^ 53)) (F64.of_int (2 ^ 53))).

(** [rnd(from, to)] returns a random number in range [from, to]. *)
Definition rnd (from to : Z) : M Z :=
  do v <- Intn (to + 1 - from); ret (v + from).

(** ** The captcha image *)

Record CaptchaImage := mkImage {
  nrgba : NRGBA;
  primaryColor : NRGBAColor;
  numWidth : Z;
  numHeight : Z;
  dotSize : Z
}.

Definition maxSkew : Z := 2.

Definition setNRGBA (img : CaptchaImage) (p : NRGBA) : CaptchaImage :=
  mkImage p (primaryColor img) (numWidth img) (numHeight img) (dotSize img).

(** [img.Set(x, y, color)], promoted from the embedded [*image.NRGBA]. *)
Definition Set_ (img : CaptchaImage) (x y : Z) (color : NRGBAColor)
  : CaptchaImage :=
  setNRGBA img (NRGBA_Set (nrgba img) x y color).

(** *** Rasterizer *)

(** The loop of [drawHorizLine] with [n] iterations left, at column [x]. *)
Fixpoint drawHorizLine_loop (n : nat) (img : CaptchaImage)
    (color : NRGBAColor) (x y : Z) : CaptchaImage :=
  match n with
  | O => img
  | S n' => drawHorizLine_loop n' (Set_ img x y color) color (x + 1) y
  end.

Definition drawHorizLine (img : CaptchaImage) (color : NRGBAColor)
    (fromX toX y : Z) : CaptchaImage :=
  drawHorizLine_loop (Z.to_nat (toX + 1 - fromX)) img color fromX y.

(** The local variables of [drawCircle]. *)
Record circleState := mkCircle {
  cf : Z; cdfx : Z; cdfy : Z; cxx : Z; cyy : Z
}.

(** One pass through the body of the loop of [drawCircle]. *)
Definition drawCircle_step (color : NRGBAColor) (x y : Z)
    (st : circleState * CaptchaImage) : circleState * CaptchaImage :=
  let '(mkCircle f dfx dfy xx yy, img) := st in
  let '(yy, dfy, f) :=
    if 0 <=? f then (yy - 1, dfy + 2, f + (dfy + 2)) else (yy, dfy, f) in
  let xx := xx + 1 in
  let dfx := dfx + 2 in
  let f := f + dfx in
  let img := drawHorizLine img color (x - xx) (x + xx) (y + yy) in
  let img := drawHorizLine img color (x - xx) (x + xx) (y - yy) in
  let img := drawHorizLine img color (x - yy) (x + yy) (y + xx) in
  let img := drawHorizLine img color (x - yy) (x + yy) (y - xx) in
  (mkCircle f dfx dfy xx yy, img).

(** [for xx < yy { ... }] with [fuel] passes allowed; [None] when the fuel
    does not suffice. *)
Fixpoint drawCircle_loop (fuel : nat) (color : NRGBAColor) (x y : Z)
    (st : circleState * CaptchaImage) : option CaptchaImage :=
  if cxx (fst st) <? cyy (fst st) then
    match fuel with
    | O => None
    | S fuel' => drawCircle_loop fuel' color x y (drawCircle_step color x y st)
    end
  else Some (snd st).

Definition drawCircle_init (img : CaptchaImage) (color : NRGBAColor)
    (x y radius : Z) : circleState * CaptchaImage :=
  let img := Set_ img x (y + radius) color in
  let img := Set_ img x (y - radius) color in
  let img := drawHorizLine img color (x - radius) (x + radius) y in
  (mkCircle (1 - radius) 1 (-2 * radius) 0 radius, img).

(** [drawCircle] with an explicit bound on the passes through its loop. *)
Definition drawCircle_fuel (fuel : nat) (img : CaptchaImage)
    (color : NRGBAColor) (x y radius : Z) : option CaptchaImage :=
  drawCircle_loop fuel color x y (drawCircle_init img color x y radius).

(** [img.drawCircle(color, x, y, radius)]: [xx] grows by one in every pass
    and [yy] never grows, so [radius] passes suffice
    (see [drawCircle_fuel_enough]). *)
Definition drawCircle (img : CaptchaImage) (color : NRGBAColor)
    (x y radius : Z) : M CaptchaImage :=
  match drawCircle_fuel (Z.to_nat radius) img color x y radius with
  | Some img' => ret img'
  | None => out_of_fuel
  end.

(** *** Brightness jitter *)

Definition min3 (x y z : Z) : Z :=
  let o := x in
  let o := if y <? o then y else o in
  if z <? o then z else o.

Definition max3 (x y z : Z) : Z :=
  let o := x in
  let o := if o <? y then y else o in
  if o <? z then z else o.

(** [setRandomBrightness(&c, max)]; the result is the new value of [*c]. *)
Definition setRandomBrightness (c : NRGBAColor) (max : Z) : M NRGBAColor :=
  let minc := min3 (R c) (G c) (B c) in
  let maxc := max3 (R c) (G c) (B c) in
  if max <? maxc then ret c
  else
    do v <- Intn (uint8 (max - maxc));
    let n := v - minc in
    ret (mkColor (uint8 (R c + n)) (uint8 (G c + n)) (uint8 (B c + n)) (A c)).

(** *** Noise generator *)

(** The loop of [fillWithCircles] with [k] iterations left; [color] is the
    local copy of the primary colour. *)
Fixpoint fillWithCircles_loop (k : nat) (maxradius maxx maxy : Z)
    (color : NRGBAColor) (img : CaptchaImage) : M CaptchaImage :=
  match k with
  | O => ret img
  | S k' =>
      do color <- setRandomBrightness color 255;
      do r <- rnd 1 maxradius;
      do cx <- rnd r (maxx - r);
      do cy <- rnd r (maxy - r);
      do img <- drawCircle img color cx cy r;
      fillWithCircles_loop k' maxradius maxx maxy color img
  end.

Definition fillWithCircles (img : CaptchaImage) (n maxradius : Z)
  : M CaptchaImage :=
  let color := primaryColor img in
  let maxx := MaxX (nrgba img) in
  let maxy := MaxY (nrgba img) in
  fillWithCircles_loop (Z.to_nat n) maxradius maxx maxy color img.

(** What one pass through the loop of [strikeThrough] draws: the radius
    [r], the new [y] and the image. *)
Definition strikeThrough_body (maxy x y : Z) (img : CaptchaImage)
  : M (Z * Z * CaptchaImage) :=
  do r <- rnd 1 (Z.quot (dotSize img) 2 - 1);
  do dy <- rnd (Z.quot (- dotSize img) 2) (Z.quot (dotSize img) 2);
  let y := y + dy in
  do y <- (if (y <=? 0) || (maxy <=? y)
           then rnd (Z.quot maxy 3) (maxy - Z.quot maxy 3) else ret y);
  do img <- drawCircle img (primaryColor img) x y r;
  ret (r, y, img).

(** [for x := 0; x < maxx; x += r { ... }] with [fuel] passes allowed. *)
Fixpoint strikeThrough_loop (fuel : nat) (maxx maxy x y : Z)
    (img : CaptchaImage) : M CaptchaImage :=
  if x <? maxx then
    match fuel with
    | O => out_of_fuel
    | S fuel' =>
        do '(r, y, img) <- strikeThrough_body maxy x y img;
        strikeThrough_loop fuel' maxx maxy (x + r) y img
    end
  else ret img.

(** [img.strikeThrough()]: every pass advances [x] by at least one, so
    [maxx] passes suffice (see [strikeThrough_loop_total]). *)
Definition strikeThrough (img : CaptchaImage) : M CaptchaImage :=
  let maxx := MaxX (nrgba img) in
  let maxy := MaxY (nrgba img) in
  do y <- rnd (Z.quot maxy 3) (maxy - Z.quot maxy 3);
  strikeThrough_loop (Z.to_nat maxx) maxx maxy 0 y img.

(** ** The parts that depend on the font table

    [fontWidth], [fontHeight], [blackChar] and the glyph table [font] are
    declared in another file of the package; they are parameters here. *)

Section Font.

Variables fontWidth fontHeight : Z.
Variable blackChar : Z.
Variable font : list (list Z).

(** *** Layout engine *)

(** The three sizes [calculateSizes] computes from the width and the
    height of the image and the number of digits, in the order
    ([numWidth], [numHeight], [dotSize]). *)
Definition sizes (width height ncount : Z) : Z * Z * Z :=
  let border := if height <? width then Z.quot height 5 else Z.quot width 5 in
  let w := F64.of_int (width - border * 2) in
  let h := F64.of_int (height - border * 2) in
  let fw := F64.add (F64.of_int fontWidth) (F64.of_int 1) in
  let fh := F64.of_int fontHeight in
  let nc := F64.of_int ncount in
  let nw := F64.div w nc in
  let nh := F64.div (F64.mul nw fh) fw in
  let '(nh, nw) :=
    if F64.gtb nh h then (h, F64.mul (F64.div fw fh) h) else (nh, nw) in
  let dotSize := F64.to_int (F64.div nh fh) in
  (F64.to_int nw, F64.to_int nh - dotSize, dotSize).

(** [img.calculateSizes(width, height, ncount)] stores them in the image. *)
Definition calculateSizes (img : CaptchaImage) (width height ncount : Z)
  : CaptchaImage :=
  let '(nw, nh, ds) := sizes width height ncount in
  mkImage (nrgba img) (primaryColor img) nw nh ds.

(** *** Digit renderer *)

(** The inner loop of [drawNumber] over the columns [xx] of row [yy], with
    [k] columns left. *)
Fixpoint drawNumber_cols (k : nat) (number : list Z) (x y yy xx : Z)
    (minr maxr : Z) (img : CaptchaImage) : M CaptchaImage :=
  match k with
  | O => ret img
  | S k' =>
      match number !! Z.to_nat (yy * fontWidth + xx) with
      | None => panic
      | Some b =>
          do img <-
            (if decide (b = blackChar) then
               do or <- rnd minr maxr;
               do jx <- rnd 0 (Z.quot or 2);
               let ox := x + xx * dotSize img + jx in
               do jy <- rnd 0 (Z.quot or 2);
               let oy := y + yy * dotSize img + jy in
               drawCircle img (primaryColor img) ox oy or
             else ret img);
          drawNumber_cols k' number x y yy (xx + 1) minr maxr img
      end
  end.

(** The outer loop of [drawNumber] over the rows [yy], with [k] rows left. *)
Fixpoint drawNumber_rows (k : nat) (number : list Z) (skf xs : F64.t)
    (x y yy : Z) (minr maxr : Z) (img : CaptchaImage) : M CaptchaImage :=
  match k with
  | O => ret img
  | S k' =>
      do img <- drawNumber_cols (Z.to_nat fontWidth) number x y yy 0
                  minr maxr img;
      let xs := F64.add xs skf in
      let x := F64.to_int xs in
      drawNumber_rows k' number skf xs x y (yy + 1) minr maxr img
  end.

Definition drawNumber (img : CaptchaImage) (number : list Z) (x y : Z)
  : M CaptchaImage :=
  do u <- Float64;
  do k <- rnd (- maxSkew) maxSkew;
  let skf := F64.mul u (F64.of_int k) in
  let xs := F64.of_int x in
  let minr := Z.quot (dotSize img) 2 in
  let maxr := Z.quot (dotSize img) 2 + Z.quot (dotSize img) 4 in
  do dy <- rnd (- minr) minr;
  let y := y + dy in
  drawNumber_rows (Z.to_nat fontHeight) number skf xs x y 0 minr maxr img.

(** *** Image assembler *)

(** [for _, n := range numbers { img.drawNumber(font[n], x, y); x += ... }] *)
Fixpoint drawNumbers (numbers : list Z) (x y : Z) (img : CaptchaImage)
  : M CaptchaImage :=
  match numbers with
  | [] => ret img
  | n :: rest =>
      match font !! Z.to_nat n with
      | None => panic
      | Some glyph =>
          do img <- drawNumber img glyph x y;
          drawNumbers rest (x + (numWidth img + dotSize img)) y img
      end
  end.

Definition len {T} (l : list T) : Z := Z.of_nat (length l).


(** The right-most and the lowest admissible anchor of the row of digits. *)
Definition anchor_maxx (img : CaptchaImage) (width n : Z) : Z :=
  width - (numWidth img + dotSize img) * n - dotSize img.
Definition anchor_maxy (img : CaptchaImage) (height : Z) : Z :=
  height - numHeight img - dotSize img * 2.

(** The first four steps of [NewImage]: the canvas, the primary colour, the
    sizes and the background. *)
Definition NewImage_background (numbers : list Z) (width height : Z)
  : M CaptchaImage :=
  do r <- Intn 129;
  do g <- Intn 129;
  do b <- Intn 129;
  let img := mkImage (NewNRGBA width height)
                     (mkColor (uint8 r) (uint8 g) (uint8 b) 255) 0 0 0 in
  let img := calculateSizes img width height (len numbers) in
  fillWithCircles img 10 (dotSize img).

(** The random anchor [(x, y)] of the row of digits. *)
Definition NewImage_anchor (img : CaptchaImage) (numbers : list Z)
    (width height : Z) : M (Z * Z) :=
  let maxx := anchor_maxx img width (len numbers) in
  let maxy := anchor_maxy img height in
  do x <- rnd (dotSize img * 2) maxx;
  do y <- rnd (dotSize img * 2) maxy;
  ret (x, y).

Definition NewImage (numbers : list Z) (width height : Z) : M CaptchaImage :=
  do img <- NewImage_background numbers width height;
  do '(x, y) <- NewImage_anchor img numbers width height;
  do img <- drawNumbers numbers x y img;
  strikeThrough img.

End Font.


(** ** A concrete instance: a font of 5 x 8 cells *)

Definition stdFontWidth : Z := 5.
Definition stdFontHeight : Z := 8.
Definition stdBlackChar : Z := 1.

(** A glyph table of ten 5 x 8 bitmaps (a frame with a bar in row [d mod 8]);
    the claims do not depend on the shapes. *)
Definition sampleGlyph (d : Z) : list Z :=
  flat_map (fun yy =>
    map (fun xx =>
      if (xx =? 0) || (xx =? 4) || (yy =? d mod 8) then 1 else 0)
      [0; 1; 2; 3; 4])
    [0; 1; 2; 3; 4; 5; 6; 7].

Definition sampleFont : list (list Z) :=
  map sampleGlyph [0; 1; 2; 3; 4; 5; 6; 7; 8; 9].

(** A tape of raw draws. *)
Definition sampleTape (seed : Z) (k : nat) : Z :=
  (Z.of_nat k + seed) * 7919 + 104729.

Definition sampleRand (seed : Z) : Rand := mkRand (sampleTape seed) 0.

(** The sizes for a font of 5 x 8 cells. *)
Definition stdSizes : Z -> Z -> Z -> Z * Z * Z :=
  sizes stdFontWidth stdFontHeight.

(** * Properties *)

(** ** The program logic of the monad *)

(** Total correctness: on every state of the random source the computation
    returns normally, with a value that satisfies [Q]. *)
Definition succeeds {T} (m : M T) (Q : T -> Prop) : Prop :=
  forall g, exists v g', m g = Ok v g' /\ Q v.

(** Partial correctness: a value returned normally satisfies [Q]. *)
Definition post {T} (m : M T) (Q : T -> Prop) : Prop :=
  forall g v g', m g = Ok v g' -> Q v.

Lemma succeeds_ret {T} (v : T) (Q : T -> Prop) : Q v -> succeeds (ret v) Q.
Proof. intros Hq g. exists v, g. split; [reflexivity | exact Hq]. Qed.

Lemma succeeds_bind {T U} (m : M T) (k : T -> M U) P Q :
  succeeds m P -> (forall v, P v -> succeeds (k v) Q) ->
  succeeds (bind m k) Q.
Proof.
  intros Hm Hk g. destruct (Hm g) as (v & g1 & E & Hv).
  destruct (Hk v Hv g1) as (u & g2 & E2 & Hu).
  exists u, g2. unfold bind. rewrite E. auto.
Qed.

Lemma succeeds_weaken {T} (m : M T) (P Q : T -> Prop) :
  succeeds m P -> (forall v, P v -> Q v) -> succeeds m Q.
Proof.
  intros Hm Hpq g. destruct (Hm g) as (v & g1 & E & Hv). eauto.
Qed.

Lemma post_ret {T} (v : T) (Q : T -> Prop) : Q v -> post (ret v) Q.
Proof. intros Hq g v' g' E. inversion E; subst. exact Hq. Qed.

Lemma bind_Ok {T U} (m : M T) (k : T -> M U) g u g' :
  bind m k g = Ok u g' ->
  exists v g1, m g = Ok v g1 /\ k v g1 = Ok u g'.
Proof.
  unfold bind. destruct (m g) as [v g1| |]; [eauto | discriminate..].
Qed.

Lemma post_bind {T U} (m : M T) (k : T -> M U) P Q :
  post m P -> (forall v, P v -> post (k v) Q) -> post (bind m k) Q.
Proof.
  intros Hm Hk g u g' E. apply bind_Ok in E as (v & g1 & E1 & E2).
  eapply Hk; eauto.
Qed.

Lemma post_weaken {T} (m : M T) (P Q : T -> Prop) :
  post m P -> (forall v, P v -> Q v) -> post m Q.
Proof. intros Hm Hpq g v g' E. eauto. Qed.

Lemma succeeds_post {T} (m : M T) (P Q : T -> Prop) :
  succeeds m P -> post m Q -> succeeds m (fun v => P v /\ Q v).
Proof.
  intros Hs Hp g. destruct (Hs g) as (v & g1 & E & Hv).
  exists v, g1. eauto.
Qed.

(** *** The random source *)

Lemma Intn_Ok n g v g' :
  Intn n g = Ok v g' ->
  (n <= 0 /\ v = 0 /\ g' = g) \/
  (0 < n /\ 0 <= v < n /\ g' = mkRand (tape g) (S (pos g))).
Proof.
  unfold Intn. destruct (Z.leb_spec n 0).
  - cbv [ret]. intros E; inversion E; subst. left. auto.
  - cbv [bind draw ret]. intros E; inversion E; subst. right.
    split; [lia |]. split; [apply Z.mod_pos_bound; lia | reflexivity].
Qed.

Lemma Intn_Ok_pos n g v g' :
  0 < n -> Intn n g = Ok v g' ->
  0 <= v < n /\ g' = mkRand (tape g) (S (pos g)).
Proof.
  intros Hn E. apply Intn_Ok in E as [(H & _) | (_ & Hv & Hg)]; [lia | auto].
Qed.

Lemma Intn_succeeds n : 0 < n -> succeeds (Intn n) (fun v => 0 <= v < n).
Proof.
  intros Hn g. unfold Intn. destruct (Z.leb_spec n 0); [lia |].
  cbv [bind draw ret]. eexists _, _. split; [reflexivity |].
  apply Z.mod_pos_bound; lia.
Qed.

(** A bound that is not positive gives 0, and nothing is read. *)
Lemma Intn_empty n g : n <= 0 -> Intn n g = Ok 0 g.
Proof. intros Hn. unfold Intn. destruct (Z.leb_spec n 0); [reflexivity | lia]. Qed.

Lemma rnd_Ok from to g v g' :
  rnd from to g = Ok v g' ->
  (to < from /\ v = from /\ g' = g) \/
  (from <= to /\ from <= v <= to /\ g' = mkRand (tape g) (S (pos g))).
Proof.
  unfold rnd. intros E. apply bind_Ok in E as (u & g1 & E1 & E2).
  cbv [ret] in E2. inversion E2; subst.
  apply Intn_Ok in E1 as [(Hn & -> & ->) | (Hn & Hu & ->)].
  - left. repeat split; lia.
  - right. repeat split; lia.
Qed.

(** What [rnd] returns from an interval that is not empty. *)
Lemma rnd_Ok_nonempty from to g v g' :
  from <= to -> rnd from to g = Ok v g' ->
  from <= v <= to /\ g' = mkRand (tape g) (S (pos g)).
Proof.
  intros H E. apply rnd_Ok in E as [(H' & _) | (_ & Hv & Hg)]; [lia | auto].
Qed.

(** The result is never below [from], and it is in the interval when there
    is one. *)
Lemma rnd_post from to :
  post (rnd from to) (fun v => from <= v /\ (from <= to -> v <= to)).
Proof. intros g v g' E. apply rnd_Ok in E. lia. Qed.

Lemma rnd_bounds from to g v g' :
  rnd from to g = Ok v g' -> from <= v /\ (from <= to -> v <= to).
Proof. intros E. apply rnd_Ok in E. lia. Qed.

Lemma rnd_total from to :
  succeeds (rnd from to) (fun v => from <= v /\ (from <= to -> v <= to)).
Proof.
  intros g. unfold rnd, Intn. destruct (Z.leb_spec (to + 1 - from) 0).
  - cbv [bind ret]. eexists _, _. split; [reflexivity | lia].
  - cbv [bind draw ret]. eexists _, _. split; [reflexivity |].
    pose proof (Z.mod_pos_bound (tape g (pos g)) (to + 1 - from)). lia.
Qed.

Lemma rnd_succeeds from to :
  from <= to -> succeeds (rnd from to) (fun v => from <= v <= to).
Proof.
  intros H. unfold rnd. eapply succeeds_bind.
  - apply Intn_succeeds. lia.
  - intros v Hv. apply succeeds_ret. cbv beta in Hv. lia.
Qed.

(** From an empty interval [rnd] returns [from], and nothing is read. *)
Lemma rnd_empty from to g : to < from -> rnd from to g = Ok from g.
Proof. intros H. unfold rnd, bind. rewrite Intn_empty by lia. reflexivity. Qed.

(** ** Rasterizer *)

(** The stored colour of a point of the buffer. *)
Definition pixel (img : CaptchaImage) (p : Z * Z) : option NRGBAColor :=
  Pix (nrgba img) !! p.

(** The fields of the image other than the pixels. *)
Definition same_fields (img img' : CaptchaImage) : Prop :=
  primaryColor img' = primaryColor img /\
  numWidth img' = numWidth img /\
  numHeight img' = numHeight img /\
  dotSize img' = dotSize img /\
  MaxX (nrgba img') = MaxX (nrgba img) /\
  MaxY (nrgba img') = MaxY (nrgba img).

(** [img'] is [img] with some pixels painted in the colour [c]. *)
Definition paints (c : NRGBAColor) (img img' : CaptchaImage) : Prop :=
  same_fields img img' /\
  forall p, pixel img' p = pixel img p \/ pixel img' p = Some c.

Lemma same_fields_refl img : same_fields img img.
Proof. repeat split. Qed.

Lemma same_fields_trans a b c :
  same_fields a b -> same_fields b c -> same_fields a c.
Proof. unfold same_fields. intuition congruence. Qed.

Lemma paints_refl c img : paints c img img.
Proof. split; [apply same_fields_refl | auto]. Qed.

Lemma paints_trans c i1 i2 i3 :
  paints c i1 i2 -> paints c i2 i3 -> paints c i1 i3.
Proof.
  intros [F1 P1] [F2 P2]. split; [eapply same_fields_trans; eauto |].
  intros p. destruct (P2 p) as [E | E]; [rewrite E; apply P1 | auto].
Qed.

Lemma paints_keeps c img img' p :
  paints c img img' -> pixel img p = Some c -> pixel img' p = Some c.
Proof. intros [_ P] E. destruct (P p); congruence. Qed.

Lemma inRect_same_fields img img' x y :
  same_fields img img' ->
  inRect (nrgba img') x y = inRect (nrgba img) x y.
Proof. intros (_ & _ & _ & _ & Ex & Ey). unfold inRect. rewrite Ex, Ey. reflexivity. Qed.

Lemma inRect_true p x y :
  inRect p x y = true <-> 0 <= x < MaxX p /\ 0 <= y < MaxY p.
Proof. unfold inRect. rewrite !andb_true_iff. lia. Qed.

Lemma Set_paints img x y c : paints c img (Set_ img x y c).
Proof.
  unfold Set_, NRGBA_Set, setNRGBA. split.
  - destruct (inRect _ x y); repeat split.
  - intros p. unfold pixel. destruct (inRect _ x y); simpl; [| auto].
    destruct (decide ((x, y) = p)) as [<- | Hne].
    + right. apply lookup_insert_eq.
    + left. apply lookup_insert_ne, Hne.
Qed.

Lemma Set_pixel img x y c p :
  pixel (Set_ img x y c) p =
  if inRect (nrgba img) x y && bool_decide (p = (x, y)) then Some c
  else pixel img p.
Proof.
  unfold Set_, NRGBA_Set, setNRGBA, pixel.
  destruct (inRect _ x y); simpl; [| reflexivity].
  case_bool_decide as E.
  - subst p. apply lookup_insert_eq.
  - apply lookup_insert_ne. congruence.
Qed.

Lemma drawHorizLine_loop_paints n : forall img c x y,
  paints c img (drawHorizLine_loop n img c x y).
Proof.
  induction n as [| n IH]; intros; simpl; [apply paints_refl |].
  eapply paints_trans; [apply Set_paints | apply IH].
Qed.

Lemma drawHorizLine_paints img c fromX toX y :
  paints c img (drawHorizLine img c fromX toX y).
Proof. apply drawHorizLine_loop_paints. Qed.

(** The loop touches only the columns [x .. x + n - 1] of row [y]. *)
Lemma drawHorizLine_loop_pixel n : forall img c x y p,
  pixel (drawHorizLine_loop n img c x y) p =
  if bool_decide (snd p = y /\ x <= fst p < x + Z.of_nat n)
     && inRect (nrgba img) (fst p) y
  then Some c else pixel img p.
Proof.
  induction n as [| n IH]; intros img c x y [px py]; simpl fst; simpl snd.
  - simpl. case_bool_decide; [lia | reflexivity].
  - cbn [drawHorizLine_loop]. rewrite IH. simpl fst; simpl snd.
    rewrite (inRect_same_fields img) by apply Set_paints.
    rewrite Set_pixel.
    destruct (decide (py = y /\ px = x)) as [[-> ->] | Hne].
    + rewrite (bool_decide_eq_false_2 (_ /\ x + 1 <= x < _)) by lia.
      rewrite (bool_decide_eq_true_2 (_ /\ x <= x < _)) by lia.
      rewrite (bool_decide_eq_true_2 (_ = _)) by reflexivity.
      simpl. rewrite andb_true_r. reflexivity.
    + rewrite (bool_decide_eq_false_2 ((px, py) = (x, y)))
        by (intros [= -> ->]; tauto).
      rewrite andb_false_r.
      rewrite (bool_decide_ext (py = y /\ x + 1 <= px < x + 1 + Z.of_nat n)
                 (py = y /\ x <= px < x + Z.of_nat (S n))) by lia.
      reflexivity.
Qed.

Lemma drawHorizLine_pixel img c fromX toX y p :
  pixel (drawHorizLine img c fromX toX y) p =
  if bool_decide (snd p = y /\ fromX <= fst p <= toX)
     && inRect (nrgba img) (fst p) y
  then Some c else pixel img p.
Proof.
  unfold drawHorizLine. rewrite drawHorizLine_loop_pixel.
  repeat case_bool_decide; try reflexivity; exfalso; lia.
Qed.

Lemma drawCircle_step_paints c x y st :
  paints c (snd st) (snd (drawCircle_step c x y st)).
Proof.
  destruct st as [[f dfx dfy xx yy] img]. unfold drawCircle_step.
  destruct (0 <=? f); simpl;
    repeat (eapply paints_trans; [| apply drawHorizLine_paints]);
    apply paints_refl.
Qed.

(** One pass moves [xx] up by one and [yy] down by at most one. *)
Lemma drawCircle_step_measure c x y st :
  let st' := fst (drawCircle_step c x y st) in
  cxx st' = cxx (fst st) + 1 /\ cyy st' <= cyy (fst st).
Proof.
  destruct st as [[f dfx dfy xx yy] img]. unfold drawCircle_step.
  destruct (0 <=? f); simpl; lia.
Qed.

Lemma drawCircle_loop_paints c x y fuel : forall st img',
  drawCircle_loop fuel c x y st = Some img' -> paints c (snd st) img'.
Proof.
  induction fuel as [| fuel IH]; intros st img'; simpl;
    destruct (cxx (fst st) <? cyy (fst st)); try discriminate.
  - intros [= <-]. apply paints_refl.
  - intros E. eapply paints_trans; [apply drawCircle_step_paints | eauto].
  - intros [= <-]. apply paints_refl.
Qed.

(** [yy - xx] passes suffice for the loop of [drawCircle]. *)
Lemma drawCircle_loop_fuel_enough c x y fuel : forall st,
  cyy (fst st) - cxx (fst st) <= Z.of_nat fuel ->
  exists img', drawCircle_loop fuel c x y st = Some img'.
Proof.
  induction fuel as [| fuel IH]; intros st Hf; simpl;
    destruct (Z.ltb_spec (cxx (fst st)) (cyy (fst st))); eauto; [lia |].
  apply IH. pose proof (drawCircle_step_measure c x y st) as [E1 E2].
  simpl in E1, E2. lia.
Qed.

Lemma drawCircle_init_paints img c x y r :
  paints c img (snd (drawCircle_init img c x y r)).
Proof.
  unfold drawCircle_init. simpl.
  eapply paints_trans; [| apply drawHorizLine_paints].
  eapply paints_trans; apply Set_paints.
Qed.

Lemma drawCircle_fuel_enough img c x y r :
  exists img', drawCircle_fuel (Z.to_nat r) img c x y r = Some img'.
Proof.
  unfold drawCircle_fuel. apply drawCircle_loop_fuel_enough.
  unfold drawCircle_init. simpl. lia.
Qed.

(** [drawCircle] always returns, consumes no randomness, and only paints
    pixels in [color]. *)
Lemma drawCircle_Ok img c x y r g :
  exists img', drawCircle img c x y r g = Ok img' g /\ paints c img img'.
Proof.
  unfold drawCircle. destruct (drawCircle_fuel_enough img c x y r) as [img' E].
  rewrite E. exists img'. split; [reflexivity |].
  unfold drawCircle_fuel in E. apply drawCircle_loop_paints in E.
  eapply paints_trans; [apply drawCircle_init_paints | exact E].
Qed.

Lemma drawCircle_succeeds img c x y r :
  succeeds (drawCircle img c x y r) (paints c img).
Proof.
  intros g. destruct (drawCircle_Ok img c x y r g) as (img' & E & P). eauto.
Qed.

Lemma drawCircle_inv img c x y r g img' g' :
  drawCircle img c x y r g = Ok img' g' -> g' = g /\ paints c img img'.
Proof.
  destruct (drawCircle_Ok img c x y r g) as (img1 & E & P).
  rewrite E. intros [= <- <-]. auto.
Qed.

(** The colour read back from the buffer, [img.At(x, y)]. *)
Definition At (img : CaptchaImage) (x y : Z) : NRGBAColor :=
  NRGBA_At (nrgba img) x y.

Lemma At_pixel img x y c :
  inRect (nrgba img) x y = true -> pixel img (x, y) = Some c -> At img x y = c.
Proof.
  unfold At, NRGBA_At, pixel. intros -> ->. reflexivity.
Qed.

(** The pixels [drawCircle] sets before its loop. *)
Lemma drawCircle_init_pixels img c x y r :
  let img0 := snd (drawCircle_init img c x y r) in
  (inRect (nrgba img) x (y + r) = true -> pixel img0 (x, y + r) = Some c) /\
  (inRect (nrgba img) x (y - r) = true -> pixel img0 (x, y - r) = Some c) /\
  (forall x', x - r <= x' <= x + r -> inRect (nrgba img) x' y = true ->
              pixel img0 (x', y) = Some c).
Proof.
  unfold drawCircle_init. cbn [snd].
  set (i1 := Set_ img x (y + r) c). set (i2 := Set_ i1 x (y - r) c).
  assert (P1 : paints c img i1) by apply Set_paints.
  assert (P2 : paints c i1 i2) by apply Set_paints.
  assert (H1 : inRect (nrgba img) x (y + r) = true ->
               pixel i1 (x, y + r) = Some c).
  { intros E. unfold i1. rewrite Set_pixel, E.
    rewrite bool_decide_eq_true_2 by reflexivity. reflexivity. }
  assert (H2 : inRect (nrgba img) x (y - r) = true ->
               pixel i2 (x, y - r) = Some c).
  { intros E. unfold i2. rewrite Set_pixel.
    rewrite (inRect_same_fields img) by apply P1. rewrite E.
    rewrite bool_decide_eq_true_2 by reflexivity. reflexivity. }
  split; [| split].
  - intros E. eapply paints_keeps; [apply drawHorizLine_paints |].
    eapply paints_keeps; [apply P2 | auto].
  - intros E. eapply paints_keeps; [apply drawHorizLine_paints | auto].
  - intros x' Hx E. rewrite drawHorizLine_pixel. cbn [fst snd].
    rewrite bool_decide_eq_true_2 by lia.
    rewrite (inRect_same_fields img)
      by (eapply same_fields_trans; [apply P1 | apply P2]).
    rewrite E. reflexivity.
Qed.

Definition blankImage (w h : Z) : CaptchaImage :=
  mkImage (NewNRGBA w h) zeroColor 0 0 0.

Definition opaqueRed : NRGBAColor := mkColor 255 0 0 255.

(** C4: for a radius [r >= 1] and a centre [(cx, cy)] whose touched pixels
    lie inside the canvas, [drawCircle] returns normally and leaves the
    pixels [(cx, cy + r)], [(cx, cy - r)] and the whole span
    [cx - r .. cx + r] of row [cy] in the given colour. *)
Theorem drawCircle_sets_poles_and_diameter img color cx cy r :
  1 <= r ->
  0 <= cx - r -> cx + r < MaxX (nrgba img) ->
  0 <= cy - r -> cy + r < MaxY (nrgba img) ->
  forall g, exists img',
    drawCircle img color cx cy r g = Ok img' g /\
    At img' cx (cy + r) = color /\
    At img' cx (cy - r) = color /\
    forall x', cx - r <= x' <= cx + r -> At img' x' cy = color.
Proof.
  intros Hr Hx0 Hx1 Hy0 Hy1 g.
  unfold drawCircle.
  destruct (drawCircle_fuel_enough img color cx cy r) as [img' E].
  rewrite E. exists img'. split; [reflexivity |].
  unfold drawCircle_fuel in E. apply drawCircle_loop_paints in E.
  pose proof (drawCircle_init_paints img color cx cy r) as P0.
  pose proof (drawCircle_init_pixels img color cx cy r) as (I1 & I2 & I3).
  cbv zeta in I1, I2, I3.
  assert (F : same_fields img img')
    by (eapply same_fields_trans; [apply P0 | apply E]).
  assert (R : forall x y, 0 <= x < MaxX (nrgba img) ->
                          0 <= y < MaxY (nrgba img) ->
                          inRect (nrgba img) x y = true)
    by (intros; apply inRect_true; lia).
  assert (R' : forall x y, 0 <= x < MaxX (nrgba img) ->
                           0 <= y < MaxY (nrgba img) ->
                           inRect (nrgba img') x y = true)
    by (intros; rewrite (inRect_same_fields img) by exact F; auto).
  repeat split.
  - apply At_pixel; [apply R'; lia |].
    eapply paints_keeps; [exact E | apply I1, R; lia].
  - apply At_pixel; [apply R'; lia |].
    eapply paints_keeps; [exact E | apply I2, R; lia].
  - intros x' Hx'. apply At_pixel; [apply R'; lia |].
    eapply paints_keeps; [exact E | apply I3; [lia | apply R; lia]].
Qed.

Lemma drawCircle_sets_poles_and_diameter_witness :
  1 <= 2 /\
  exists img',
    drawCircle (blankImage 7 7) opaqueRed 3 3 2 (mkRand (fun _ => 0) 0)
      = Ok img' (mkRand (fun _ => 0) 0) /\
    At img' 3 (3 + 2) = opaqueRed /\
    At img' 3 (3 - 2) = opaqueRed /\
    forall x', 3 - 2 <= x' <= 3 + 2 -> At img' x' 3 = opaqueRed.
Proof.
  split; [lia |].
  apply (drawCircle_sets_poles_and_diameter (blankImage 7 7) opaqueRed 3 3 2);
    simpl; lia.
Defined.

(** The loop of [drawCircle] is not entered for a radius [r <= 0], and the
    span [cx - r .. cx + r] is empty for [r < 0]. *)
Lemma drawCircle_nonpositive img color cx cy r g :
  r <= 0 ->
  drawCircle img color cx cy r g =
  Ok (drawHorizLine (Set_ (Set_ img cx (cy + r) color) cx (cy - r) color)
        color (cx - r) (cx + r) cy) g.
Proof.
  intros Hr. unfold drawCircle, drawCircle_fuel.
  replace (Z.to_nat r) with O by lia.
  unfold drawCircle_init, drawCircle_loop. cbn [fst snd cxx cyy].
  destruct (Z.ltb_spec 0 r); [lia | reflexivity].
Qed.

(** C5 (as amended): for a radius [r <= 0], [drawCircle] returns normally
    and modifies no pixel other than [(cx, cy + r)] and [(cx, cy - r)]; for
    [r = 0] both are the centre, for [r < 0] they lie [-r] rows below and
    above it. *)
Theorem drawCircle_nonpositive_radius img color cx cy r :
  r <= 0 ->
  forall g, exists img',
    drawCircle img color cx cy r g = Ok img' g /\
    same_fields img img' /\
    forall p, p <> (cx, cy + r) -> p <> (cx, cy - r) ->
              pixel img' p = pixel img p.
Proof.
  intros Hr g. rewrite drawCircle_nonpositive by exact Hr.
  eexists. split; [reflexivity |]. split.
  - eapply same_fields_trans; [| apply drawHorizLine_paints].
    eapply same_fields_trans; apply Set_paints.
  - intros [px py] N1 N2. rewrite drawHorizLine_pixel. cbn [fst snd].
    assert (D : bool_decide (py = cy /\ cx - r <= px <= cx + r)
                && inRect (nrgba (Set_ (Set_ img cx (cy + r) color)
                                     cx (cy - r) color)) px cy = false).
    { case_bool_decide as Hd; [| reflexivity].
      exfalso. destruct Hd as [-> Hd].
      assert (r = 0) as -> by lia. apply N1. f_equal; lia. }
    rewrite D, !Set_pixel.
    rewrite (bool_decide_eq_false_2 (_ = (cx, cy - r))) by exact N2.
    rewrite (bool_decide_eq_false_2 (_ = (cx, cy + r))) by exact N1.
    rewrite !andb_false_r. reflexivity.
Qed.

Lemma drawCircle_nonpositive_radius_witness :
  -2 <= 0 /\
  exists img',
    drawCircle (blankImage 5 5) opaqueRed 2 2 (-2) (mkRand (fun _ => 0) 0)
      = Ok img' (mkRand (fun _ => 0) 0) /\
    same_fields (blankImage 5 5) img' /\
    forall p, p <> (2, 2 + -2) -> p <> (2, 2 - -2) ->
              pixel img' p = pixel (blankImage 5 5) p.
Proof.
  split; [lia |].
  apply (drawCircle_nonpositive_radius (blankImage 5 5) opaqueRed 2 2 (-2)); lia.
Defined.

(** C5 as stated fails: with radius [-1] the centre [(1, 1)] of a 3 x 3
    canvas is left alone and the pixels above and below it are painted. *)
Lemma drawCircle_negative_radius_paints_off_centre :
  exists img',
    drawCircle (blankImage 3 3) opaqueRed 1 1 (-1) (mkRand (fun _ => 0) 0)
      = Ok img' (mkRand (fun _ => 0) 0) /\
    (1, 0) <> (1, 1) /\
    pixel (blankImage 3 3) (1, 0) = None /\
    pixel img' (1, 0) = Some opaqueRed /\
    pixel img' (1, 2) = Some opaqueRed /\
    pixel img' (1, 1) = None.
Proof.
  eexists. split; [reflexivity |].
  split; [discriminate |]. vm_compute. auto.
Qed.

(** ** Brightness jitter *)

Definition is_uint8 (z : Z) : Prop := 0 <= z < 256.

Definition color_ok (c : NRGBAColor) : Prop :=
  is_uint8 (R c) /\ is_uint8 (G c) /\ is_uint8 (B c) /\ is_uint8 (A c).

Lemma min3_spec x y z :
  min3 x y z <= x /\ min3 x y z <= y /\ min3 x y z <= z /\
  (min3 x y z = x \/ min3 x y z = y \/ min3 x y z = z).
Proof.
  unfold min3. destruct (Z.ltb_spec y x); [destruct (Z.ltb_spec z y) |
    destruct (Z.ltb_spec z x)]; lia.
Qed.

Lemma max3_spec x y z :
  x <= max3 x y z /\ y <= max3 x y z /\ z <= max3 x y z /\
  (max3 x y z = x \/ max3 x y z = y \/ max3 x y z = z).
Proof.
  unfold max3. destruct (Z.ltb_spec x y); [destruct (Z.ltb_spec y z) |
    destruct (Z.ltb_spec x z)]; lia.
Qed.

(** The colour [c] with the same [n] added to its three colour channels. *)
Definition shifted (c : NRGBAColor) (n : Z) : NRGBAColor :=
  mkColor (R c + n) (G c + n) (B c + n) (A c).

Lemma uint8_id z : is_uint8 z -> uint8 z = z.
Proof. intros H. apply Z.mod_small. exact H. Qed.

(** Below the ceiling, one delta [n] is drawn and added to all three colour
    channels, none of which wraps around. *)
Lemma setRandomBrightness_below c max g :
  color_ok c -> is_uint8 max ->
  max3 (R c) (G c) (B c) < max ->
  exists n,
    setRandomBrightness c max g
      = Ok (shifted c n) (mkRand (tape g) (S (pos g))) /\
    - min3 (R c) (G c) (B c) <= n
      < max - max3 (R c) (G c) (B c) - min3 (R c) (G c) (B c).
Proof.
  intros (Hr & Hg & Hb & Ha) Hm Hlt.
  pose proof (min3_spec (R c) (G c) (B c)) as (m1 & m2 & m3 & m4).
  pose proof (max3_spec (R c) (G c) (B c)) as (x1 & x2 & x3 & x4).
  unfold is_uint8 in *. unfold setRandomBrightness.
  destruct (Z.ltb_spec max (max3 (R c) (G c) (B c))); [lia |].
  rewrite (uint8_id (max - _)) by (unfold is_uint8; lia).
  destruct (Intn_succeeds (max - max3 (R c) (G c) (B c)) ltac:(lia) g)
    as (v & g' & E & Hv).
  assert (Hpos : 0 < max - max3 (R c) (G c) (B c)) by lia.
  pose proof (Intn_Ok_pos _ _ _ _ Hpos E) as (_ & ->).
  exists (v - min3 (R c) (G c) (B c)). unfold bind. rewrite E.
  split; [| lia]. cbv [ret shifted]. f_equal. f_equal;
    apply uint8_id; unfold is_uint8; lia.
Qed.

(** At the ceiling the bound of [rand.Intn] is 0: nothing is drawn, and the
    delta is the smallest channel taken off. *)
Lemma setRandomBrightness_at_ceiling c max g :
  color_ok c -> is_uint8 max -> max3 (R c) (G c) (B c) = max ->
  setRandomBrightness c max g
  = Ok (shifted c (- min3 (R c) (G c) (B c))) g.
Proof.
  intros (Hr & Hg & Hb & Ha) Hm E.
  pose proof (min3_spec (R c) (G c) (B c)) as (m1 & m2 & m3 & m4).
  unfold is_uint8 in *. unfold setRandomBrightness. rewrite E.
  rewrite Z.ltb_irrefl, Z.sub_diag. change (uint8 0) with 0.
  unfold bind. rewrite Intn_empty by lia. cbv [ret shifted].
  f_equal. f_equal; rewrite uint8_id by (unfold is_uint8; lia); lia.
Qed.

(** Above the ceiling the call returns at once. *)
Lemma setRandomBrightness_above c max g :
  max < max3 (R c) (G c) (B c) -> setRandomBrightness c max g = Ok c g.
Proof.
  intros H. unfold setRandomBrightness.
  destruct (Z.ltb_spec max (max3 (R c) (G c) (B c))) as [_ | Hle];
    [reflexivity | exfalso; clear - H Hle; lia].
Qed.

Lemma shifted_0 c : shifted c 0 = c.
Proof. destruct c as [r g b a]. unfold shifted. simpl. f_equal; lia. Qed.

(** C7 (as amended): for a colour [c] and a ceiling [max] (all of them
    [uint8]), every call adds one and the same delta [n] to R, G and B
    (alpha is kept), and channels that did not exceed [max] stay in
    [0, max].  When the largest channel exceeds [max] the call is a no-op,
    on the colour and on the random source.  When it equals [max], nothing
    is drawn and the delta is the smallest channel taken off.  When it is
    below [max], one draw is read and the three channels stay in
    [0, max).  A delta of 0 leaves the colour as it was in the last two
    cases as well. *)
Theorem setRandomBrightness_shared_delta c max :
  color_ok c -> is_uint8 max ->
  (forall g, exists n g',
     setRandomBrightness c max g = Ok (shifted c n) g' /\
     (max3 (R c) (G c) (B c) <= max ->
      0 <= R c + n <= max /\ 0 <= G c + n <= max /\ 0 <= B c + n <= max)) /\
  (max < max3 (R c) (G c) (B c) ->
   forall g, setRandomBrightness c max g = Ok c g) /\
  (max3 (R c) (G c) (B c) = max ->
   forall g, setRandomBrightness c max g
             = Ok (shifted c (- min3 (R c) (G c) (B c))) g) /\
  (max3 (R c) (G c) (B c) < max ->
   forall g, exists n,
     setRandomBrightness c max g
       = Ok (shifted c n) (mkRand (tape g) (S (pos g))) /\
     0 <= R c + n < max /\ 0 <= G c + n < max /\ 0 <= B c + n < max).
Proof.
  intros Hc Hm.
  pose proof (min3_spec (R c) (G c) (B c)) as Hmin.
  pose proof (max3_spec (R c) (G c) (B c)) as Hmax.
  assert (Hb : max3 (R c) (G c) (B c) < max ->
               forall g, exists n,
                 setRandomBrightness c max g
                 = Ok (shifted c n) (mkRand (tape g) (S (pos g))) /\
                 0 <= R c + n < max /\ 0 <= G c + n < max /\
                 0 <= B c + n < max).
  { intros H g.
    destruct (setRandomBrightness_below c max g Hc Hm H) as (n & E & Hn).
    exists n. split; [exact E |].
    unfold color_ok, is_uint8 in Hc. lia. }
  split; [| split; [| split]].
  - intros g.
    destruct (Z.lt_trichotomy max (max3 (R c) (G c) (B c)))
      as [H | [H | H]].
    + exists 0, g. rewrite shifted_0. split; [| lia].
      apply setRandomBrightness_above. exact H.
    + exists (- min3 (R c) (G c) (B c)), g.
      split; [apply setRandomBrightness_at_ceiling; auto |].
      unfold color_ok, is_uint8 in Hc. lia.
    + destruct (Hb H g) as (n & E & Hn). exists n, (mkRand (tape g) (S (pos g))).
      split; [exact E | lia].
  - intros H g. apply setRandomBrightness_above. exact H.
  - intros H g. apply setRandomBrightness_at_ceiling; auto.
  - exact Hb.
Qed.

Lemma setRandomBrightness_shared_delta_witness :
  color_ok (mkColor 10 20 30 255) /\ is_uint8 255 /\
  (forall g, exists n g',
     setRandomBrightness (mkColor 10 20 30 255) 255 g
       = Ok (shifted (mkColor 10 20 30 255) n) g' /\
     (max3 10 20 30 <= 255 ->
      0 <= 10 + n <= 255 /\ 0 <= 20 + n <= 255 /\ 0 <= 30 + n <= 255)) /\
  (255 < max3 10 20 30 ->
   forall g, setRandomBrightness (mkColor 10 20 30 255) 255 g
             = Ok (mkColor 10 20 30 255) g) /\
  (max3 10 20 30 = 255 ->
   forall g, setRandomBrightness (mkColor 10 20 30 255) 255 g
             = Ok (shifted (mkColor 10 20 30 255) (- min3 10 20 30)) g) /\
  (max3 10 20 30 < 255 ->
   forall g, exists n,
     setRandomBrightness (mkColor 10 20 30 255) 255 g
       = Ok (shifted (mkColor 10 20 30 255) n)
            (mkRand (tape g) (S (pos g))) /\
     0 <= 10 + n < 255 /\ 0 <= 20 + n < 255 /\ 0 <= 30 + n < 255).
Proof.
  assert (Hc : color_ok (mkColor 10 20 30 255))
    by (unfold color_ok, is_uint8; simpl; lia).
  assert (Hm : is_uint8 255) by (unfold is_uint8; lia).
  split; [exact Hc |]. split; [exact Hm |].
  exact (setRandomBrightness_shared_delta (mkColor 10 20 30 255) 255 Hc Hm).
Defined.

(** C7 as stated fails in its "exactly when": a call can be a no-op although
    the largest channel does not exceed [max].  At the ceiling with a
    smallest channel of 0 the delta is 0 and nothing is read; below the
    ceiling a draw that equals the smallest channel gives the delta 0, and
    the colour is the one that was passed. *)
Lemma setRandomBrightness_noop_without_excess :
  (color_ok (mkColor 255 0 0 255) /\ is_uint8 255 /\
   ~ (255 < max3 255 0 0) /\
   forall g, setRandomBrightness (mkColor 255 0 0 255) 255 g
             = Ok (mkColor 255 0 0 255) g) /\
  (color_ok (mkColor 10 20 30 255) /\ ~ (255 < max3 10 20 30) /\
   setRandomBrightness (mkColor 10 20 30 255) 255 (mkRand (fun _ => 10) 0)
   = Ok (mkColor 10 20 30 255) (mkRand (fun _ => 10) 1)).
Proof.
  split.
  - split; [unfold color_ok, is_uint8; simpl; lia |].
    split; [unfold is_uint8; lia |].
    split; [vm_compute; discriminate |].
    intros g. reflexivity.
  - split; [unfold color_ok, is_uint8; simpl; lia |].
    split; [vm_compute; discriminate |]. reflexivity.
Qed.

(** ** Frame properties of the drawing routines *)

(** Inversion of a run that returned normally. *)
Ltac inv_run :=
  repeat match goal with
  | H : bind _ _ _ = Ok _ _ |- _ =>
      let v := fresh "v" in let g := fresh "g" in let E := fresh "E" in
      apply bind_Ok in H as (v & g & E & H)
  | H : ret _ _ = Ok _ _ |- _ => cbv [ret] in H; inversion H; subst; clear H
  | H : panic _ = Ok _ _ |- _ => discriminate H
  | H : out_of_fuel _ = Ok _ _ |- _ => discriminate H
  | H : rnd _ _ _ = Ok _ _ |- _ => apply rnd_bounds in H
  | H : drawCircle _ _ _ _ _ _ = Ok _ _ |- _ =>
      let P := fresh "P" in apply drawCircle_inv in H as (-> & P)
  | H : (let '(_, _) := ?v in _) _ = Ok _ _ |- _ => destruct v
  end.

Lemma fillWithCircles_loop_same_fields k : forall maxradius maxx maxy color img,
  post (fillWithCircles_loop k maxradius maxx maxy color img)
       (same_fields img).
Proof.
  induction k as [| k IH]; intros maxradius maxx maxy color img g img' g' E;
    cbn [fillWithCircles_loop] in E.
  - inv_run. apply same_fields_refl.
  - inv_run. apply IH in E. eapply same_fields_trans; [apply P | exact E].
Qed.

Lemma fillWithCircles_same_fields img n maxradius :
  post (fillWithCircles img n maxradius) (same_fields img).
Proof. apply fillWithCircles_loop_same_fields. Qed.

Lemma strikeThrough_body_post maxy x y img :
  post (strikeThrough_body maxy x y img)
       (fun '(r, _, img') => 1 <= r /\ paints (primaryColor img) img img').
Proof.
  intros g [[r y'] img'] g' E. unfold strikeThrough_body in E. inv_run.
  split; [lia | exact P].
Qed.

Lemma paints_same_color c c' img img' :
  c' = c -> paints c img img' -> paints c' img img'.
Proof. intros ->. auto. Qed.

Lemma strikeThrough_loop_paints fuel : forall maxx maxy x y img,
  post (strikeThrough_loop fuel maxx maxy x y img)
       (paints (primaryColor img) img).
Proof.
  induction fuel as [| fuel IH]; intros maxx maxy x y img g img' g' E;
    cbn [strikeThrough_loop] in E; destruct (x <? maxx).
  - discriminate E.
  - inv_run. apply paints_refl.
  - inv_run. apply strikeThrough_body_post in E0 as [_ P].
    apply IH in E. eapply paints_trans; [exact P |].
    eapply paints_same_color; [| exact E]. symmetry. apply P.
  - inv_run. apply paints_refl.
Qed.

Lemma strikeThrough_paints img :
  post (strikeThrough img) (paints (primaryColor img) img).
Proof.
  intros g img' g' E. unfold strikeThrough in E. inv_run.
  eapply strikeThrough_loop_paints; eauto.
Qed.

Section FontFrame.

Variables fontWidth fontHeight blackChar : Z.
Variable font : list (list Z).

Lemma drawNumber_cols_paints k : forall number x y yy xx minr maxr img,
  post (drawNumber_cols fontWidth blackChar k number x y yy xx minr maxr img)
       (paints (primaryColor img) img).
Proof.
  induction k as [| k IH]; intros number x y yy xx minr maxr img g img' g' E;
    cbn [drawNumber_cols] in E.
  - inv_run. apply paints_refl.
  - destruct (number !! _) as [b |]; [| discriminate E].
    apply bind_Ok in E as (img1 & g1 & E1 & E).
    assert (P1 : paints (primaryColor img) img img1).
    { destruct (decide (b = blackChar)); inv_run;
        [exact P | apply paints_refl]. }
    apply IH in E. eapply paints_trans; [exact P1 |].
    eapply paints_same_color; [| exact E]. symmetry. apply P1.
Qed.

Lemma drawNumber_rows_paints k : forall number skf xs x y yy minr maxr img,
  post (drawNumber_rows fontWidth blackChar k number skf xs x y yy
          minr maxr img)
       (paints (primaryColor img) img).
Proof.
  induction k as [| k IH];
    intros number skf xs x y yy minr maxr img g img' g' E;
    cbn [drawNumber_rows] in E.
  - inv_run. apply paints_refl.
  - apply bind_Ok in E as (img1 & g1 & E1 & E).
    apply drawNumber_cols_paints in E1. apply IH in E.
    eapply paints_trans; [exact E1 |].
    eapply paints_same_color; [| exact E]. symmetry. apply E1.
Qed.

Lemma drawNumber_paints img number x y :
  post (drawNumber fontWidth fontHeight blackChar img number x y)
       (paints (primaryColor img) img).
Proof.
  intros g img' g' E. unfold drawNumber in E.
  apply bind_Ok in E as (u & g1 & _ & E). inv_run.
  eapply drawNumber_rows_paints; eauto.
Qed.

Lemma drawNumbers_paints numbers : forall x y img,
  post (drawNumbers fontWidth fontHeight blackChar font numbers x y img)
       (paints (primaryColor img) img).
Proof.
  induction numbers as [| n rest IH]; intros x y img g img' g' E;
    cbn [drawNumbers] in E.
  - inv_run. apply paints_refl.
  - destruct (font !! _) as [glyph |]; [| discriminate E].
    apply bind_Ok in E as (img1 & g1 & E1 & E).
    apply drawNumber_paints in E1. apply IH in E.
    eapply paints_trans; [exact E1 |].
    eapply paints_same_color; [| exact E]. symmetry. apply E1.
Qed.

(** C10: [fillWithCircles] changes nothing but the pixel buffer: the
    primary colour, [numWidth], [numHeight], [dotSize] (and the bounds) of
    the image it returns are those it was given, the jitter having gone to
    a local copy of the colour; hence whatever [drawNumber] and
    [strikeThrough] paint afterwards is painted in the original primary
    colour. *)
Theorem fillWithCircles_only_pixels img n maxradius g img1 g1 :
  fillWithCircles img n maxradius g = Ok img1 g1 ->
  same_fields img img1 /\
  (forall glyph x y g2 img2 g3,
     drawNumber fontWidth fontHeight blackChar img1 glyph x y g2
       = Ok img2 g3 ->
     paints (primaryColor img) img1 img2) /\
  (forall g2 img2 g3,
     strikeThrough img1 g2 = Ok img2 g3 ->
     paints (primaryColor img) img1 img2).
Proof.
  intros E. apply fillWithCircles_same_fields in E.
  assert (Ec : primaryColor img = primaryColor img1) by (symmetry; apply E).
  split; [exact E |]. rewrite Ec. split.
  - intros glyph x y g2 img2 g3 E2. eapply drawNumber_paints; eauto.
  - intros g2 img2 g3 E2. eapply strikeThrough_paints; eauto.
Qed.

End FontFrame.

(** ** Termination and absence of panics *)

Ltac zlia := Z.to_euclidean_division_equations; lia.

(** More fuel does not change the result of a loop that has ended. *)
Lemma drawCircle_loop_fuel_mono c x y fuel : forall st img' fuel',
  drawCircle_loop fuel c x y st = Some img' -> (fuel <= fuel')%nat ->
  drawCircle_loop fuel' c x y st = Some img'.
Proof.
  induction fuel as [| fuel IH]; intros st img' fuel' E Hle;
    destruct fuel' as [| fuel']; simpl in *;
    destruct (cxx (fst st) <? cyy (fst st)); try discriminate; auto; [lia |].
  apply IH; [exact E | lia].
Qed.

Lemma strikeThrough_loop_fuel_mono fuel : forall maxx maxy x y img g img' g' fuel',
  strikeThrough_loop fuel maxx maxy x y img g = Ok img' g' ->
  (fuel <= fuel')%nat ->
  strikeThrough_loop fuel' maxx maxy x y img g = Ok img' g'.
Proof.
  induction fuel as [| fuel IH]; intros maxx maxy x y img g img' g' fuel' E Hle;
    destruct fuel' as [| fuel']; cbn [strikeThrough_loop] in *;
    destruct (x <? maxx); try discriminate; auto; [lia |].
  apply bind_Ok in E as ([[r y1] img1] & g1 & E1 & E).
  unfold bind. rewrite E1. apply IH; [exact E | lia].
Qed.

(** With [dotSize >= 4] and a canvas of non-negative height, one pass of the
    loop of [strikeThrough] returns normally, with a step [r >= 1]. *)
Lemma strikeThrough_body_succeeds maxy x y img :
  4 <= dotSize img -> 0 <= maxy ->
  succeeds (strikeThrough_body maxy x y img)
    (fun '(r, _, img') => 1 <= r /\ paints (primaryColor img) img img').
Proof.
  intros Hd Hy. unfold strikeThrough_body.
  eapply succeeds_bind; [apply rnd_succeeds; zlia |]. intros r Hr.
  eapply succeeds_bind; [apply rnd_succeeds; zlia |]. intros dy Hdy.
  eapply succeeds_bind with (P := fun _ => True).
  { destruct (_ || _).
    - eapply succeeds_weaken; [apply rnd_succeeds; zlia | auto].
    - apply succeeds_ret. exact I. }
  intros y' _.
  eapply succeeds_bind; [apply drawCircle_succeeds |]. intros img' P.
  apply succeeds_ret. cbv beta in Hr. split; [lia | exact P].
Qed.

(** [maxx - x] passes suffice for the loop of [strikeThrough]. *)
Lemma strikeThrough_loop_succeeds fuel : forall maxx maxy x y img,
  4 <= dotSize img -> 0 <= maxy ->
  maxx - x <= Z.of_nat fuel ->
  succeeds (strikeThrough_loop fuel maxx maxy x y img)
           (paints (primaryColor img) img).
Proof.
  induction fuel as [| fuel IH]; intros maxx maxy x y img Hd Hy Hf;
    cbn [strikeThrough_loop]; destruct (Z.ltb_spec x maxx);
    try (apply succeeds_ret, paints_refl); [lia |].
  eapply succeeds_bind; [apply strikeThrough_body_succeeds; assumption |].
  intros [[r y1] img1] [Hr P].
  assert (Ed : dotSize img1 = dotSize img) by apply P.
  eapply succeeds_weaken.
  - apply IH; [rewrite Ed; exact Hd | exact Hy | lia].
  - intros img2 P2. eapply paints_trans; [exact P |].
    eapply paints_same_color; [| exact P2]. symmetry. apply P.
Qed.

Lemma strikeThrough_succeeds img :
  4 <= dotSize img -> 0 <= MaxY (nrgba img) ->
  succeeds (strikeThrough img) (paints (primaryColor img) img).
Proof.
  intros Hd Hy. unfold strikeThrough.
  eapply succeeds_bind; [apply rnd_succeeds; zlia |]. intros y _.
  apply strikeThrough_loop_succeeds; [exact Hd | exact Hy | lia].
Qed.

(** C9: with [dotSize >= 4] (and a canvas of non-negative height, as
    [image.NewNRGBA] makes them), every pass of the loop of [strikeThrough]
    draws a step [r >= 1], by which [x] advances, and [strikeThrough]
    terminates normally on every state of the random source: the loop ends
    within [maxx] passes, and more fuel would not change its result. *)
Theorem strikeThrough_terminates img :
  4 <= dotSize img -> 0 <= MaxY (nrgba img) ->
  (forall x y img1, same_fields img img1 ->
     succeeds (strikeThrough_body (MaxY (nrgba img)) x y img1)
              (fun '(r, _, _) => x < x + r)) /\
  succeeds (strikeThrough img) (paints (primaryColor img) img) /\
  (forall g y g1 img' g' fuel,
     rnd (Z.quot (MaxY (nrgba img)) 3)
         (MaxY (nrgba img) - Z.quot (MaxY (nrgba img)) 3) g = Ok y g1 ->
     strikeThrough img g = Ok img' g' ->
     (Z.to_nat (MaxX (nrgba img)) <= fuel)%nat ->
     strikeThrough_loop fuel (MaxX (nrgba img)) (MaxY (nrgba img)) 0 y img g1
       = Ok img' g').
Proof.
  intros Hd Hy. split; [| split].
  - intros x y img1 F. eapply succeeds_weaken.
    + apply strikeThrough_body_succeeds; [| exact Hy].
      destruct F as (_ & _ & _ & -> & _). exact Hd.
    + intros [[r y1] img2] [Hr _]. lia.
  - apply strikeThrough_succeeds; assumption.
  - intros g y g1 img' g' fuel Ey E Hf. unfold strikeThrough, bind in E.
    rewrite Ey in E. eapply strikeThrough_loop_fuel_mono; eauto.
Qed.

(** A colour none of whose channels has reached the ceiling 255. *)
Definition below_white (c : NRGBAColor) : Prop :=
  color_ok c /\ R c < 255 /\ G c < 255 /\ B c < 255.

(** The colour [fillWithCircles] jitters never reaches the ceiling, so the
    jitter always draws its delta from a positive bound there. *)
Lemma setRandomBrightness_succeeds c :
  below_white c -> succeeds (setRandomBrightness c 255) below_white.
Proof.
  intros (Hc & Hr & Hg & Hb) g.
  pose proof (max3_spec (R c) (G c) (B c)) as Hx.
  pose proof (min3_spec (R c) (G c) (B c)) as Hn.
  destruct (setRandomBrightness_below c 255 g Hc) as (n & E & Hb');
    [unfold is_uint8; lia | lia |].
  eexists _, _. split; [exact E |].
  unfold below_white, color_ok, is_uint8, shifted in *. simpl. lia.
Qed.

Lemma fillWithCircles_loop_succeeds k : forall maxradius color img,
  below_white color -> 1 <= maxradius ->
  2 * maxradius <= MaxX (nrgba img) -> 2 * maxradius <= MaxY (nrgba img) ->
  succeeds (fillWithCircles_loop k maxradius (MaxX (nrgba img))
              (MaxY (nrgba img)) color img)
           (same_fields img).
Proof.
  induction k as [| k IH]; intros maxradius color img Hc Hm Hx Hy;
    cbn [fillWithCircles_loop].
  - apply succeeds_ret, same_fields_refl.
  - eapply succeeds_bind; [apply setRandomBrightness_succeeds, Hc |].
    intros color' Hc'.
    eapply succeeds_bind; [apply rnd_succeeds; lia |]. intros r Hr.
    cbv beta in Hr.
    eapply succeeds_bind; [apply rnd_succeeds; lia |]. intros cx _.
    eapply succeeds_bind; [apply rnd_succeeds; lia |]. intros cy _.
    eapply succeeds_bind; [apply drawCircle_succeeds |]. intros img' [F _].
    pose proof F as (_ & _ & _ & _ & Ex & Ey).
    eapply succeeds_weaken.
    + rewrite <- Ex, <- Ey. apply IH; [exact Hc' | lia | lia | lia].
    + intros img2 F2. eapply same_fields_trans; eauto.
Qed.

Lemma fillWithCircles_succeeds img n maxradius :
  below_white (primaryColor img) -> 1 <= maxradius ->
  2 * maxradius <= MaxX (nrgba img) -> 2 * maxradius <= MaxY (nrgba img) ->
  succeeds (fillWithCircles img n maxradius) (same_fields img).
Proof. intros. unfold fillWithCircles. apply fillWithCircles_loop_succeeds; auto. Qed.

Section FontSafety.

Variables fontWidth fontHeight blackChar : Z.
Variable font : list (list Z).

(** The glyph table has ten glyphs of [fontWidth * fontHeight] cells. *)
Definition font_ok : Prop :=
  0 <= fontWidth /\ 0 <= fontHeight /\
  length font = 10%nat /\
  Forall (fun glyph => Z.of_nat (length glyph) = fontWidth * fontHeight) font.

Definition digits_ok (numbers : list Z) : Prop :=
  Forall (fun n => 0 <= n <= 9) numbers.

Lemma drawNumber_cols_succeeds k : forall number x y yy xx minr maxr img,
  0 <= minr <= maxr -> 0 <= yy < fontHeight -> 0 <= xx ->
  xx + Z.of_nat k <= fontWidth ->
  Z.of_nat (length number) = fontWidth * fontHeight ->
  succeeds (drawNumber_cols fontWidth blackChar k number x y yy xx
              minr maxr img)
           (paints (primaryColor img) img).
Proof.
  induction k as [| k IH]; intros number x y yy xx minr maxr img Hr Hyy Hxx Hk Hl;
    cbn [drawNumber_cols].
  - apply succeeds_ret, paints_refl.
  - destruct (lookup_lt_is_Some_2 number (Z.to_nat (yy * fontWidth + xx)))
      as [b Eb]; [nia |]. rewrite Eb.
    eapply succeeds_bind with (P := paints (primaryColor img) img).
    { destruct (decide (b = blackChar)); [| apply succeeds_ret, paints_refl].
      eapply succeeds_bind; [apply rnd_succeeds; lia |]. intros or Hor.
      cbv beta in Hor.
      eapply succeeds_bind; [apply rnd_succeeds; zlia |]. intros jx _.
      eapply succeeds_bind; [apply rnd_succeeds; zlia |]. intros jy _.
      apply drawCircle_succeeds. }
    intros img1 P1. eapply succeeds_weaken.
    + apply IH; [exact Hr | exact Hyy | lia | lia | exact Hl].
    + intros img2 P2. eapply paints_trans; [exact P1 |].
      eapply paints_same_color; [| exact P2]. symmetry. apply P1.
Qed.

Lemma drawNumber_rows_succeeds k : forall number skf xs x y yy minr maxr img,
  0 <= fontWidth -> 0 <= minr <= maxr -> 0 <= yy ->
  yy + Z.of_nat k <= fontHeight ->
  Z.of_nat (length number) = fontWidth * fontHeight ->
  succeeds (drawNumber_rows fontWidth blackChar k number skf xs x y yy
              minr maxr img)
           (paints (primaryColor img) img).
Proof.
  induction k as [| k IH];
    intros number skf xs x y yy minr maxr img Hw Hr Hyy Hk Hl;
    cbn [drawNumber_rows].
  - apply succeeds_ret, paints_refl.
  - eapply succeeds_bind.
    { apply drawNumber_cols_succeeds; [exact Hr | lia | lia | lia | exact Hl]. }
    intros img1 P1. eapply succeeds_weaken.
    + apply IH; [exact Hw | exact Hr | lia | lia | exact Hl].
    + intros img2 P2. eapply paints_trans; [exact P1 |].
      eapply paints_same_color; [| exact P2]. symmetry. apply P1.
Qed.

Lemma Float64_succeeds : succeeds Float64 (fun _ => True).
Proof. intros g. cbv [Float64 bind draw ret]. eauto. Qed.

Lemma drawNumber_succeeds img number x y :
  0 <= fontWidth -> 0 <= fontHeight -> 0 <= dotSize img ->
  Z.of_nat (length number) = fontWidth * fontHeight ->
  succeeds (drawNumber fontWidth fontHeight blackChar img number x y)
           (paints (primaryColor img) img).
Proof.
  intros Hw Hh Hd Hl. unfold drawNumber.
  eapply succeeds_bind; [apply Float64_succeeds |]. intros u _.
  eapply succeeds_bind; [apply rnd_succeeds; unfold maxSkew; lia |].
  intros k _.
  eapply succeeds_bind; [apply rnd_succeeds; zlia |]. intros dy _.
  apply drawNumber_rows_succeeds; [exact Hw | zlia | lia | lia | exact Hl].
Qed.

Lemma drawNumbers_succeeds numbers : forall x y img,
  font_ok -> digits_ok numbers -> 0 <= dotSize img ->
  succeeds (drawNumbers fontWidth fontHeight blackChar font numbers x y img)
           (paints (primaryColor img) img).
Proof.
  induction numbers as [| n rest IH]; intros x y img Hf Hn Hd;
    cbn [drawNumbers].
  - apply succeeds_ret, paints_refl.
  - inversion Hn as [| ? ? Hn1 Hn2]; subst.
    pose proof Hf as (Hw & Hh & Hlen & Hgl).
    destruct (lookup_lt_is_Some_2 font (Z.to_nat n)) as [glyph Eg]; [lia |].
    rewrite Eg.
    assert (Hl : Z.of_nat (length glyph) = fontWidth * fontHeight).
    { rewrite Forall_lookup in Hgl. eapply Hgl; eauto. }
    eapply succeeds_bind; [apply drawNumber_succeeds; assumption |].
    intros img1 P1. assert (Ed : dotSize img1 = dotSize img) by apply P1.
    eapply succeeds_weaken.
    + apply IH; [exact Hf | exact Hn2 | lia].
    + intros img2 P2. eapply paints_trans; [exact P1 |].
      eapply paints_same_color; [| exact P2]. symmetry. apply P1.
Qed.

End FontSafety.

(** ** Runs that return whatever the intervals are

    [rnd] returns its lower bound when its interval is empty, so the only
    panics left are those of an index out of range. *)

Lemma strikeThrough_body_total maxy x y img :
  succeeds (strikeThrough_body maxy x y img)
    (fun '(r, _, img') => 1 <= r /\ paints (primaryColor img) img img').
Proof.
  unfold strikeThrough_body.
  eapply succeeds_bind; [apply rnd_total |]. intros r Hr.
  eapply succeeds_bind; [apply rnd_total |]. intros dy _.
  eapply succeeds_bind with (P := fun _ => True).
  { destruct (_ || _).
    - eapply succeeds_weaken; [apply rnd_total | auto].
    - apply succeeds_ret. exact I. }
  intros y' _.
  eapply succeeds_bind; [apply drawCircle_succeeds |]. intros img' P.
  apply succeeds_ret. cbv beta in Hr. split; [lia | exact P].
Qed.

Lemma strikeThrough_loop_total fuel : forall maxx maxy x y img,
  maxx - x <= Z.of_nat fuel ->
  succeeds (strikeThrough_loop fuel maxx maxy x y img)
           (paints (primaryColor img) img).
Proof.
  induction fuel as [| fuel IH]; intros maxx maxy x y img Hf;
    cbn [strikeThrough_loop]; destruct (Z.ltb_spec x maxx);
    try (apply succeeds_ret, paints_refl); [lia |].
  eapply succeeds_bind; [apply strikeThrough_body_total |].
  intros [[r y1] img1] [Hr P].
  eapply succeeds_weaken.
  - apply IH. lia.
  - intros img2 P2. eapply paints_trans; [exact P |].
    eapply paints_same_color; [| exact P2]. symmetry. apply P.
Qed.

Lemma strikeThrough_total img :
  succeeds (strikeThrough img) (paints (primaryColor img) img).
Proof.
  unfold strikeThrough.
  eapply succeeds_bind; [apply rnd_total |]. intros y _.
  apply strikeThrough_loop_total. lia.
Qed.

Lemma fillWithCircles_loop_total k : forall maxradius maxx maxy color img,
  below_white color ->
  succeeds (fillWithCircles_loop k maxradius maxx maxy color img)
           (same_fields img).
Proof.
  induction k as [| k IH]; intros maxradius maxx maxy color img Hc;
    cbn [fillWithCircles_loop].
  - apply succeeds_ret, same_fields_refl.
  - eapply succeeds_bind; [apply setRandomBrightness_succeeds, Hc |].
    intros color' Hc'.
    eapply succeeds_bind; [apply rnd_total |]. intros r _.
    eapply succeeds_bind; [apply rnd_total |]. intros cx _.
    eapply succeeds_bind; [apply rnd_total |]. intros cy _.
    eapply succeeds_bind; [apply drawCircle_succeeds |]. intros img' [F _].
    eapply succeeds_weaken.
    + apply IH. exact Hc'.
    + intros img2 F2. eapply same_fields_trans; eauto.
Qed.

Lemma fillWithCircles_total img n maxradius :
  below_white (primaryColor img) ->
  succeeds (fillWithCircles img n maxradius) (same_fields img).
Proof. intros. unfold fillWithCircles. apply fillWithCircles_loop_total; auto. Qed.

Section FontTotal.

Variables fontWidth fontHeight blackChar : Z.
Variable font : list (list Z).

Lemma drawNumber_cols_total k : forall number x y yy xx minr maxr img,
  0 <= yy < fontHeight -> 0 <= xx ->
  xx + Z.of_nat k <= fontWidth ->
  Z.of_nat (length number) = fontWidth * fontHeight ->
  succeeds (drawNumber_cols fontWidth blackChar k number x y yy xx
              minr maxr img)
           (paints (primaryColor img) img).
Proof.
  induction k as [| k IH]; intros number x y yy xx minr maxr img Hyy Hxx Hk Hl;
    cbn [drawNumber_cols].
  - apply succeeds_ret, paints_refl.
  - destruct (lookup_lt_is_Some_2 number (Z.to_nat (yy * fontWidth + xx)))
      as [b Eb]; [nia |]. rewrite Eb.
    eapply succeeds_bind with (P := paints (primaryColor img) img).
    { destruct (decide (b = blackChar)); [| apply succeeds_ret, paints_refl].
      eapply succeeds_bind; [apply rnd_total |]. intros or _.
      eapply succeeds_bind; [apply rnd_total |]. intros jx _.
      eapply succeeds_bind; [apply rnd_total |]. intros jy _.
      apply drawCircle_succeeds. }
    intros img1 P1. eapply succeeds_weaken.
    + apply IH; [exact Hyy | lia | lia | exact Hl].
    + intros img2 P2. eapply paints_trans; [exact P1 |].
      eapply paints_same_color; [| exact P2]. symmetry. apply P1.
Qed.

Lemma drawNumber_rows_total k : forall number skf xs x y yy minr maxr img,
  0 <= fontWidth -> 0 <= yy ->
  yy + Z.of_nat k <= fontHeight ->
  Z.of_nat (length number) = fontWidth * fontHeight ->
  succeeds (drawNumber_rows fontWidth blackChar k number skf xs x y yy
              minr maxr img)
           (paints (primaryColor img) img).
Proof.
  induction k as [| k IH];
    intros number skf xs x y yy minr maxr img Hw Hyy Hk Hl;
    cbn [drawNumber_rows].
  - apply succeeds_ret, paints_refl.
  - eapply succeeds_bind.
    { apply drawNumber_cols_total; [lia | lia | lia | exact Hl]. }
    intros img1 P1. eapply succeeds_weaken.
    + apply IH; [exact Hw | lia | lia | exact Hl].
    + intros img2 P2. eapply paints_trans; [exact P1 |].
      eapply paints_same_color; [| exact P2]. symmetry. apply P1.
Qed.

Lemma drawNumber_total img number x y :
  0 <= fontWidth -> 0 <= fontHeight ->
  Z.of_nat (length number) = fontWidth * fontHeight ->
  succeeds (drawNumber fontWidth fontHeight blackChar img number x y)
           (paints (primaryColor img) img).
Proof.
  intros Hw Hh Hl. unfold drawNumber.
  eapply succeeds_bind; [apply Float64_succeeds |]. intros u _.
  eapply succeeds_bind; [apply rnd_total |]. intros k _.
  eapply succeeds_bind; [apply rnd_total |]. intros dy _.
  apply drawNumber_rows_total; [exact Hw | lia | lia | exact Hl].
Qed.

Lemma drawNumbers_total numbers : forall x y img,
  font_ok fontWidth fontHeight font -> digits_ok numbers ->
  succeeds (drawNumbers fontWidth fontHeight blackChar font numbers x y img)
           (paints (primaryColor img) img).
Proof.
  induction numbers as [| n rest IH]; intros x y img Hf Hn;
    cbn [drawNumbers].
  - apply succeeds_ret, paints_refl.
  - inversion Hn as [| ? ? Hn1 Hn2]; subst.
    pose proof Hf as (Hw & Hh & Hlen & Hgl).
    destruct (lookup_lt_is_Some_2 font (Z.to_nat n)) as [glyph Eg]; [lia |].
    rewrite Eg.
    assert (Hl : Z.of_nat (length glyph) = fontWidth * fontHeight).
    { rewrite Forall_lookup in Hgl. eapply Hgl; eauto. }
    eapply succeeds_bind; [apply drawNumber_total; assumption |].
    intros img1 P1.
    eapply succeeds_weaken.
    + apply IH; [exact Hf | exact Hn2].
    + intros img2 P2. eapply paints_trans; [exact P1 |].
      eapply paints_same_color; [| exact P2]. symmetry. apply P1.
Qed.

End FontTotal.

(** ** The layout engine *)

Module F64Facts.

(** Anything but a negative finite number: on these, truncation toward
    zero and rounding down agree. *)
Definition not_negative (x : F64.t) : Prop :=
  match x with
  | S754_finite true _ _ => False
  | _ => True
  end.

Lemma floor_to_int x : not_negative x -> F64.floor x = F64.to_int x.
Proof. destruct x as [s | s | | [|] m e]; simpl; intros H; try reflexivity;
  contradiction. Qed.

Lemma binary_round_aux_not_negative mx ex lx :
  not_negative (binary_round_aux F64.prec F64.emax false mx ex lx).
Proof.
  unfold binary_round_aux.
  destruct (shr_fexp _ _ mx ex lx) as [mrs e1].
  destruct (shr_fexp _ _ _ e1 loc_Exact) as [mrs2 e2].
  destruct (shr_m mrs2); [exact I | | exact I].
  destruct (_ <=? _)%Z; exact I.
Qed.

Lemma binary_round_not_negative m e :
  not_negative (binary_round F64.prec F64.emax false m e).
Proof.
  unfold binary_round. destruct (shl_align _ _ _) as [mz ez].
  apply binary_round_aux_not_negative.
Qed.

Lemma of_int_not_negative z : 0 <= z -> not_negative (F64.of_int z).
Proof.
  intros Hz. unfold F64.of_int, binary_normalize.
  destruct z as [| p | p]; [exact I | apply binary_round_not_negative | lia].
Qed.

Lemma mul_not_negative x y :
  not_negative x -> not_negative y -> not_negative (F64.mul x y).
Proof.
  destruct x as [sx | sx | | [|] mx ex], y as [sy | sy | | [|] my ey];
    simpl; intros Hx Hy; try exact I; try contradiction.
  apply binary_round_aux_not_negative.
Qed.

Lemma div_not_negative x y :
  not_negative x -> not_negative y -> not_negative (F64.div x y).
Proof.
  destruct x as [sx | sx | | [|] mx ex], y as [sy | sy | | [|] my ey];
    simpl; intros Hx Hy; try exact I; try contradiction.
  unfold F64.div, SFdiv.
  destruct (SFdiv_core_binary _ _ _ _ _ _) as [[mz ez] lz].
  apply binary_round_aux_not_negative.
Qed.

Lemma add_not_negative x y :
  not_negative x -> not_negative y -> not_negative (F64.add x y).
Proof.
  destruct x as [sx | sx | | [|] mx ex], y as [sy | sy | | [|] my ey];
    simpl; intros Hx Hy; try exact I; try contradiction;
    try (destruct sx, sy; exact I).
  unfold binary_normalize, cond_Zopp. cbn [Z.add].
  apply binary_round_not_negative.
Qed.

End F64Facts.

(** ** Rounding to nearest, seen from the numbers of the format

    What the layout needs from [float64]: the result of an operation on
    non-negative numbers is non-negative and finite as long as a number of
    the format lies above the exact result, and it does not exceed that
    number.  Values are rationals, [m * 2^e]. *)

Module F64Round.

(** powers of two as rationals *)
Definition b2 (e : Z) : Q := (2 ^ e)%Q.
Definition valQ (m e : Z) : Q := (inject_Z m * b2 e)%Q.

Lemma b2_pos e : (0 < b2 e)%Q.
Proof. unfold b2. apply Qpower_0_lt. reflexivity. Qed.

Lemma b2_add a b : (b2 (a + b) == b2 a * b2 b)%Q.
Proof. unfold b2. apply Qpower_plus. discriminate. Qed.

Lemma b2_Z e : 0 <= e -> (b2 e == inject_Z (2 ^ e))%Q.
Proof. intros H. unfold b2. rewrite Zpower_Qpower by exact H. reflexivity. Qed.

Lemma b2_le a b : a <= b -> (b2 a <= b2 b)%Q.
Proof. intros H. unfold b2. apply Qpower_le_compat_l; [exact H | discriminate]. Qed.

Lemma b2_lt a b : a < b -> (b2 a < b2 b)%Q.
Proof. intros H. unfold b2. apply Qpower_lt_compat_l; [exact H | reflexivity]. Qed.

(** digits *)
Lemma digits2_pos_bounds p :
  2 ^ (Zpos (digits2_pos p) - 1) <= Zpos p < 2 ^ Zpos (digits2_pos p).
Proof.
  induction p as [p IH | p IH |]; cbn [digits2_pos].
  - rewrite Pos2Z.inj_succ.
    replace (Z.succ (Zpos (digits2_pos p)) - 1)
      with (Z.succ (Zpos (digits2_pos p) - 1)) by lia.
    rewrite !Z.pow_succ_r by lia. lia.
  - rewrite Pos2Z.inj_succ.
    replace (Z.succ (Zpos (digits2_pos p)) - 1)
      with (Z.succ (Zpos (digits2_pos p) - 1)) by lia.
    rewrite !Z.pow_succ_r by lia. lia.
  - simpl. lia.
Qed.

Lemma Zdigits2_bounds m :
  0 < m -> 1 <= Zdigits2 m /\ 2 ^ (Zdigits2 m - 1) <= m < 2 ^ Zdigits2 m.
Proof.
  destruct m as [| p | p]; try lia. intros _. simpl. split; [lia |].
  apply digits2_pos_bounds.
Qed.

Lemma Zdigits2_unique m d :
  1 <= d -> 2 ^ (d - 1) <= m < 2 ^ d -> Zdigits2 m = d.
Proof.
  intros Hd [H1 H2].
  assert (Hm : 0 < m) by (pose proof (Z.pow_pos_nonneg 2 (d - 1)); lia).
  destruct (Zdigits2_bounds m Hm) as (D1 & D2 & D3).
  destruct (Z.lt_trichotomy (Zdigits2 m) d) as [L | [E | L]]; [| exact E |].
  - assert (2 ^ Zdigits2 m <= 2 ^ (d - 1)) by (apply Z.pow_le_mono_r; lia). lia.
  - assert (2 ^ d <= 2 ^ (Zdigits2 m - 1)) by (apply Z.pow_le_mono_r; lia). lia.
Qed.

Lemma Zdigits2_nonneg m : 0 <= Zdigits2 m.
Proof. destruct m; simpl; lia. Qed.

Lemma Zdigits2_le a b : 0 <= a <= b -> Zdigits2 a <= Zdigits2 b.
Proof.
  intros [Ha Hab]. destruct (Z.eq_dec a 0) as [-> | Hne].
  - apply Zdigits2_nonneg.
  - destruct (Zdigits2_bounds a ltac:(lia)) as (A1 & A2 & A3).
    destruct (Zdigits2_bounds b ltac:(lia)) as (B1 & B2 & B3).
    destruct (Z.le_gt_cases (Zdigits2 a) (Zdigits2 b)) as [L | L]; [exact L |].
    assert (2 ^ Zdigits2 b <= 2 ^ (Zdigits2 a - 1)) by (apply Z.pow_le_mono_r; lia).
    lia.
Qed.

Lemma Zdigits2_shiftl m k :
  0 < m -> 0 <= k -> Zdigits2 (m * 2 ^ k) = Zdigits2 m + k.
Proof.
  intros Hm Hk. destruct (Zdigits2_bounds m Hm) as (D1 & D2 & D3).
  apply Zdigits2_unique; [lia |].
  replace (Zdigits2 m + k - 1) with (Zdigits2 m - 1 + k) by lia.
  rewrite !Z.pow_add_r by lia.
  pose proof (Z.pow_pos_nonneg 2 k). nia.
Qed.

(** digits of a quotient by a power of two *)
Lemma Zdigits2_shiftr m k :
  0 < m -> 0 <= k < Zdigits2 m -> Zdigits2 (m / 2 ^ k) = Zdigits2 m - k.
Proof.
  intros Hm Hk. destruct (Zdigits2_bounds m Hm) as (D1 & D2 & D3).
  pose proof (Z.pow_pos_nonneg 2 k ltac:(lia) ltac:(lia)) as Pk.
  apply Zdigits2_unique; [lia |]. split.
  - apply Z.div_le_lower_bound; [lia |].
    rewrite <- Z.pow_add_r by lia.
    replace (k + (Zdigits2 m - k - 1)) with (Zdigits2 m - 1) by lia. lia.
  - apply Z.div_lt_upper_bound; [lia |].
    rewrite <- Z.pow_add_r by lia.
    replace (k + (Zdigits2 m - k)) with (Zdigits2 m) by lia. lia.
Qed.

Lemma Zdigits2_shiftr_small m k :
  0 <= m -> Zdigits2 m <= k -> m / 2 ^ k = 0.
Proof.
  intros Hm Hk. destruct (Z.eq_dec m 0) as [-> | Hne]; [apply Z.div_0_l; 
    pose proof (Z.pow_pos_nonneg 2 k ltac:(lia) ltac:(pose proof (Zdigits2_nonneg 0); lia)); lia |].
  destruct (Zdigits2_bounds m ltac:(lia)) as (D1 & D2 & D3).
  apply Z.div_small. split; [lia |].
  assert (2 ^ Zdigits2 m <= 2 ^ k) by (apply Z.pow_le_mono_r; lia). lia.
Qed.

Abbreviation fexp := (SpecFloat.fexp F64.prec F64.emax).
Abbreviation emin := (SpecFloat.emin F64.prec F64.emax).

Lemma emin_val : emin = -1074.
Proof. reflexivity. Qed.

Lemma fexp_spec e : fexp e = Z.max (e - 53) (-1074).
Proof. reflexivity. Qed.

Lemma valQ_digits_lt m e : 0 <= m -> (valQ m e < b2 (Zdigits2 m + e))%Q.
Proof.
  intros Hm. unfold valQ. rewrite b2_add. pose proof (b2_pos e).
  assert (inject_Z m < b2 (Zdigits2 m))%Q.
  { rewrite b2_Z by apply Zdigits2_nonneg. rewrite <- Zlt_Qlt.
    destruct (Z.eq_dec m 0) as [-> | Hne]; [simpl; lia |].
    apply Zdigits2_bounds. lia. }
  nra.
Qed.

Lemma valQ_digits_ge m e : 0 < m -> (b2 (Zdigits2 m - 1 + e) <= valQ m e)%Q.
Proof.
  intros Hm. unfold valQ. rewrite b2_add. pose proof (b2_pos e).
  destruct (Zdigits2_bounds m Hm) as (D1 & D2 & D3).
  assert (b2 (Zdigits2 m - 1) <= inject_Z m)%Q.
  { rewrite b2_Z by lia. rewrite <- Zle_Qle. lia. }
  nra.
Qed.

(** shifting right *)
Definition inexact (mrs : shr_record) : bool := shr_r mrs || shr_s mrs.

Lemma shr_1_spec mrs :
  0 <= shr_m mrs ->
  shr_m (shr_1 mrs) = shr_m mrs / 2 /\
  (inexact (shr_1 mrs) = true ->
   inexact mrs = true \/ 2 * (shr_m mrs / 2) < shr_m mrs).
Proof.
  destruct mrs as [m r s]. unfold inexact. cbn [shr_m shr_r shr_s].
  intros Hm. destruct m as [| [p | p |] | p]; try lia; cbn [shr_1 shr_m shr_r shr_s].
  - split; [reflexivity |]. rewrite orb_false_l. auto.
  - split; [rewrite Pos2Z.inj_xI; zify; Z.to_euclidean_division_equations; lia |].
    intros _. right. rewrite Pos2Z.inj_xI. Z.to_euclidean_division_equations. lia.
  - split; [rewrite Pos2Z.inj_xO; Z.to_euclidean_division_equations; lia |].
    rewrite orb_false_l. auto.
  - split; [reflexivity |]. intros _. right. reflexivity.
Qed.

Lemma iter_pos_nat {T} (f : T -> T) p : forall x,
  SpecFloat.iter_pos f p x = Nat.iter (Pos.to_nat p) f x.
Proof.
  induction p as [p IH | p IH |]; intros x; cbn [SpecFloat.iter_pos].
  - rewrite !IH. rewrite Pos2Nat.inj_xI.
    replace (S (2 * Pos.to_nat p))%nat
      with (Pos.to_nat p + (Pos.to_nat p + 1))%nat by lia.
    rewrite !Nat.iter_add. reflexivity.
  - rewrite !IH. rewrite Pos2Nat.inj_xO.
    replace (2 * Pos.to_nat p)%nat with (Pos.to_nat p + Pos.to_nat p)%nat by lia.
    rewrite Nat.iter_add. reflexivity.
  - reflexivity.
Qed.

Lemma iter_shr_1_spec n : forall mrs,
  0 <= shr_m mrs ->
  shr_m (Nat.iter n shr_1 mrs) = shr_m mrs / 2 ^ Z.of_nat n /\
  (inexact (Nat.iter n shr_1 mrs) = true ->
   inexact mrs = true \/
   (shr_m mrs / 2 ^ Z.of_nat n) * 2 ^ Z.of_nat n < shr_m mrs).
Proof.
  induction n as [| n IH]; intros mrs Hm.
  - simpl. rewrite Z.div_1_r. auto.
  - change (Nat.iter (S n) shr_1 mrs) with (shr_1 (Nat.iter n shr_1 mrs)).
    destruct (IH mrs Hm) as [E1 I1].
    assert (H0 : 0 <= shr_m (Nat.iter n shr_1 mrs)).
    { rewrite E1. apply Z.div_pos; [lia | apply Z.pow_pos_nonneg; lia]. }
    destruct (shr_1_spec _ H0) as [E2 I2].
    assert (P : 0 < 2 ^ Z.of_nat n) by (apply Z.pow_pos_nonneg; lia).
    assert (Ediv : shr_m mrs / 2 ^ Z.of_nat (S n) = shr_m mrs / 2 ^ Z.of_nat n / 2).
    { rewrite Nat2Z.inj_succ, Z.pow_succ_r by lia.
      rewrite (Z.mul_comm 2), Z.div_div by lia. reflexivity. }
    split.
    + rewrite E2, E1. symmetry. exact Ediv.
    + intros Hi. rewrite Ediv.
      rewrite Nat2Z.inj_succ, Z.pow_succ_r by lia.
      rewrite E1 in I2.
      pose proof (Z.mul_div_le (shr_m mrs) (2 ^ Z.of_nat n) P).
      pose proof (Z.mul_div_le (shr_m mrs / 2 ^ Z.of_nat n) 2 ltac:(lia)).
      destruct (I2 Hi) as [Hin | Hlt].
      * destruct (I1 Hin) as [? | ?]; [left; assumption | right; nia].
      * right. nia.
Qed.

Lemma loc_of_shr_record_of_loc m l :
  loc_of_shr_record (shr_record_of_loc m l) = l.
Proof. destruct l as [| []]; reflexivity. Qed.

Lemma shr_m_of_loc m l : shr_m (shr_record_of_loc m l) = m.
Proof. destruct l as [| []]; reflexivity. Qed.

Lemma inexact_of_loc m l :
  inexact (shr_record_of_loc m l) = true -> l <> loc_Exact.
Proof. destruct l as [| []]; cbn; congruence. Qed.

Lemma loc_inexact mrs :
  loc_of_shr_record mrs <> loc_Exact -> inexact mrs = true.
Proof. destruct mrs as [m [|] [|]]; cbn; congruence. Qed.

(** The first step of rounding: the mantissa is cut to the exponent the
    format prescribes. *)
Lemma shr_fexp_spec m e l :
  0 <= m -> e <= fexp (Zdigits2 m + e) ->
  exists mrs,
    shr_fexp F64.prec F64.emax m e l = (mrs, fexp (Zdigits2 m + e)) /\
    shr_m mrs = m / 2 ^ (fexp (Zdigits2 m + e) - e) /\
    (loc_of_shr_record mrs <> loc_Exact ->
     l <> loc_Exact \/
     shr_m mrs * 2 ^ (fexp (Zdigits2 m + e) - e) < m).
Proof.
  intros Hm He. unfold shr_fexp, shr.
  remember (fexp (Zdigits2 m + e) - e) as k eqn:Ek.
  destruct k as [| p | p]; [| | lia].
  - exists (shr_record_of_loc m l).
    rewrite shr_m_of_loc, loc_of_shr_record_of_loc.
    split; [f_equal; lia |]. change (2 ^ 0) with 1. rewrite Z.div_1_r. auto.
  - exists (SpecFloat.iter_pos shr_1 p (shr_record_of_loc m l)).
    split; [f_equal; lia |].
    rewrite iter_pos_nat.
    destruct (iter_shr_1_spec (Pos.to_nat p) (shr_record_of_loc m l))
      as [E1 I1]; [rewrite shr_m_of_loc; exact Hm |].
    rewrite shr_m_of_loc, positive_nat_Z in E1, I1.
    split; [exact E1 |]. intros Hl. apply loc_inexact in Hl.
    destruct (I1 Hl) as [Hi | Hlt].
    + left. eapply inexact_of_loc; eauto.
    + right. rewrite E1. exact Hlt.
Qed.

(** values on a common exponent *)
Lemma valQ_scale m e k : 0 <= k -> (valQ m (e + k) == valQ (m * 2 ^ k) e)%Q.
Proof.
  intros Hk. unfold valQ. rewrite b2_add, inject_Z_mult, (b2_Z k) by exact Hk.
  ring.
Qed.

Lemma valQ_le_same a b e : a <= b -> (valQ a e <= valQ b e)%Q.
Proof.
  intros H. unfold valQ. pose proof (b2_pos e).
  rewrite Zle_Qle in H. nra.
Qed.

Lemma valQ_lt_same a b e : a < b -> (valQ a e < valQ b e)%Q.
Proof.
  intros H. unfold valQ. pose proof (b2_pos e).
  rewrite Zlt_Qlt in H. nra.
Qed.

Lemma valQ_lt_same_inv a b e : (valQ a e < valQ b e)%Q -> a < b.
Proof.
  intros H. destruct (Z.lt_ge_cases a b) as [L | L]; [exact L |].
  apply (valQ_le_same _ _ e) in L. lra.
Qed.

Lemma valQ_shr_le m e k :
  0 <= m -> 0 <= k -> (valQ (m / 2 ^ k) (e + k) <= valQ m e)%Q.
Proof.
  intros Hm Hk. rewrite valQ_scale by exact Hk. apply valQ_le_same.
  rewrite Z.mul_comm. apply Z.mul_div_le. apply Z.pow_pos_nonneg; lia.
Qed.

Lemma valQ_shr_lt m e k :
  0 <= m -> 0 <= k -> (valQ m e < valQ (m / 2 ^ k + 1) (e + k))%Q.
Proof.
  intros Hm Hk. rewrite valQ_scale by exact Hk. apply valQ_lt_same.
  pose proof (Z.pow_pos_nonneg 2 k ltac:(lia) Hk).
  pose proof (Z.mod_pos_bound m (2 ^ k) ltac:(lia)).
  pose proof (Z.div_mod m (2 ^ k) ltac:(lia)). nia.
Qed.

Lemma valQ_shr_strict m e k :
  0 <= k -> m / 2 ^ k * 2 ^ k < m ->
  (valQ (m / 2 ^ k) (e + k) < valQ m e)%Q.
Proof.
  intros Hk H. rewrite valQ_scale by exact Hk. apply valQ_lt_same. exact H.
Qed.

Lemma valQ_cut_le m e e1 :
  0 <= m -> e <= e1 -> (valQ (m / 2 ^ (e1 - e)) e1 <= valQ m e)%Q.
Proof.
  intros Hm He. replace e1 with (e + (e1 - e)) at 2 by lia.
  apply valQ_shr_le; lia.
Qed.

Lemma valQ_cut_lt m e e1 :
  0 <= m -> e <= e1 -> (valQ m e < valQ (m / 2 ^ (e1 - e) + 1) e1)%Q.
Proof.
  intros Hm He. replace e1 with (e + (e1 - e)) at 2 by lia.
  apply valQ_shr_lt; lia.
Qed.

Lemma valQ_cut_strict m e e1 :
  e <= e1 -> m / 2 ^ (e1 - e) * 2 ^ (e1 - e) < m ->
  (valQ (m / 2 ^ (e1 - e)) e1 < valQ m e)%Q.
Proof.
  intros He H. replace e1 with (e + (e1 - e)) at 2 by lia.
  apply valQ_shr_strict; [lia | exact H].
Qed.

(** canonical representations *)
Definition canonical (m e : Z) : Prop :=
  0 < m /\ e = fexp (Zdigits2 m + e).

(** a point of the grid of the format at exponent [e] *)
Definition on_grid (m e : Z) : Prop :=
  0 <= m /\ -1074 <= e /\ (-1074 < e -> Zdigits2 m = 53).

Lemma canonical_digits m e : canonical m e -> Zdigits2 m <= 53 /\ -1074 <= e.
Proof. intros [Hm He]. rewrite fexp_spec in He. lia. Qed.

(** No canonical number lies strictly between two neighbours of the
    grid. *)
Lemma grid_gap m1 e1 mr er :
  on_grid m1 e1 -> canonical mr er ->
  (valQ m1 e1 < valQ mr er)%Q -> (valQ (m1 + 1) e1 <= valQ mr er)%Q.
Proof.
  intros (H0 & He1 & Hd) Hc Hlt.
  pose proof (canonical_digits _ _ Hc) as [Hdr Her]. destruct Hc as [Hmr Hcr].
  destruct (Z.le_gt_cases e1 er) as [L | L].
  - assert (E : (valQ mr er == valQ (mr * 2 ^ (er - e1)) e1)%Q).
    { rewrite <- valQ_scale by lia. replace (e1 + (er - e1)) with er by lia.
      reflexivity. }
    rewrite E in *. apply valQ_lt_same_inv in Hlt. apply valQ_le_same. lia.
  - exfalso. specialize (Hd ltac:(lia)).
    assert (Hm1 : 0 < m1) by (destruct m1; simpl in Hd; lia).
    pose proof (valQ_digits_ge m1 e1 Hm1) as G. rewrite Hd in G.
    pose proof (valQ_digits_lt mr er ltac:(lia)) as U.
    assert (b2 (Zdigits2 mr + er) <= b2 (53 - 1 + e1))%Q by (apply b2_le; lia).
    lra.
Qed.

Lemma grid_gap' m1 e1 ml el :
  on_grid m1 e1 -> canonical ml el ->
  (valQ ml el < valQ (m1 + 1) e1)%Q -> (valQ ml el <= valQ m1 e1)%Q.
Proof.
  intros Hg Hc Hlt.
  destruct (Qlt_le_dec (valQ m1 e1) (valQ ml el)) as [L | L]; [| exact L].
  pose proof (grid_gap _ _ _ _ Hg Hc L). lra.
Qed.

Lemma round_nearest_even_spec m l :
  let m' := round_nearest_even m l in
  (m' = m \/ (m' = m + 1 /\ l <> loc_Exact)).
Proof.
  destruct l as [| c]; [left; reflexivity |]. destruct c; cbn.
  - destruct (Z.even m); [auto | right; split; [reflexivity | discriminate]].
  - left; reflexivity.
  - right; split; [reflexivity | discriminate].
Qed.

(** After the first cut the mantissa is on the grid. *)
Lemma cut_on_grid m e :
  0 <= m -> e <= fexp (Zdigits2 m + e) ->
  on_grid (m / 2 ^ (fexp (Zdigits2 m + e) - e)) (fexp (Zdigits2 m + e)).
Proof.
  intros Hm He. rewrite fexp_spec in *.
  assert (P : 0 < 2 ^ (Z.max (Zdigits2 m + e - 53) (-1074) - e))
    by (apply Z.pow_pos_nonneg; lia).
  split; [apply Z.div_pos; lia |]. split; [lia |]. intros Hgt.
  assert (Ee : Z.max (Zdigits2 m + e - 53) (-1074) = Zdigits2 m + e - 53) by lia.
  rewrite Ee in *.
  assert (Hm' : 0 < m).
  { destruct (Z.eq_dec m 0) as [-> | ?]; [simpl in *; lia | lia]. }
  rewrite Zdigits2_shiftr; [lia | exact Hm' |].
  pose proof (Zdigits2_bounds m Hm'). lia.
Qed.

Lemma b2_lt_inv a b : (b2 a < b2 b)%Q -> a < b.
Proof. intros H. unfold b2 in H. apply Qpower_lt_compat_l_inv in H; [exact H | reflexivity]. Qed.

(** The float a non-negative mantissa stands for. *)
Definition float_of (m e : Z) : spec_float :=
  match m with
  | Z0 => S754_zero false
  | Zpos p => S754_finite false p e
  | Zneg _ => S754_nan
  end.

(** Rounding to nearest is monotone with respect to the numbers of the
    format: the result of [binary_round_aux] does not exceed a canonical
    number above the value it rounds, nor fall below a canonical number
    under it, and it is canonical itself. *)
Lemma binary_round_aux_bounds m e l mr er :
  0 <= m -> e <= fexp (Zdigits2 m + e) ->
  canonical mr er -> er <= 971 ->
  (valQ m e <= valQ mr er)%Q ->
  (l <> loc_Exact -> (valQ m e < valQ mr er)%Q) ->
  exists m3 e3,
    binary_round_aux F64.prec F64.emax false m e l = float_of m3 e3 /\
    0 <= m3 /\
    (0 < m3 -> canonical m3 e3 /\ e3 <= 971) /\
    (valQ m3 e3 <= valQ mr er)%Q /\
    (forall ml el, canonical ml el -> (valQ ml el <= valQ m e)%Q ->
                   (valQ ml el <= valQ m3 e3)%Q).
Proof.
  intros Hm He Hc Her Hle Hlt.
  destruct (shr_fexp_spec m e l Hm He) as (mrs1 & E1 & Em1 & Hl1).
  unfold binary_round_aux. rewrite E1.
  set (e1 := fexp (Zdigits2 m + e)) in *.
  set (m1 := shr_m mrs1) in *. set (l1 := loc_of_shr_record mrs1) in *.
  assert (G1 : on_grid m1 e1) by (rewrite Em1; apply cut_on_grid; assumption).
  assert (A : (valQ m1 e1 <= valQ m e)%Q)
    by (rewrite Em1; apply valQ_cut_le; assumption).
  assert (A' : (valQ m e < valQ (m1 + 1) e1)%Q)
    by (rewrite Em1; apply valQ_cut_lt; assumption).
  assert (B : l1 <> loc_Exact -> (valQ m1 e1 < valQ mr er)%Q).
  { intros Hl. destruct (Hl1 Hl) as [Hl' | Hs].
    - specialize (Hlt Hl'). lra.
    - assert (valQ m1 e1 < valQ m e)%Q; [| lra].
      rewrite Em1. apply valQ_cut_strict; [exact He |].
      rewrite <- Em1. exact Hs. }
  set (m2 := round_nearest_even m1 l1).
  assert (D : m1 <= m2 /\ (valQ m2 e1 <= valQ mr er)%Q).
  { destruct (round_nearest_even_spec m1 l1) as [E | [E Hl]]; fold m2 in E;
      rewrite E.
    - split; [lia | lra].
    - split; [lia |]. apply grid_gap; auto. }
  destruct D as [D C].
  assert (Hm2 : 0 <= m2) by (destruct G1; lia).
  assert (He2 : e1 <= fexp (Zdigits2 m2 + e1)).
  { destruct G1 as (G0 & Ge & Gd). rewrite fexp_spec.
    destruct (Z.eq_dec e1 (-1074)) as [-> | Hne]; [lia |].
    specialize (Gd ltac:(lia)).
    pose proof (Zdigits2_le m1 m2 ltac:(lia)). lia. }
  destruct (shr_fexp_spec m2 e1 loc_Exact Hm2 He2) as (mrs3 & E3 & Em3 & _).
  rewrite E3.
  set (e3 := fexp (Zdigits2 m2 + e1)) in *. set (m3 := shr_m mrs3) in *.
  assert (G3 : on_grid m3 e3) by (rewrite Em3; apply cut_on_grid; assumption).
  assert (F : (valQ m3 e3 <= valQ m2 e1)%Q)
    by (rewrite Em3; apply valQ_cut_le; assumption).
  assert (F' : (valQ m2 e1 < valQ (m3 + 1) e3)%Q)
    by (rewrite Em3; apply valQ_cut_lt; assumption).
  assert (H3 : 0 < m3 -> canonical m3 e3 /\ e3 <= 971).
  { intros Hp.
    assert (Hm2' : 0 < m2).
    { destruct (Z.eq_dec m2 0) as [E0 | ?]; [| lia].
      rewrite Em3, E0, Z.div_0_l in Hp; [lia |].
      pose proof (Z.pow_pos_nonneg 2 (e3 - e1)). lia. }
    assert (Hlt3 : e3 - e1 < Zdigits2 m2).
    { destruct (Z.lt_ge_cases (e3 - e1) (Zdigits2 m2)) as [? | Hge]; [assumption |].
      rewrite Em3, Zdigits2_shiftr_small in Hp; lia. }
    assert (Ed3 : Zdigits2 m3 = Zdigits2 m2 - (e3 - e1))
      by (rewrite Em3; apply Zdigits2_shiftr; lia).
    assert (Can : e3 = fexp (Zdigits2 m3 + e3)).
    { rewrite Ed3. replace (Zdigits2 m2 - (e3 - e1) + e3)
        with (Zdigits2 m2 + e1) by lia. reflexivity. }
    split; [split; assumption |].
    pose proof (valQ_digits_ge m3 e3 Hp) as L3.
    pose proof (valQ_digits_lt mr er ltac:(destruct Hc; lia)) as Ur.
    assert (Hb : (b2 (Zdigits2 m3 - 1 + e3) < b2 (Zdigits2 mr + er))%Q) by lra.
    apply b2_lt_inv in Hb.
    destruct Hc as [_ Hcr]. rewrite fexp_spec in Can, Hcr. lia. }
  exists m3, e3. split; [| split; [destruct G3; assumption | split; [exact H3 |
    split; [lra |]]]].
  - destruct m3 as [| p | p] eqn:E; cbn [float_of]; [reflexivity | | reflexivity].
    destruct (H3 ltac:(lia)) as [_ Hle3].
    unfold e3 in Hle3 |- *.
    destruct (Z.leb_spec (fexp (Zdigits2 m2 + e1)) (F64.emax - F64.prec));
      [reflexivity | unfold F64.emax, F64.prec in *; lia].
  - intros ml el Hcl Hl.
    assert (L1 : (valQ ml el <= valQ m1 e1)%Q)
      by (apply grid_gap'; [exact G1 | exact Hcl | lra]).
    assert (L2 : (valQ m1 e1 <= valQ m2 e1)%Q) by (apply valQ_le_same; lia).
    apply grid_gap'; [exact G3 | exact Hcl | lra].
Qed.

(** ** Floats with a clear sign bit *)

(** [+0] or a positive finite number in canonical form. *)
Definition good (x : spec_float) : Prop :=
  match x with
  | S754_zero false => True
  | S754_finite false m e => canonical (Zpos m) e /\ e <= 971
  | _ => False
  end.

(** The value of such a float. *)
Definition fval (x : spec_float) : Q :=
  match x with
  | S754_finite false m e => valQ (Zpos m) e
  | _ => 0%Q
  end.

Definition finite_pos (x : spec_float) : Prop :=
  match x with
  | S754_finite false m e => canonical (Zpos m) e /\ e <= 971
  | _ => False
  end.

Lemma finite_pos_good x : finite_pos x -> good x.
Proof. destruct x as [[|] | | | [|] m e]; simpl; auto. Qed.

Lemma fval_nonneg x : (0 <= fval x)%Q.
Proof.
  destruct x as [| | | [|] m e]; simpl; try lra.
  unfold valQ. pose proof (b2_pos e).
  assert (0 <= inject_Z (Zpos m))%Q by (rewrite <- (Zle_Qle 0); lia). nra.
Qed.

Lemma finite_pos_fval x : finite_pos x -> (0 < fval x)%Q.
Proof.
  destruct x as [| | | [|] m e]; simpl; try contradiction. intros _.
  unfold valQ. pose proof (b2_pos e).
  assert (0 < inject_Z (Zpos m))%Q by (rewrite <- (Zlt_Qlt 0); lia). nra.
Qed.

Lemma float_of_good m e :
  0 <= m -> (0 < m -> canonical m e /\ e <= 971) ->
  good (float_of m e) /\ (fval (float_of m e) == valQ m e)%Q.
Proof.
  intros Hm Hc. destruct m as [| p | p]; cbn; [| | lia].
  - split; [exact I |]. unfold valQ. ring.
  - split; [apply Hc; lia | reflexivity].
Qed.

(** [binary_round_aux] at the level of floats. *)
Lemma round_aux_good m e l r :
  0 <= m -> e <= fexp (Zdigits2 m + e) ->
  finite_pos r ->
  (valQ m e <= fval r)%Q ->
  (l <> loc_Exact -> (valQ m e < fval r)%Q) ->
  let z := binary_round_aux F64.prec F64.emax false m e l in
  good z /\ (fval z <= fval r)%Q /\
  (forall lo, finite_pos lo -> (fval lo <= valQ m e)%Q ->
              finite_pos z /\ (fval lo <= fval z)%Q).
Proof.
  intros Hm He Hr Hle Hlt z.
  destruct r as [| | | [|] mr er]; try contradiction. destruct Hr as [Hc Her].
  cbn [fval] in *.
  destruct (binary_round_aux_bounds m e l (Zpos mr) er Hm He Hc Her Hle Hlt)
    as (m3 & e3 & E & H0 & H3 & Hu & Hl).
  subst z. rewrite E.
  destruct (float_of_good m3 e3 H0 H3) as [Gz Ez].
  split; [exact Gz |]. split; [rewrite Ez; exact Hu |].
  intros lo Hlo Hlov.
  destruct lo as [| | | [|] ml el]; try contradiction. destruct Hlo as [Hcl Hel].
  cbn [fval] in *. specialize (Hl _ _ Hcl Hlov).
  assert (Hp : 0 < m3).
  { destruct (Z.eq_dec m3 0) as [-> | ?]; [| lia].
    assert (valQ 0 e3 == 0)%Q by (unfold valQ; ring).
    assert (0 < valQ (Zpos ml) el)%Q.
    { unfold valQ. pose proof (b2_pos el).
      assert (0 < inject_Z (Zpos ml))%Q by (rewrite <- (Zlt_Qlt 0); lia). nra. }
    lra. }
  split; [| rewrite Ez; exact Hl].
  destruct m3 as [| p | p]; try lia. cbn. apply H3. lia.
Qed.

(** Powers of two as floats. *)
Definition pow2 (k : Z) : spec_float := S754_finite false (2 ^ 52)%positive (k - 52).

Lemma pow2_finite_pos k : -1022 <= k <= 1023 -> finite_pos (pow2 k).
Proof.
  intros Hk. unfold pow2, finite_pos, canonical. split; [split; [lia |] | lia].
  change (Zdigits2 (Zpos (2 ^ 52))) with 53. rewrite fexp_spec. lia.
Qed.

Lemma fval_pow2 k : (fval (pow2 k) == b2 k)%Q.
Proof.
  unfold pow2, fval, valQ. replace k with (52 + (k - 52)) at 2 by lia.
  rewrite b2_add, (b2_Z 52) by lia. reflexivity.
Qed.

(** ** The operations *)

Lemma pos_iter_xO mx d : Zpos (Pos.iter xO mx d) = Zpos mx * 2 ^ Zpos d.
Proof.
  change (Pos.iter xO mx d) with (shift_pos d mx).
  rewrite shift_pos_correct. rewrite Zpower_pos_is_exp || idtac.
  change (Zpower_pos 2 d) with (2 ^ Zpos d). lia.
Qed.

Lemma shl_align_spec mx ex ex' :
  exists mz, shl_align mx ex ex' = (mz, Z.min ex ex') /\
             Zpos mz = Zpos mx * 2 ^ (ex - Z.min ex ex').
Proof.
  unfold shl_align. destruct (ex' - ex) as [| d | d] eqn:E.
  - exists mx. rewrite Z.min_l by lia. rewrite Z.sub_diag. split; [reflexivity | lia].
  - exists mx. rewrite Z.min_l by lia. rewrite Z.sub_diag. split; [reflexivity | lia].
  - exists (Pos.iter xO mx d). rewrite Z.min_r by lia. split; [reflexivity |].
    rewrite pos_iter_xO. f_equal. f_equal. lia.
Qed.

Lemma shl_align_val mx ex ex' mz ez :
  shl_align mx ex ex' = (mz, ez) ->
  ez = Z.min ex ex' /\ (valQ (Zpos mz) ez == valQ (Zpos mx) ex)%Q /\
  Zdigits2 (Zpos mz) + ez = Zdigits2 (Zpos mx) + ex.
Proof.
  intros E. destruct (shl_align_spec mx ex ex') as (mz' & E' & Em).
  rewrite E in E'. injection E' as -> ->. split; [reflexivity |].
  rewrite Em. split.
  - rewrite <- valQ_scale by lia. replace (Z.min ex ex' + (ex - Z.min ex ex'))
      with ex by lia. reflexivity.
  - rewrite Zdigits2_shiftl by lia. lia.
Qed.

Lemma binary_round_good mx ex r :
  finite_pos r -> (valQ (Zpos mx) ex <= fval r)%Q ->
  let z := binary_round F64.prec F64.emax false mx ex in
  good z /\ (fval z <= fval r)%Q /\
  (forall lo, finite_pos lo -> (fval lo <= valQ (Zpos mx) ex)%Q ->
              finite_pos z /\ (fval lo <= fval z)%Q).
Proof.
  intros Hr Hle. unfold binary_round.
  destruct (shl_align mx ex _) as [mz ez] eqn:E.
  apply shl_align_val in E as (Ez & Ev & Ed).
  assert (He : ez <= fexp (Zdigits2 (Zpos mz) + ez)).
  { rewrite Ed. cbn [Zdigits2] in Ez |- *. lia. }
  destruct (round_aux_good (Zpos mz) ez loc_Exact r ltac:(lia) He Hr)
    as (G & U & L); [rewrite Ev; exact Hle | congruence |].
  split; [exact G |]. split; [exact U |].
  intros lo Hlo Hl. apply L; [exact Hlo | rewrite Ev; exact Hl].
Qed.

(** The canonical representation of a positive integer below [2^53]. *)
Definition repr (z : Z) : spec_float :=
  S754_finite false (Z.to_pos (z * 2 ^ (53 - Zdigits2 z))) (Zdigits2 z - 53).

Lemma repr_spec z :
  0 < z < 2 ^ 53 -> finite_pos (repr z) /\ (fval (repr z) == inject_Z z)%Q.
Proof.
  intros Hz. destruct (Zdigits2_bounds z ltac:(lia)) as (D1 & D2 & D3).
  assert (Hd : Zdigits2 z <= 53).
  { destruct (Z.le_gt_cases (Zdigits2 z) 53) as [? | G]; [assumption |].
    assert (2 ^ 53 <= 2 ^ (Zdigits2 z - 1)) by (apply Z.pow_le_mono_r; lia). lia. }
  assert (P : 0 < 2 ^ (53 - Zdigits2 z)) by (apply Z.pow_pos_nonneg; lia).
  unfold repr, finite_pos, fval, canonical.
  rewrite Z2Pos.id by nia. split; [split; [split; [nia |] | lia] |].
  - rewrite Zdigits2_shiftl by lia. rewrite fexp_spec. lia.
  - rewrite <- valQ_scale by lia.
    replace (Zdigits2 z - 53 + (53 - Zdigits2 z)) with 0 by lia.
    unfold valQ, b2. simpl. ring.
Qed.

Lemma of_int_exact z :
  0 < z < 2 ^ 53 ->
  finite_pos (F64.of_int z) /\ (fval (F64.of_int z) == inject_Z z)%Q.
Proof.
  intros Hz. destruct (repr_spec z Hz) as [Hr Ev].
  unfold F64.of_int, binary_normalize. destruct z as [| p | p]; try lia.
  assert (Hv : (valQ (Zpos p) 0 == inject_Z (Zpos p))%Q)
    by (unfold valQ, b2; simpl; ring).
  destruct (binary_round_good p 0 (repr (Zpos p)) Hr) as (G & U & L);
    [rewrite Hv, Ev; lra |].
  destruct (L (repr (Zpos p)) Hr) as [F Lo]; [rewrite Hv, Ev; lra |].
  split; [exact F | lra].
Qed.

Lemma add_good x y r lo :
  finite_pos x -> finite_pos y -> finite_pos r -> finite_pos lo ->
  (fval x + fval y <= fval r)%Q -> (fval lo <= fval x + fval y)%Q ->
  finite_pos (F64.add x y) /\
  (fval lo <= fval (F64.add x y) <= fval r)%Q.
Proof.
  intros Hx Hy Hr Hlo Hu Hl. unfold F64.add.
  destruct x as [| | | [|] mx ex]; try contradiction.
  destruct y as [| | | [|] my ey]; try contradiction.
  cbn [fval] in Hu, Hl. unfold SFadd, cond_Zopp.
  destruct (shl_align mx ex (Z.min ex ey)) as [ax ez1] eqn:E1.
  destruct (shl_align my ey (Z.min ex ey)) as [ay ez2] eqn:E2.
  apply shl_align_val in E1 as (Z1 & V1 & _).
  apply shl_align_val in E2 as (Z2 & V2 & _).
  cbn [fst]. change (Zpos ax + Zpos ay) with (Zpos (ax + ay)).
  cbn [binary_normalize].
  assert (Ev : (valQ (Zpos (ax + ay)) (Z.min ex ey)
                == valQ (Zpos mx) ex + valQ (Zpos my) ey)%Q).
  { rewrite <- V1, <- V2. rewrite Z1, Z2.
    replace (Z.min ex (Z.min ex ey)) with (Z.min ex ey) by lia.
    replace (Z.min ey (Z.min ex ey)) with (Z.min ex ey) by lia.
    unfold valQ. rewrite Pos2Z.inj_add, inject_Z_plus. ring. }
  destruct (binary_round_good (ax + ay) (Z.min ex ey) r Hr) as (G & U & L);
    [rewrite Ev; exact Hu |].
  destruct (L lo Hlo) as [F Lo]; [rewrite Ev; exact Hl |].
  split; [exact F | split; assumption].
Qed.

Lemma Zdigits2_mul_ge a b :
  0 < a -> 0 < b -> Zdigits2 a + Zdigits2 b - 1 <= Zdigits2 (a * b).
Proof.
  intros Ha Hb.
  destruct (Zdigits2_bounds a Ha) as (A1 & A2 & A3).
  destruct (Zdigits2_bounds b Hb) as (B1 & B2 & B3).
  assert (E : Zdigits2 (2 ^ (Zdigits2 a + Zdigits2 b - 2))
              = Zdigits2 a + Zdigits2 b - 1).
  { apply Zdigits2_unique; [lia |].
    replace (Zdigits2 a + Zdigits2 b - 1 - 1)
      with (Zdigits2 a + Zdigits2 b - 2) by lia.
    split; [lia |]. apply Z.pow_lt_mono_r; lia. }
  rewrite <- E. apply Zdigits2_le.
  split; [apply Z.pow_nonneg; lia |].
  replace (Zdigits2 a + Zdigits2 b - 2)
    with ((Zdigits2 a - 1) + (Zdigits2 b - 1)) by lia.
  rewrite Z.pow_add_r by lia.
  apply Z.mul_le_mono_nonneg; try lia; apply Z.pow_nonneg; lia.
Qed.

Lemma mul_good x y r :
  good x -> good y -> finite_pos r -> (fval x * fval y <= fval r)%Q ->
  good (F64.mul x y) /\ (fval (F64.mul x y) <= fval r)%Q.
Proof.
  intros Hx Hy Hr Hu. pose proof (finite_pos_fval r Hr) as Pr. unfold F64.mul.
  destruct x as [[|] | | | [|] mx ex]; try contradiction;
    destruct y as [[|] | | | [|] my ey]; try contradiction;
    cbn [SFmul xorb]; try (split; [exact I | simpl; lra]).
  destruct Hx as [[_ Cx] Ex], Hy as [[_ Cy] Ey]. cbn [fval] in Hu.
  assert (Hd := Zdigits2_mul_ge (Zpos mx) (Zpos my) ltac:(lia) ltac:(lia)).
  assert (He : ex + ey <= fexp (Zdigits2 (Zpos mx * Zpos my) + (ex + ey))).
  { rewrite fexp_spec in *.
    destruct (Zdigits2_bounds (Zpos mx) ltac:(lia)) as (? & _).
    destruct (Zdigits2_bounds (Zpos my) ltac:(lia)) as (? & _). lia. }
  assert (Ev : (valQ (Zpos mx * Zpos my) (ex + ey)
                == valQ (Zpos mx) ex * valQ (Zpos my) ey)%Q).
  { unfold valQ. rewrite inject_Z_mult, b2_add. ring. }
  change (Zpos (mx * my)) with (Zpos mx * Zpos my).
  destruct (round_aux_good (Zpos mx * Zpos my) (ex + ey) loc_Exact r
              ltac:(lia) He Hr) as (G & U & _);
    [rewrite Ev; exact Hu | congruence |].
  split; assumption.
Qed.

Lemma new_location_exact nb r :
  new_location nb r <> loc_Exact -> r <> 0.
Proof.
  intros H ->. apply H. unfold new_location, new_location_even,
    new_location_odd. destruct (Z.even nb); reflexivity.
Qed.

(** The quotient the division hands to the rounding. *)
Lemma SFdiv_core_spec mx ex my ey :
  exists q e' l,
    SFdiv_core_binary F64.prec F64.emax (Zpos mx) ex (Zpos my) ey = (q, e', l) /\
    0 <= q /\ e' <= fexp (Zdigits2 q + e') /\
    (valQ q e' * valQ (Zpos my) ey <= valQ (Zpos mx) ex)%Q /\
    (l <> loc_Exact ->
     (valQ q e' * valQ (Zpos my) ey < valQ (Zpos mx) ex)%Q).
Proof.
  unfold SFdiv_core_binary.
  set (d1 := Zdigits2 (Zpos mx)). set (d2 := Zdigits2 (Zpos my)).
  set (X := d1 + ex - (d2 + ey)).
  set (e' := Z.min (fexp X) (ex - ey)).
  set (s := ex - ey - e').
  assert (Hs : 0 <= s) by (unfold s, e'; lia).
  set (m' := match s with
             | 0 => Zpos mx
             | Zpos _ => Z.shiftl (Zpos mx) s
             | Zneg _ => 0
             end).
  assert (Em : m' = Zpos mx * 2 ^ s).
  { unfold m'. destruct s as [| p | p] eqn:E; [simpl; lia | | lia].
    apply Z.shiftl_mul_pow2. lia. }
  destruct (Z.div_eucl m' (Zpos my)) as [q r] eqn:Ed.
  pose proof (Z_div_mod m' (Zpos my) ltac:(lia)) as Hdm. rewrite Ed in Hdm.
  destruct Hdm as [Hm' Hr].
  assert (P : 0 < 2 ^ s) by (apply Z.pow_pos_nonneg; lia).
  assert (Hq : 0 <= q) by nia.
  exists q, e', (new_location (Zpos my) r).
  split; [reflexivity |]. split; [exact Hq |].
  assert (Escale : (valQ (Zpos mx) ex == valQ m' (e' + ey))%Q).
  { rewrite Em, <- valQ_scale by lia.
    replace (e' + ey + s) with ex by (unfold s; lia). reflexivity. }
  assert (Eprod : forall a, (valQ a e' * valQ (Zpos my) ey
                             == valQ (a * Zpos my) (e' + ey))%Q).
  { intros a. unfold valQ. rewrite inject_Z_mult, b2_add. ring. }
  split; [| split].
  - (* enough digits *)
    rewrite fexp_spec. destruct (Z.le_gt_cases e' (-1074)) as [? | Hgt]; [lia |].
    assert (HX : e' <= X - 53) by (unfold e' in *; rewrite fexp_spec in *; lia).
    destruct (Zdigits2_bounds (Zpos mx) ltac:(lia)) as (A1 & A2 & A3).
    destruct (Zdigits2_bounds (Zpos my) ltac:(lia)) as (B1 & B2 & B3).
    fold d1 in A1, A2, A3. fold d2 in B1, B2, B3.
    assert (HD : 53 <= d1 + s - d2) by (unfold s, X in *; lia).
    assert (Hq2 : 2 ^ (d1 + s - d2 - 1) <= q).
    { assert (2 ^ (d1 + s - d2 - 1) * 2 ^ d2 <= m').
      { rewrite <- Z.pow_add_r by lia.
        replace (d1 + s - d2 - 1 + d2) with (d1 - 1 + s) by lia.
        rewrite Z.pow_add_r by lia. rewrite Em. nia. }
      assert (0 < 2 ^ (d1 + s - d2 - 1)) by (apply Z.pow_pos_nonneg; lia).
      nia. }
    assert (Hdq : d1 + s - d2 <= Zdigits2 q).
    { assert (E : Zdigits2 (2 ^ (d1 + s - d2 - 1)) = d1 + s - d2).
      { apply Zdigits2_unique; [lia |]. split; [lia |].
        apply Z.pow_lt_mono_r; lia. }
      rewrite <- E. apply Zdigits2_le. split; [apply Z.pow_nonneg; lia | lia]. }
    unfold s, X in *. lia.
  - rewrite Eprod, Escale. apply valQ_le_same. lia.
  - intros Hl. apply new_location_exact in Hl.
    rewrite Eprod, Escale. apply valQ_lt_same. lia.
Qed.

Lemma div_good x y :
  good x -> finite_pos y -> (1 <= fval y)%Q ->
  good (F64.div x y) /\ (fval (F64.div x y) <= fval x)%Q.
Proof.
  intros Hx Hy H1. unfold F64.div.
  destruct y as [| | | [|] my ey]; try contradiction.
  destruct x as [[|] | | | [|] mx ex]; try contradiction;
    cbn [SFdiv xorb]; [split; [exact I | simpl; lra] |].
  destruct (SFdiv_core_spec mx ex my ey) as (q & e' & l & E & Hq & He & Hu & Hl).
  rewrite E. cbn [fval] in *.
  assert (Pq : (0 <= valQ q e')%Q).
  { unfold valQ. pose proof (b2_pos e').
    assert (0 <= inject_Z q)%Q by (rewrite <- (Zle_Qle 0); lia). nra. }
  destruct (round_aux_good q e' l (S754_finite false mx ex) Hq He Hx)
    as (G & U & _); cbn [fval].
  - nra.
  - intros Hne. specialize (Hl Hne). nra.
  - split; assumption.
Qed.

Lemma trunc_mag_floor m e : F64.trunc_mag m e = Qfloor (valQ (Zpos m) e).
Proof.
  unfold F64.trunc_mag. destruct e as [| p | p].
  - rewrite <- (Qfloor_Z (Zpos m)) at 1. apply Qfloor_comp.
    unfold valQ, b2. simpl. ring.
  - rewrite <- (Qfloor_Z (Zpos m * 2 ^ Zpos p)). apply Qfloor_comp.
    unfold valQ. rewrite inject_Z_mult, b2_Z by lia. reflexivity.
  - rewrite Zdiv_Qdiv. apply Qfloor_comp. unfold valQ, Qdiv.
    apply Qmult_comp; [reflexivity |].
    unfold b2. change (Zneg p) with (- Zpos p). rewrite Qpower_opp.
    rewrite Zpower_Qpower by lia. reflexivity.
Qed.

Lemma to_int_floor x : good x -> F64.to_int x = Qfloor (fval x).
Proof.
  destruct x as [[|] | | | [|] m e]; simpl; try contradiction; intros _.
  - reflexivity.
  - apply trunc_mag_floor.
Qed.

Lemma to_int_nonneg x : good x -> 0 <= F64.to_int x.
Proof.
  intros H. rewrite to_int_floor by exact H.
  change 0 with (Qfloor 0). apply Qfloor_resp_le, fval_nonneg.
Qed.

Lemma to_int_mono x y :
  good x -> good y -> (fval x <= fval y)%Q -> F64.to_int x <= F64.to_int y.
Proof.
  intros Hx Hy H. rewrite !to_int_floor by assumption.
  apply Qfloor_resp_le, H.
Qed.

End F64Round.

Section Layout.

Variables fontWidth fontHeight : Z.

(** The algorithm of the layout engine as the specification words it, in
    [float64] arithmetic: the border is a fifth of the smaller side, the
    candidate sizes are derived from the usable width first and from the
    usable height when the digits would be too high, and the results are
    rounded down. *)
Definition computeLayout_spec (width height digitCount : Z) : Z * Z * Z :=
  let border := Z.min width height / 5 in
  let usableWidth := F64.of_int (width - 2 * border) in
  let usableHeight := F64.of_int (height - 2 * border) in
  let fw1 := F64.add (F64.of_int fontWidth) (F64.of_int 1) in
  let fh := F64.of_int fontHeight in
  let nw := F64.div usableWidth (F64.of_int digitCount) in
  let nh := F64.div (F64.mul nw fh) fw1 in
  let nw' := if F64.gtb nh usableHeight
             then F64.mul (F64.div fw1 fh) usableHeight else nw in
  let nh' := if F64.gtb nh usableHeight then usableHeight else nh in
  let dotSize := F64.floor (F64.div nh' fh) in
  let numWidth := F64.floor nw' in
  let numHeight := F64.floor nh' - dotSize in
  (numWidth, numHeight, dotSize).

(** C1: for positive width and height and at least one digit (and a font
    of positive width and height), [calculateSizes] computes exactly what
    the algorithm of the specification computes: the border
    [min(width, height) / 5], the usable area, the candidate [nw] and
    [nh], the height-constrained fallback, and
    [dotSize = floor(nh / fontHeight)], [numWidth = floor(nw)],
    [numHeight = floor(nh) - dotSize]. *)
Theorem calculateSizes_follows_spec img width height digitCount :
  0 < fontWidth -> 0 < fontHeight ->
  0 < width -> 0 < height -> 1 <= digitCount ->
  let img' := calculateSizes fontWidth fontHeight img width height
                digitCount in
  (numWidth img', numHeight img', dotSize img')
    = computeLayout_spec width height digitCount /\
  nrgba img' = nrgba img /\ primaryColor img' = primaryColor img.
Proof.
  intros Hfw Hfh Hw Hh Hn. cbv zeta.
  unfold calculateSizes, sizes, computeLayout_spec.
  assert (Eb : (if height <? width then Z.quot height 5 else Z.quot width 5)
               = Z.min width height / 5).
  { destruct (Z.ltb_spec height width);
      [rewrite Z.min_r by lia | rewrite Z.min_l by lia];
      apply Z.quot_div_nonneg; lia. }
  rewrite Eb. set (border := Z.min width height / 5).
  assert (Hb : 0 <= border /\ 2 * border < width /\ 2 * border < height)
    by (unfold border; zlia).
  replace (width - border * 2) with (width - 2 * border) by lia.
  replace (height - border * 2) with (height - 2 * border) by lia.
  set (w := F64.of_int (width - 2 * border)).
  set (h := F64.of_int (height - 2 * border)).
  set (fw1 := F64.add (F64.of_int fontWidth) (F64.of_int 1)).
  set (fh := F64.of_int fontHeight).
  set (nw := F64.div w (F64.of_int digitCount)).
  set (nh := F64.div (F64.mul nw fh) fw1).
  assert (Nw : F64Facts.not_negative w)
    by (apply F64Facts.of_int_not_negative; lia).
  assert (Nh : F64Facts.not_negative h)
    by (apply F64Facts.of_int_not_negative; lia).
  assert (Nfh : F64Facts.not_negative fh)
    by (apply F64Facts.of_int_not_negative; lia).
  assert (Nfw : F64Facts.not_negative fw1)
    by (apply F64Facts.add_not_negative;
        apply F64Facts.of_int_not_negative; lia).
  assert (Nnw : F64Facts.not_negative nw)
    by (apply F64Facts.div_not_negative;
        [exact Nw | apply F64Facts.of_int_not_negative; lia]).
  assert (Nnh : F64Facts.not_negative nh)
    by (apply F64Facts.div_not_negative;
        [apply F64Facts.mul_not_negative |]; assumption).
  destruct (F64.gtb nh h); cbn [numWidth numHeight dotSize nrgba primaryColor];
    rewrite !F64Facts.floor_to_int;
    repeat first [ assumption
                 | apply F64Facts.div_not_negative
                 | apply F64Facts.mul_not_negative ];
    auto.
Qed.

(** The sizes are conversions of non-negative finite numbers, and the dot
    size is the conversion of a number that does not exceed [nh]. *)
Lemma sizes_nonnegative width height ncount nw nh ds :
  0 < fontWidth < 2 ^ 53 -> 0 < fontHeight < 2 ^ 53 ->
  0 < width < 2 ^ 53 -> 0 < height < 2 ^ 53 -> 1 <= ncount < 2 ^ 53 ->
  sizes fontWidth fontHeight width height ncount = (nw, nh, ds) ->
  0 <= nw /\ 0 <= nh /\ 0 <= ds.
Proof.
  intros Hfw Hfh Hw Hh Hn. unfold sizes.
  set (border := if height <? width then Z.quot height 5 else Z.quot width 5).
  assert (Hb : 0 <= border /\ 2 * border < width /\ 2 * border < height)
    by (unfold border; destruct (Z.ltb_spec height width); zlia).
  destruct (F64Round.of_int_exact (width - border * 2) ltac:(lia)) as [Fw Vw].
  destruct (F64Round.of_int_exact (height - border * 2) ltac:(lia)) as [Fh' Vh'].
  destruct (F64Round.of_int_exact fontWidth Hfw) as [Ffw Vfw].
  destruct (F64Round.of_int_exact fontHeight Hfh) as [Ffh Vfh].
  destruct (F64Round.of_int_exact ncount ltac:(lia)) as [Fnc Vnc].
  destruct (F64Round.of_int_exact 1 ltac:(lia)) as [F1 V1].
  set (w := F64.of_int (width - border * 2)) in *.
  set (h := F64.of_int (height - border * 2)) in *.
  set (fh := F64.of_int fontHeight) in *.
  set (nc := F64.of_int ncount) in *.
  set (fw1 := F64.add (F64.of_int fontWidth) (F64.of_int 1)).
  (* bounds on the inputs as rationals *)
  assert (P53 : (F64Round.b2 53 == inject_Z (2 ^ 53))%Q)
    by (apply F64Round.b2_Z; lia).
  assert (B106 : (F64Round.b2 106 == F64Round.b2 53 * F64Round.b2 53)%Q)
    by (rewrite <- F64Round.b2_add; reflexivity).
  assert (Iw : (F64Round.fval w <= F64Round.b2 53)%Q)
    by (rewrite Vw, P53, <- Zle_Qle; lia).
  assert (Ih : (F64Round.fval h <= F64Round.b2 53)%Q)
    by (rewrite Vh', P53, <- Zle_Qle; lia).
  assert (Ifh : (1 <= F64Round.fval fh <= F64Round.b2 53)%Q)
    by (rewrite Vfh, P53, <- !Zle_Qle; change (inject_Z 1) with 1%Q;
        rewrite <- (Zle_Qle 1); lia).
  assert (Inc : (1 <= F64Round.fval nc)%Q)
    by (rewrite Vnc; rewrite <- (Zle_Qle 1); lia).
  assert (R53 : F64Round.finite_pos (F64Round.pow2 53))
    by (apply F64Round.pow2_finite_pos; lia).
  assert (R0 : F64Round.finite_pos (F64Round.pow2 0))
    by (apply F64Round.pow2_finite_pos; lia).
  assert (R106 : F64Round.finite_pos (F64Round.pow2 106))
    by (apply F64Round.pow2_finite_pos; lia).
  assert (P0 : (F64Round.b2 0 == 1)%Q) by reflexivity.
  destruct (F64Round.add_good (F64.of_int fontWidth) (F64.of_int 1)
              (F64Round.pow2 53) (F64Round.pow2 0) Ffw F1 R53 R0)
    as [Ffw1 [Lfw1 Ufw1]].
  { rewrite Vfw, V1, F64Round.fval_pow2, P53, <- inject_Z_plus, <- Zle_Qle.
    lia. }
  { rewrite Vfw, V1, F64Round.fval_pow2, P0.
    assert (0 <= inject_Z fontWidth)%Q by (rewrite <- (Zle_Qle 0); lia).
    change (inject_Z 1) with 1%Q. lra. }
  fold fw1 in Ffw1, Lfw1, Ufw1.
  rewrite F64Round.fval_pow2 in Lfw1, Ufw1. rewrite P0 in Lfw1.
  (* the candidate sizes *)
  destruct (F64Round.div_good w nc (F64Round.finite_pos_good _ Fw) Fnc Inc)
    as [Gnw Unw].
  set (nw0 := F64.div w nc) in *.
  pose proof (F64Round.fval_nonneg nw0) as Pnw.
  destruct (F64Round.mul_good nw0 fh (F64Round.pow2 106) Gnw
              (F64Round.finite_pos_good _ Ffh) R106) as [Gt Ut].
  { rewrite F64Round.fval_pow2, B106. nra. }
  destruct (F64Round.div_good (F64.mul nw0 fh) fw1 Gt Ffw1 Lfw1) as [Gnh Unh].
  set (nh0 := F64.div (F64.mul nw0 fh) fw1) in *.
  (* the height-constrained sizes *)
  destruct (F64Round.div_good fw1 fh (F64Round.finite_pos_good _ Ffw1) Ffh
              (proj1 Ifh)) as [Gq Uq].
  pose proof (F64Round.fval_nonneg (F64.div fw1 fh)) as Pq.
  pose proof (F64Round.fval_nonneg h) as Ph.
  destruct (F64Round.mul_good (F64.div fw1 fh) h (F64Round.pow2 106) Gq
              (F64Round.finite_pos_good _ Fh') R106) as [Gnw1 _].
  { rewrite F64Round.fval_pow2, B106. nra. }
  destruct (F64.gtb nh0 h); intros [= <- <- <-].
  - destruct (F64Round.div_good h fh (F64Round.finite_pos_good _ Fh') Ffh
                (proj1 Ifh)) as [Gd Ud].
    pose proof (F64Round.to_int_mono _ _ Gd (F64Round.finite_pos_good _ Fh') Ud).
    pose proof (F64Round.to_int_nonneg _ Gd).
    pose proof (F64Round.to_int_nonneg _ Gnw1). lia.
  - destruct (F64Round.div_good nh0 fh Gnh Ffh (proj1 Ifh)) as [Gd Ud].
    pose proof (F64Round.to_int_mono _ _ Gd Gnh Ud).
    pose proof (F64Round.to_int_nonneg _ Gd).
    pose proof (F64Round.to_int_nonneg _ Gnw). lia.
Qed.

(** C3 (as amended): for positive width and height and at least one digit
    (all below [2^53], as is the font), [calculateSizes] returns
    [numWidth >= 0], [numHeight >= 0] and [dotSize >= 0]; each of them can
    be 0 on a small canvas, and nothing fails. *)
Theorem calculateSizes_nonnegative img width height digitCount :
  0 < fontWidth < 2 ^ 53 -> 0 < fontHeight < 2 ^ 53 ->
  0 < width < 2 ^ 53 -> 0 < height < 2 ^ 53 -> 1 <= digitCount < 2 ^ 53 ->
  let img' := calculateSizes fontWidth fontHeight img width height
                digitCount in
  0 <= numWidth img' /\ 0 <= numHeight img' /\ 0 <= dotSize img'.
Proof.
  intros Hfw Hfh Hw Hh Hn. cbv zeta. unfold calculateSizes.
  destruct (sizes fontWidth fontHeight width height digitCount)
    as [[nw nh] ds] eqn:E. cbn [numWidth numHeight dotSize].
  exact (sizes_nonnegative width height digitCount nw nh ds Hfw Hfh Hw Hh Hn E).
Qed.

End Layout.

(** ** The image assembler *)

Section FontAssembly.

Variables fontWidth fontHeight blackChar : Z.
Variable font : list (list Z).

Lemma calculateSizes_fields img width height ncount nw nh ds :
  sizes fontWidth fontHeight width height ncount = (nw, nh, ds) ->
  calculateSizes fontWidth fontHeight img width height ncount
  = mkImage (nrgba img) (primaryColor img) nw nh ds.
Proof. unfold calculateSizes. intros ->. reflexivity. Qed.

(** The image as [NewImage] has it after [calculateSizes]: a canvas of the
    requested size, a primary colour with channels below 255, and the
    computed sizes. *)
Definition sized (width height nw nh ds : Z) (img : CaptchaImage) : Prop :=
  MaxX (nrgba img) = width /\ MaxY (nrgba img) = height /\
  numWidth img = nw /\ numHeight img = nh /\ dotSize img = ds /\
  below_white (primaryColor img).

Lemma sized_same_fields width height nw nh ds img img' :
  sized width height nw nh ds img -> same_fields img img' ->
  sized width height nw nh ds img'.
Proof.
  intros (S1 & S2 & S3 & S4 & S5 & S6) (F1 & F2 & F3 & F4 & F5 & F6).
  unfold sized. rewrite F1, F2, F3, F4, F5, F6. tauto.
Qed.

Lemma NewImage_background_succeeds numbers width height nw nh ds :
  sizes fontWidth fontHeight width height (len numbers) = (nw, nh, ds) ->
  succeeds (NewImage_background fontWidth fontHeight numbers width height)
           (sized width height nw nh ds).
Proof.
  intros Es. unfold NewImage_background.
  eapply succeeds_bind; [apply Intn_succeeds; lia |]. intros r Hr.
  eapply succeeds_bind; [apply Intn_succeeds; lia |]. intros g Hg.
  eapply succeeds_bind; [apply Intn_succeeds; lia |]. intros b Hb.
  cbv beta in Hr, Hg, Hb.
  rewrite (calculateSizes_fields _ _ _ _ _ _ _ Es). cbn [dotSize].
  set (img := mkImage _ _ _ _ _).
  assert (S0 : sized width height nw nh ds img).
  { unfold sized, below_white, color_ok, is_uint8. simpl.
    rewrite !uint8_id by (unfold is_uint8; lia). lia. }
  eapply succeeds_weaken.
  - apply fillWithCircles_total. apply S0.
  - intros img' F. eapply sized_same_fields; eauto.
Qed.

Lemma NewImage_background_sized numbers width height nw nh ds :
  sizes fontWidth fontHeight width height (len numbers) = (nw, nh, ds) ->
  post (NewImage_background fontWidth fontHeight numbers width height)
       (fun img => MaxX (nrgba img) = width /\ MaxY (nrgba img) = height /\
                   numWidth img = nw /\ numHeight img = nh /\
                   dotSize img = ds).
Proof.
  intros Es g img g' E. unfold NewImage_background in E.
  do 3 (apply bind_Ok in E as (? & ? & _ & E)).
  rewrite (calculateSizes_fields _ _ _ _ _ _ _ Es) in E.
  apply fillWithCircles_same_fields in E.
  destruct E as (_ & -> & -> & -> & -> & ->). simpl. auto.
Qed.



(** [NewImage] returns normally for digits that have a glyph, whatever the
    sizes are. *)
Lemma NewImage_succeeds_sized numbers width height nw nh ds :
  font_ok fontWidth fontHeight font -> digits_ok numbers ->
  sizes fontWidth fontHeight width height (len numbers) = (nw, nh, ds) ->
  succeeds (NewImage fontWidth fontHeight blackChar font numbers width height)
           (sized width height nw nh ds).
Proof.
  intros Hf Hn Es. unfold NewImage.
  eapply succeeds_bind;
    [apply (NewImage_background_succeeds _ _ _ _ _ _ Es) |].
  intros img S0.
  eapply succeeds_bind with (P := fun _ => True).
  { unfold NewImage_anchor.
    eapply succeeds_bind; [apply rnd_total |]. intros x _.
    eapply succeeds_bind; [apply rnd_total |]. intros y _.
    apply succeeds_ret. exact I. }
  intros [x y] _.
  eapply succeeds_bind; [apply drawNumbers_total; [exact Hf | exact Hn] |].
  intros img1 P1. pose proof (sized_same_fields _ _ _ _ _ _ _ S0 (proj1 P1)) as S1.
  eapply succeeds_weaken.
  - apply strikeThrough_total.
  - intros img2 P2. eapply sized_same_fields; [exact S1 | apply P2].
Qed.

(** C2 (as amended): for positive width and height, digits in 0..9 and at
    least one digit (a font of ten glyphs), [NewImage] returns normally on
    every state of the random source, the computed sizes stored in the
    image: no panic is raised from a random draw or from the geometry.
    This does not rest on the intervals passed to [rnd] being non-empty
    (they can be empty): [rand.Intn] returns 0 for a bound that is not
    positive, and [rnd] then returns its lower bound. *)
Theorem NewImage_succeeds numbers width height nw nh ds :
  font_ok fontWidth fontHeight font ->
  digits_ok numbers -> 1 <= len numbers ->
  0 < width -> 0 < height ->
  sizes fontWidth fontHeight width height (len numbers) = (nw, nh, ds) ->
  succeeds (NewImage fontWidth fontHeight blackChar font numbers width height)
           (sized width height nw nh ds).
Proof.
  intros Hf Hn Hl Hw Hh Es. apply NewImage_succeeds_sized; assumption.
Qed.

End FontAssembly.

(** ** Determinism given the random stream *)

(** Two tapes hold the same draws at the positions [lo .. hi - 1]. *)
Definition agree (t1 t2 : nat -> Z) (lo hi : nat) : Prop :=
  forall k, (lo <= k < hi)%nat -> t1 k = t2 k.

(** A computation that returns normally has read the tape only between the
    position it started from and the one it stopped at: on any tape with
    the same draws there, it returns the same value and stops at the same
    position. *)
Definition tape_local {T} (m : M T) : Prop :=
  forall g v g', m g = Ok v g' ->
    tape g' = tape g /\ (pos g <= pos g')%nat /\
    forall t2, agree (tape g) t2 (pos g) (pos g') ->
               m (mkRand t2 (pos g)) = Ok v (mkRand t2 (pos g')).

Lemma local_ret {T} (v : T) : tape_local (ret v).
Proof.
  intros g v' g' E. cbv [ret] in E. inversion E; subst.
  split; [reflexivity |]. split; [lia | reflexivity].
Qed.

Lemma local_panic {T} : tape_local (@panic T).
Proof. intros g v g' E. discriminate E. Qed.

Lemma local_out_of_fuel {T} : tape_local (@out_of_fuel T).
Proof. intros g v g' E. discriminate E. Qed.

Lemma local_draw : tape_local draw.
Proof.
  intros g v g' E. cbv [draw] in E. inversion E; subst. simpl.
  split; [reflexivity |]. split; [lia |].
  intros t2 Ha. cbv [draw]. simpl. rewrite (Ha (pos g)) by lia. reflexivity.
Qed.

Lemma local_bind {T U} (m : M T) (k : T -> M U) :
  tape_local m -> (forall v, tape_local (k v)) -> tape_local (bind m k).
Proof.
  intros Hm Hk g u g2 E. apply bind_Ok in E as (v & g1 & E1 & E2).
  destruct (Hm _ _ _ E1) as (T1 & P1 & L1).
  destruct (Hk v _ _ _ E2) as (T2 & P2 & L2).
  split; [congruence |]. split; [lia |].
  intros t2 Ha. unfold bind. rewrite L1.
  - apply L2. rewrite T1. intros i Hi. apply Ha. lia.
  - intros i Hi. apply Ha. lia.
Qed.

Lemma local_Intn n : tape_local (Intn n).
Proof.
  unfold Intn. destruct (n <=? 0); [apply local_ret |].
  apply local_bind; [apply local_draw | intros; apply local_ret].
Qed.

Lemma local_rnd from to : tape_local (rnd from to).
Proof.
  unfold rnd. apply local_bind; [apply local_Intn | intros; apply local_ret].
Qed.

Lemma local_Float64 : tape_local Float64.
Proof.
  unfold Float64.
  apply local_bind; [apply local_draw | intros; apply local_ret].
Qed.

Lemma local_drawCircle img c x y r : tape_local (drawCircle img c x y r).
Proof.
  unfold drawCircle. destruct (drawCircle_fuel _ _ _ _ _ _);
    [apply local_ret | apply local_out_of_fuel].
Qed.

Lemma local_setRandomBrightness c max :
  tape_local (setRandomBrightness c max).
Proof.
  unfold setRandomBrightness. destruct (_ <? _); [apply local_ret |].
  apply local_bind; [apply local_Intn | intros; apply local_ret].
Qed.

Create HintDb tape_local.
#[local] Hint Resolve local_ret local_panic local_out_of_fuel local_draw
  local_Intn local_rnd local_Float64 local_drawCircle
  local_setRandomBrightness : tape_local.

(** Composition of local computations, one [bind] after the other. *)
Ltac local_step :=
  first
    [ solve [auto with tape_local]
    | match goal with
      | |- tape_local (bind _ _) => apply local_bind; [| intros ]
      | |- tape_local (if ?b then _ else _) => destruct b
      | |- tape_local (match ?o with Some _ => _ | None => _ end) =>
          destruct o
      | |- tape_local (let '(_, _) := ?p in _) => destruct p
      end ].
Ltac local := repeat local_step.

Lemma local_fillWithCircles_loop k : forall maxradius maxx maxy color img,
  tape_local (fillWithCircles_loop k maxradius maxx maxy color img).
Proof.
  induction k as [| k IH]; intros; cbn [fillWithCircles_loop]; local.
Qed.

Lemma local_fillWithCircles img n maxradius :
  tape_local (fillWithCircles img n maxradius).
Proof. apply local_fillWithCircles_loop. Qed.

Lemma local_strikeThrough_loop fuel : forall maxx maxy x y img,
  tape_local (strikeThrough_loop fuel maxx maxy x y img).
Proof.
  induction fuel as [| fuel IH]; intros; cbn [strikeThrough_loop];
    unfold strikeThrough_body; local.
Qed.

Lemma local_strikeThrough img : tape_local (strikeThrough img).
Proof.
  unfold strikeThrough. local. apply local_strikeThrough_loop.
Qed.

#[local] Hint Resolve local_fillWithCircles local_strikeThrough : tape_local.

Section FontDeterminism.

Variables fontWidth fontHeight blackChar : Z.
Variable font : list (list Z).

Lemma local_drawNumber_cols k : forall number x y yy xx minr maxr img,
  tape_local (drawNumber_cols fontWidth blackChar k number x y yy xx
                minr maxr img).
Proof.
  induction k as [| k IH]; intros; cbn [drawNumber_cols]; local.
Qed.

Lemma local_drawNumber_rows k : forall number skf xs x y yy minr maxr img,
  tape_local (drawNumber_rows fontWidth blackChar k number skf xs x y yy
                minr maxr img).
Proof.
  induction k as [| k IH]; intros; cbn [drawNumber_rows]; local.
  apply local_drawNumber_cols.
Qed.

Lemma local_drawNumber img number x y :
  tape_local (drawNumber fontWidth fontHeight blackChar img number x y).
Proof. unfold drawNumber. local. cbv zeta. apply local_drawNumber_rows. Qed.

Lemma local_drawNumbers numbers : forall x y img,
  tape_local (drawNumbers fontWidth fontHeight blackChar font numbers x y img).
Proof.
  induction numbers as [| n rest IH]; intros; cbn [drawNumbers]; local.
  apply local_drawNumber.
Qed.

Lemma local_NewImage numbers width height :
  tape_local (NewImage fontWidth fontHeight blackChar font
                numbers width height).
Proof.
  unfold NewImage, NewImage_background, NewImage_anchor. local.
  apply local_drawNumbers.
Qed.

(** C6: rendering is deterministic given the random stream.  If a run of
    [NewImage] returns an image after reading the draws at the positions
    [pos g .. pos g' - 1] of its tape, then on every tape that holds the
    same draws at these positions the run with the same digits, width and
    height returns the very same image (the same bounds and the same
    colour at every pixel), having read the same positions. *)
Theorem NewImage_deterministic numbers width height g img g' t2 :
  NewImage fontWidth fontHeight blackChar font numbers width height g
    = Ok img g' ->
  agree (tape g) t2 (pos g) (pos g') ->
  NewImage fontWidth fontHeight blackChar font numbers width height
    (mkRand t2 (pos g)) = Ok img (mkRand t2 (pos g')).
Proof.
  intros E Ha. destruct (local_NewImage numbers width height g img g' E)
    as (_ & _ & L). apply L, Ha.
Qed.

End FontDeterminism.

(** ** Intervals that are empty *)

Section FontEmptyIntervals.

Variables fontWidth fontHeight blackChar : Z.
Variable font : list (list Z).

(** With too many digits for the width the interval of the abscissa of
    the anchor is empty, and the anchor is put at its lower bound
    [2 * dotSize]. *)
Lemma NewImage_anchor_without_room img numbers width height g :
  anchor_maxx img width (len numbers) < dotSize img * 2 ->
  exists y g',
    NewImage_anchor img numbers width height g = Ok (dotSize img * 2, y) g'.
Proof.
  intros H. unfold NewImage_anchor. unfold bind at 1.
  rewrite rnd_empty by exact H.
  destruct (rnd_total (dotSize img * 2) (anchor_maxy img height) g)
    as (y & g' & E & _).
  unfold bind. rewrite E. exists y, g'. reflexivity.
Qed.

End FontEmptyIntervals.

(** ** Concrete runs with the font of 5 x 8 cells *)

(** [NewImage] with the font of 5 x 8 cells and the sample glyphs. *)
Abbreviation stdNewImage :=
  (NewImage stdFontWidth stdFontHeight stdBlackChar sampleFont) (only parsing).

Lemma sampleFont_ok : font_ok stdFontWidth stdFontHeight sampleFont.
Proof.
  unfold font_ok, stdFontWidth, stdFontHeight.
  split; [lia |]. split; [lia |]. split; [reflexivity |].
  repeat constructor.
Qed.

Example stdSizes_300_80_5 : stdSizes 300 80 5 = (36, 42, 6).
Proof. vm_compute. reflexivity. Qed.

Example stdSizes_300_80_10 : stdSizes 300 80 10 = (26, 31, 4).
Proof. vm_compute. reflexivity. Qed.

Example stdSizes_1_1_1 : stdSizes 1 1 1 = (0, 1, 0).
Proof. vm_compute. reflexivity. Qed.

Example stdSizes_1_1_2 : stdSizes 1 1 2 = (0, 0, 0).
Proof. vm_compute. reflexivity. Qed.

(** C2 as stated fails in its reason: the intervals passed to [rnd] can be
    empty for a valid input.  On an 1 x 1 canvas the dot size is 0 and
    [fillWithCircles] calls [rnd(1, dotSize)] with the interval [1 .. 0];
    on the standard 300 x 80 canvas with ten digits [NewImage] calls
    [rnd(dotSize*2, maxx)] with the interval [8 .. -4] and gets the
    abscissa 8.  Either way [NewImage] returns. *)
Lemma NewImage_draws_from_empty_intervals :
  (digits_ok [1] /\ 0 < 1 /\ 1 <= len [1] /\
   (forall g img g',
      NewImage_background stdFontWidth stdFontHeight [1] 1 1 g = Ok img g' ->
      dotSize img < 1) /\
   forall g, exists img g', stdNewImage [1] 1 1 g = Ok img g') /\
  (digits_ok [0; 1; 2; 3; 4; 5; 6; 7; 8; 9] /\ 0 < 300 /\ 0 < 80 /\
   1 <= len [0; 1; 2; 3; 4; 5; 6; 7; 8; 9] /\
   (forall g img g1,
      NewImage_background stdFontWidth stdFontHeight
        [0; 1; 2; 3; 4; 5; 6; 7; 8; 9] 300 80 g = Ok img g1 ->
      dotSize img * 2 = 8 /\
      anchor_maxx img 300 (len [0; 1; 2; 3; 4; 5; 6; 7; 8; 9]) = -4 /\
      exists y g2,
        NewImage_anchor img [0; 1; 2; 3; 4; 5; 6; 7; 8; 9] 300 80 g1
        = Ok (8, y) g2) /\
   forall g, exists img g',
     stdNewImage [0; 1; 2; 3; 4; 5; 6; 7; 8; 9] 300 80 g = Ok img g').
Proof.
  assert (H1 : digits_ok [1]) by (repeat constructor; lia).
  assert (H10 : digits_ok [0; 1; 2; 3; 4; 5; 6; 7; 8; 9])
    by (repeat constructor; lia).
  split.
  - split; [exact H1 |]. split; [lia |].
    split; [vm_compute; discriminate |]. split.
    + intros g img g' E.
      apply (NewImage_background_sized stdFontWidth stdFontHeight [1] 1 1 0 1 0
               stdSizes_1_1_1) in E
        as (_ & _ & _ & _ & ->). lia.
    + intros g.
      destruct (NewImage_succeeds_sized stdFontWidth stdFontHeight
                  stdBlackChar sampleFont [1] 1 1 0 1 0 sampleFont_ok H1
                  stdSizes_1_1_1 g) as (img & g' & E & _).
      eauto.
  - split; [exact H10 |]. split; [lia |]. split; [lia |].
    split; [vm_compute; discriminate |]. split.
    + intros g img g1 E.
      apply (NewImage_background_sized stdFontWidth stdFontHeight
               [0; 1; 2; 3; 4; 5; 6; 7; 8; 9] 300 80 26 31 4
               stdSizes_300_80_10) in E
        as (_ & _ & Enw & _ & Eds).
      assert (Ex : anchor_maxx img 300 (len [0; 1; 2; 3; 4; 5; 6; 7; 8; 9])
                   = -4)
        by (unfold anchor_maxx; rewrite Enw, Eds; reflexivity).
      split; [rewrite Eds; reflexivity |]. split; [exact Ex |].
      destruct (NewImage_anchor_without_room img
                  [0; 1; 2; 3; 4; 5; 6; 7; 8; 9] 300 80 g1) as (y & g2 & E2).
      { rewrite Ex, Eds. lia. }
      rewrite Eds in E2. exists y, g2. exact E2.
    + intros g.
      destruct (NewImage_succeeds_sized stdFontWidth stdFontHeight
                  stdBlackChar sampleFont [0; 1; 2; 3; 4; 5; 6; 7; 8; 9]
                  300 80 26 31 4 sampleFont_ok H10 stdSizes_300_80_10 g)
        as (img & g' & E & _).
      eauto.
Qed.

Lemma NewImage_succeeds_witness :
  font_ok stdFontWidth stdFontHeight sampleFont /\
  digits_ok [1; 2; 3; 4; 5] /\ 1 <= len [1; 2; 3; 4; 5] /\
  0 < 300 /\ 0 < 80 /\
  sizes stdFontWidth stdFontHeight 300 80 (len [1; 2; 3; 4; 5])
    = (36, 42, 6) /\
  succeeds (stdNewImage [1; 2; 3; 4; 5] 300 80) (sized 300 80 36 42 6).
Proof.
  assert (Hn : digits_ok [1; 2; 3; 4; 5]) by (repeat constructor; lia).
  assert (Hl : 1 <= len [1; 2; 3; 4; 5]) by (vm_compute; discriminate).
  assert (Hw : 0 < 300) by lia.
  assert (Hh : 0 < 80) by lia.
  split; [exact sampleFont_ok |]. split; [exact Hn |]. split; [exact Hl |].
  split; [exact Hw |]. split; [exact Hh |].
  split; [exact stdSizes_300_80_5 |].
  exact (NewImage_succeeds stdFontWidth stdFontHeight stdBlackChar sampleFont
           [1; 2; 3; 4; 5] 300 80 36 42 6 sampleFont_ok Hn Hl Hw Hh
           stdSizes_300_80_5).
Defined.

Lemma calculateSizes_follows_spec_witness :
  0 < stdFontWidth /\ 0 < stdFontHeight /\ 0 < 300 /\ 0 < 80 /\ 1 <= 5 /\
  let img' := calculateSizes stdFontWidth stdFontHeight (blankImage 300 80)
                300 80 5 in
  (numWidth img', numHeight img', dotSize img')
    = computeLayout_spec stdFontWidth stdFontHeight 300 80 5 /\
  nrgba img' = nrgba (blankImage 300 80) /\
  primaryColor img' = primaryColor (blankImage 300 80).
Proof.
  unfold stdFontWidth, stdFontHeight.
  repeat (split; [lia |]).
  apply (calculateSizes_follows_spec 5 8 (blankImage 300 80) 300 80 5); lia.
Defined.

(** The scenario of the specification: five digits on 300 x 80. *)
Example computeLayout_spec_300_80_5 :
  computeLayout_spec stdFontWidth stdFontHeight 300 80 5 = (36, 42, 6).
Proof. vm_compute. reflexivity. Qed.

(** A tape that holds the draws of [sampleTape 3] at the first 226
    positions and something else from there on. *)
Definition otherTape (k : nat) : Z :=
  if (k <? 226)%nat then sampleTape 3 k else 5 * Z.of_nat k.

Lemma NewImage_deterministic_witness :
  exists img g',
    stdNewImage [7] 60 60 (sampleRand 3) = Ok img g' /\
    agree (tape (sampleRand 3)) otherTape (pos (sampleRand 3)) (pos g') /\
    stdNewImage [7] 60 60 (mkRand otherTape (pos (sampleRand 3)))
      = Ok img (mkRand otherTape (pos g')).
Proof.
  assert (Ep : match stdNewImage [7] 60 60 (sampleRand 3) with
               | Ok _ g' => pos g' = 226%nat
               | _ => False
               end) by (vm_compute; reflexivity).
  destruct (stdNewImage [7] 60 60 (sampleRand 3)) as [img g' | |] eqn:E;
    [| contradiction..].
  assert (Ha : agree (tape (sampleRand 3)) otherTape
                 (pos (sampleRand 3)) (pos g')).
  { rewrite Ep. intros k Hk. unfold otherTape. simpl.
    destruct (Nat.ltb_spec k 226); [reflexivity | lia]. }
  exists img, g'. split; [reflexivity |]. split; [exact Ha |].
  exact (NewImage_deterministic stdFontWidth stdFontHeight stdBlackChar
           sampleFont [7] 60 60 (sampleRand 3) img g' otherTape E Ha).
Defined.

Lemma strikeThrough_terminates_witness :
  let img := mkImage (NewNRGBA 12 12) opaqueRed 0 0 4 in
  4 <= dotSize img /\ 0 <= MaxY (nrgba img) /\
  (forall x y img1, same_fields img img1 ->
     succeeds (strikeThrough_body (MaxY (nrgba img)) x y img1)
              (fun '(r, _, _) => x < x + r)) /\
  succeeds (strikeThrough img) (paints (primaryColor img) img) /\
  (forall g y g1 img' g' fuel,
     rnd (Z.quot (MaxY (nrgba img)) 3)
         (MaxY (nrgba img) - Z.quot (MaxY (nrgba img)) 3) g = Ok y g1 ->
     strikeThrough img g = Ok img' g' ->
     (Z.to_nat (MaxX (nrgba img)) <= fuel)%nat ->
     strikeThrough_loop fuel (MaxX (nrgba img)) (MaxY (nrgba img)) 0 y img g1
       = Ok img' g').
Proof.
  intros img.
  assert (Hd : 4 <= dotSize img) by (simpl; lia).
  assert (Hy : 0 <= MaxY (nrgba img)) by (simpl; lia).
  split; [exact Hd |]. split; [exact Hy |].
  exact (strikeThrough_terminates img Hd Hy).
Defined.

Lemma fillWithCircles_only_pixels_witness :
  let img := mkImage (NewNRGBA 8 8) (mkColor 10 20 30 255) 0 0 2 in
  exists img1 g1,
    fillWithCircles img 2 2 (sampleRand 1) = Ok img1 g1 /\
    same_fields img img1 /\
    (forall glyph x y g2 img2 g3,
       drawNumber stdFontWidth stdFontHeight stdBlackChar img1 glyph x y g2
         = Ok img2 g3 ->
       paints (primaryColor img) img1 img2) /\
    (forall g2 img2 g3,
       strikeThrough img1 g2 = Ok img2 g3 ->
       paints (primaryColor img) img1 img2).
Proof.
  intros img.
  assert (Ep : match fillWithCircles img 2 2 (sampleRand 1) with
               | Ok _ _ => True
               | _ => False
               end) by (vm_compute; exact I).
  destruct (fillWithCircles img 2 2 (sampleRand 1)) as [img1 g1 | |] eqn:E;
    [| contradiction..].
  exists img1, g1. split; [reflexivity |].
  exact (fillWithCircles_only_pixels stdFontWidth stdFontHeight stdBlackChar
           img 2 2 (sampleRand 1) img1 g1 E).
Defined.

(** C3 as stated fails: two digits on an 1 x 1 canvas get the sizes
    [numWidth = 0], [numHeight = 0] and [dotSize = 0], and one digit gets
    [numWidth = 0]. *)
Lemma sizes_not_positive :
  0 < stdFontWidth /\ 0 < stdFontHeight /\ 0 < 1 /\ 1 <= 2 /\
  (let img := calculateSizes stdFontWidth stdFontHeight (blankImage 1 1)
                1 1 2 in
   numWidth img = 0 /\ numHeight img = 0 /\ dotSize img = 0) /\
  (let img := calculateSizes stdFontWidth stdFontHeight (blankImage 1 1)
                1 1 1 in
   numWidth img = 0 /\ numHeight img = 1 /\ dotSize img = 0).
Proof.
  unfold stdFontWidth, stdFontHeight.
  repeat (split; [lia |]).
  split; vm_compute; auto.
Qed.

Lemma calculateSizes_nonnegative_witness :
  0 < stdFontWidth < 2 ^ 53 /\ 0 < stdFontHeight < 2 ^ 53 /\
  0 < 300 < 2 ^ 53 /\ 0 < 80 < 2 ^ 53 /\ 1 <= 5 < 2 ^ 53 /\
  let img' := calculateSizes stdFontWidth stdFontHeight (blankImage 300 80)
                300 80 5 in
  0 <= numWidth img' /\ 0 <= numHeight img' /\ 0 <= dotSize img'.
Proof.
  unfold stdFontWidth, stdFontHeight.
  repeat (split; [lia |]).
  apply (calculateSizes_nonnegative 5 8 (blankImage 300 80) 300 80 5); lia.
Defined.

(** * Further properties of the code *)

(** ** Rasterizer *)

(** X1: [drawHorizLine] paints exactly the pixels of the span
    [fromX .. toX] of row [y] that lie inside the canvas: these get the
    colour, every other pixel and every other field of the image is left as
    it was; a span with [toX < fromX] paints nothing. *)
Theorem drawHorizLine_exact img color fromX toX y :
  same_fields img (drawHorizLine img color fromX toX y) /\
  (forall px py,
     pixel (drawHorizLine img color fromX toX y) (px, py) =
     if bool_decide (py = y /\ fromX <= px <= toX)
        && inRect (nrgba img) px py
     then Some color else pixel img (px, py)) /\
  (toX < fromX -> drawHorizLine img color fromX toX y = img).
Proof.
  split; [apply drawHorizLine_paints |]. split.
  - intros px py. rewrite drawHorizLine_pixel. cbn [fst snd].
    case_bool_decide as H; [| reflexivity]. destruct H as [-> _]. reflexivity.
  - intros H. unfold drawHorizLine.
    replace (Z.to_nat (toX + 1 - fromX)) with O by lia. reflexivity.
Qed.

(** The loop of [drawCircle] keeps an invariant of its state that every
    pass keeps. *)
Lemma drawCircle_loop_invariant (Inv : circleState * CaptchaImage -> Prop)
    c x y :
  (forall st, Inv st -> cxx (fst st) < cyy (fst st) ->
              Inv (drawCircle_step c x y st)) ->
  forall fuel st img',
    Inv st -> drawCircle_loop fuel c x y st = Some img' ->
    exists st', Inv st' /\ snd st' = img' /\ cyy (fst st') <= cxx (fst st').
Proof.
  intros Hstep. induction fuel as [| fuel IH]; intros st img' Hi E;
    cbn [drawCircle_loop] in E;
    destruct (Z.ltb_spec (cxx (fst st)) (cyy (fst st))) as [Hlt | Hge];
    try discriminate.
  - injection E as <-. eauto.
  - eapply IH; [| exact E]. apply Hstep; assumption.
  - injection E as <-. eauto.
Qed.

(** A pixel that a run changed. *)
Definition changed (img img' : CaptchaImage) (p : Z * Z) : Prop :=
  pixel img' p <> pixel img p.

(** All changes lie in the square of half-side [r] around [(cx, cy)]. *)
Definition within_box (cx cy r : Z) (img img' : CaptchaImage) : Prop :=
  forall px py, changed img img' (px, py) ->
    cx - r <= px <= cx + r /\ cy - r <= py <= cy + r.

Lemma within_box_refl cx cy r img : within_box cx cy r img img.
Proof. intros px py H. exfalso. apply H. reflexivity. Qed.

Lemma within_box_trans cx cy r i1 i2 i3 :
  within_box cx cy r i1 i2 -> within_box cx cy r i2 i3 ->
  within_box cx cy r i1 i3.
Proof.
  intros H1 H2 px py H. unfold changed in *.
  destruct (decide (pixel i2 (px, py) = pixel i1 (px, py))) as [E | N].
  - apply H2. unfold changed. congruence.
  - apply H1. exact N.
Qed.

Lemma drawHorizLine_within_box cx cy r img c k y0 :
  0 <= k <= r -> cy - r <= y0 <= cy + r ->
  within_box cx cy r img (drawHorizLine img c (cx - k) (cx + k) y0).
Proof.
  intros Hk Hy px py H. unfold changed in H.
  rewrite drawHorizLine_pixel in H. cbn [fst snd] in H.
  case_bool_decide as Hd; [lia |]. exfalso. apply H. reflexivity.
Qed.

Lemma Set_within_box cx cy r img c y0 :
  0 <= r -> cy - r <= y0 <= cy + r ->
  within_box cx cy r img (Set_ img cx y0 c).
Proof.
  intros Hr Hy px py H. unfold changed in H. rewrite Set_pixel in H.
  case_bool_decide as Hd; [injection Hd as -> ->; lia |].
  exfalso. apply H. rewrite andb_false_r. reflexivity.
Qed.

(** What one pass through the loop of [drawCircle] does: [xx] grows by
    one, [yy] stays or shrinks by one, and four spans centred on [x] are
    drawn. *)
Lemma drawCircle_step_spans c x y st :
  exists f' dfx' dfy' xx' yy',
    xx' = cxx (fst st) + 1 /\
    (yy' = cyy (fst st) \/ yy' = cyy (fst st) - 1) /\
    drawCircle_step c x y st =
    (mkCircle f' dfx' dfy' xx' yy',
     drawHorizLine
       (drawHorizLine
          (drawHorizLine
             (drawHorizLine (snd st) c (x - xx') (x + xx') (y + yy'))
             c (x - xx') (x + xx') (y - yy'))
          c (x - yy') (x + yy') (y + xx'))
       c (x - yy') (x + yy') (y - xx')).
Proof.
  destruct st as [[f dfx dfy xx yy] img]. unfold drawCircle_step.
  destruct (0 <=? f); cbn [fst snd cxx cyy]; do 5 eexists;
    (split; [reflexivity |]); (split; [| reflexivity]); auto.
Qed.

(** X2: [drawCircle] returns for every radius and every centre, without
    reading the random source; it changes no field of the image but the
    pixels, and a pixel it changes gets the given colour. *)
Theorem drawCircle_returns img color x y radius g :
  exists img',
    drawCircle img color x y radius g = Ok img' g /\
    same_fields img img' /\
    forall p, pixel img' p = pixel img p \/ pixel img' p = Some color.
Proof.
  destruct (drawCircle_Ok img color x y radius g) as (img' & E & F & P).
  exists img'. auto.
Qed.

Lemma drawCircle_within_box img c cx cy r g img' g' :
  0 <= r -> drawCircle img c cx cy r g = Ok img' g' ->
  within_box cx cy r img img'.
Proof.
  intros Hr E. unfold drawCircle in E.
  destruct (drawCircle_fuel _ _ _ _ _ _) as [img1 |] eqn:Ef; [| discriminate].
  cbv [ret] in E. injection E as <- <-. unfold drawCircle_fuel in Ef.
  apply (drawCircle_loop_invariant
           (fun st => 0 <= cxx (fst st) /\ cyy (fst st) <= r /\
                      within_box cx cy r img (snd st))) in Ef.
  - destruct Ef as (st' & (_ & _ & W) & <- & _). exact W.
  - intros st (H0 & H1 & W) Hlt.
    destruct (drawCircle_step_spans c cx cy st)
      as (f' & dfx' & dfy' & xx' & yy' & Ex & Ey & ->).
    cbn [fst snd cxx cyy]. split; [lia |]. split; [lia |].
    eapply within_box_trans; [| apply drawHorizLine_within_box; lia].
    eapply within_box_trans; [| apply drawHorizLine_within_box; lia].
    eapply within_box_trans; [| apply drawHorizLine_within_box; lia].
    eapply within_box_trans; [exact W | apply drawHorizLine_within_box; lia].
  - unfold drawCircle_init. cbn [fst snd cxx cyy].
    split; [lia |]. split; [lia |].
    eapply within_box_trans; [| apply drawHorizLine_within_box; lia].
    eapply within_box_trans; apply Set_within_box; lia.
Qed.

(** Every change comes with the whole part of its row that is at most as
    far from column [cx]: the painted part of a row is a span centred on
    [cx]. *)
Definition rows_centred (cx : Z) (c : NRGBAColor) (img img' : CaptchaImage)
  : Prop :=
  paints c img img' /\
  forall px py, changed img img' (px, py) ->
    forall qx, Z.abs (qx - cx) <= Z.abs (px - cx) ->
               inRect (nrgba img) qx py = true ->
               pixel img' (qx, py) = Some c.

Lemma rows_centred_refl cx c img : rows_centred cx c img img.
Proof.
  split; [apply paints_refl |]. intros px py H. exfalso. apply H. reflexivity.
Qed.

Lemma rows_centred_trans cx c i1 i2 i3 :
  rows_centred cx c i1 i2 -> rows_centred cx c i2 i3 ->
  rows_centred cx c i1 i3.
Proof.
  intros [P1 R1] [P2 R2]. split; [eapply paints_trans; eauto |].
  intros px py H qx Hq Hin. unfold changed in *.
  destruct (decide (pixel i2 (px, py) = pixel i1 (px, py))) as [E | N].
  - apply (R2 px py); [unfold changed; congruence | exact Hq |].
    rewrite (inRect_same_fields i1) by apply P1. exact Hin.
  - eapply paints_keeps; [exact P2 |]. apply (R1 px py); assumption.
Qed.

Lemma drawHorizLine_rows_centred cx c img k y0 :
  rows_centred cx c img (drawHorizLine img c (cx - k) (cx + k) y0).
Proof.
  split; [apply drawHorizLine_paints |].
  intros px py H qx Hq Hin. unfold changed in H.
  rewrite drawHorizLine_pixel in H |- *. cbn [fst snd] in *.
  case_bool_decide as Hd.
  - destruct Hd as [-> Hd]. rewrite bool_decide_eq_true_2 by lia.
    rewrite Hin. reflexivity.
  - exfalso. apply H. reflexivity.
Qed.

Lemma Set_rows_centred cx c img y0 :
  rows_centred cx c img (Set_ img cx y0 c).
Proof.
  split; [apply Set_paints |].
  intros px py H qx Hq Hin. unfold changed in H.
  rewrite Set_pixel in H |- *.
  case_bool_decide as Hd.
  - injection Hd as -> ->. assert (qx = cx) as -> by lia.
    rewrite bool_decide_eq_true_2 by reflexivity. rewrite Hin. reflexivity.
  - exfalso. apply H. rewrite andb_false_r. reflexivity.
Qed.

Lemma drawCircle_rows_centred img c cx cy r g img' g' :
  drawCircle img c cx cy r g = Ok img' g' -> rows_centred cx c img img'.
Proof.
  intros E. unfold drawCircle in E.
  destruct (drawCircle_fuel _ _ _ _ _ _) as [img1 |] eqn:Ef; [| discriminate].
  cbv [ret] in E. injection E as <- <-. unfold drawCircle_fuel in Ef.
  apply (drawCircle_loop_invariant
           (fun st => rows_centred cx c img (snd st))) in Ef.
  - destruct Ef as (st' & W & <- & _). exact W.
  - intros st W Hlt.
    destruct (drawCircle_step_spans c cx cy st)
      as (f' & dfx' & dfy' & xx' & yy' & Ex & Ey & ->).
    cbn [fst snd].
    repeat (eapply rows_centred_trans; [| apply drawHorizLine_rows_centred]).
    exact W.
  - unfold drawCircle_init. cbn [fst snd].
    eapply rows_centred_trans; [| apply drawHorizLine_rows_centred].
    eapply rows_centred_trans; apply Set_rows_centred.
Qed.

(** X3: what [drawCircle] paints in a row is a span centred on the column
    of the centre: with a pixel it changes, every pixel of the canvas in
    the same row that is no farther from column [cx] has the colour. *)
Theorem drawCircle_rows_are_centred_spans img color cx cy r g img' g'
    px py qx :
  drawCircle img color cx cy r g = Ok img' g' ->
  pixel img' (px, py) <> pixel img (px, py) ->
  Z.abs (qx - cx) <= Z.abs (px - cx) ->
  inRect (nrgba img) qx py = true ->
  pixel img' (qx, py) = Some color.
Proof.
  intros E H Hq Hin.
  destruct (drawCircle_rows_centred _ _ _ _ _ _ _ _ E) as [_ R].
  exact (R px py H qx Hq Hin).
Qed.

(** The rows the loop of [drawCircle] has reached so far: those at most
    [xx] and those at least [yy] away from the centre. *)
Definition spine_inv (img : CaptchaImage) (c : NRGBAColor) (cx cy r : Z)
    (st : circleState * CaptchaImage) : Prop :=
  paints c img (snd st) /\
  0 <= cxx (fst st) /\ cyy (fst st) <= r /\
  forall d, Z.abs d <= cxx (fst st) \/ cyy (fst st) <= Z.abs d <= r ->
            inRect (nrgba img) cx (cy + d) = true ->
            pixel (snd st) (cx, cy + d) = Some c.

Lemma drawHorizLine_centre cx c img k y0 :
  0 <= k -> inRect (nrgba img) cx y0 = true ->
  pixel (drawHorizLine img c (cx - k) (cx + k) y0) (cx, y0) = Some c.
Proof.
  intros Hk Hin. rewrite drawHorizLine_pixel. cbn [fst snd].
  rewrite bool_decide_eq_true_2 by lia. rewrite Hin. reflexivity.
Qed.

Lemma drawCircle_spine img c cx cy r g img' g' :
  0 <= r -> drawCircle img c cx cy r g = Ok img' g' ->
  forall d, Z.abs d <= r -> inRect (nrgba img) cx (cy + d) = true ->
            pixel img' (cx, cy + d) = Some c.
Proof.
  intros Hr E. unfold drawCircle in E.
  destruct (drawCircle_fuel _ _ _ _ _ _) as [img1 |] eqn:Ef; [| discriminate].
  cbv [ret] in E. injection E as <- <-. unfold drawCircle_fuel in Ef.
  apply (drawCircle_loop_invariant (spine_inv img c cx cy r)) in Ef.
  - destruct Ef as (st' & (P & H0 & H1 & Hs) & <- & Hexit).
    intros d Hd Hin. apply Hs; [lia | exact Hin].
  - intros st (P & H0 & H1 & Hs) Hlt.
    destruct (drawCircle_step_spans c cx cy st)
      as (f' & dfx' & dfy' & xx' & yy' & Ex & Ey & ->).
    set (i1 := drawHorizLine (snd st) c (cx - xx') (cx + xx') (cy + yy')).
    set (i2 := drawHorizLine i1 c (cx - xx') (cx + xx') (cy - yy')).
    set (i3 := drawHorizLine i2 c (cx - yy') (cx + yy') (cy + xx')).
    set (i4 := drawHorizLine i3 c (cx - yy') (cx + yy') (cy - xx')).
    assert (P1 : paints c (snd st) i1) by apply drawHorizLine_paints.
    assert (P2 : paints c i1 i2) by apply drawHorizLine_paints.
    assert (P3 : paints c i2 i3) by apply drawHorizLine_paints.
    assert (P4 : paints c i3 i4) by apply drawHorizLine_paints.
    assert (Q1 : paints c img i1) by (eapply paints_trans; eauto).
    assert (Q2 : paints c img i2) by (eapply paints_trans; eauto).
    assert (Q3 : paints c img i3) by (eapply paints_trans; eauto).
    assert (Q4 : paints c img i4) by (eapply paints_trans; eauto).
    unfold spine_inv. cbn [fst snd cxx cyy].
    split; [exact Q4 |]. split; [lia |]. split; [lia |].
    intros d Hd Hin.
    assert (Hy : 0 <= yy') by lia. assert (Hx : 0 <= xx') by lia.
    destruct (Z.eq_dec d yy') as [-> | N1].
    { eapply paints_keeps; [eapply paints_trans; [exact P2 |
        eapply paints_trans; [exact P3 | exact P4]] |].
      apply drawHorizLine_centre; [lia |].
      rewrite (inRect_same_fields img) by apply P. exact Hin. }
    destruct (Z.eq_dec d (- yy')) as [-> | N2].
    { eapply paints_keeps; [eapply paints_trans; [exact P3 | exact P4] |].
      replace (cy + - yy') with (cy - yy') in * by lia.
      apply drawHorizLine_centre; [lia |].
      rewrite (inRect_same_fields img) by apply Q1. exact Hin. }
    destruct (Z.eq_dec d xx') as [-> | N3].
    { eapply paints_keeps; [exact P4 |].
      apply drawHorizLine_centre; [lia |].
      rewrite (inRect_same_fields img) by apply Q2. exact Hin. }
    destruct (Z.eq_dec d (- xx')) as [-> | N4].
    { replace (cy + - xx') with (cy - xx') in * by lia.
      apply drawHorizLine_centre; [lia |].
      rewrite (inRect_same_fields img) by apply Q3. exact Hin. }
    eapply paints_keeps; [eapply paints_trans; [exact P1 |
      eapply paints_trans; [exact P2 |
      eapply paints_trans; [exact P3 | exact P4]]] |].
    apply Hs; [lia | exact Hin].
  - unfold drawCircle_init, spine_inv. cbn [fst snd cxx cyy].
    pose proof (drawCircle_init_paints img c cx cy r) as P0.
    pose proof (drawCircle_init_pixels img c cx cy r) as (I1 & I2 & I3).
    unfold drawCircle_init in P0, I1, I2, I3. cbn [snd] in P0, I1, I2, I3.
    split; [exact P0 |]. split; [lia |]. split; [lia |].
    intros d Hd Hin.
    destruct (Z.eq_dec d 0) as [-> | N0].
    { rewrite Z.add_0_r in *. apply I3; [lia | exact Hin]. }
    destruct (Z.eq_dec d r) as [-> | N1]; [apply I1; exact Hin |].
    assert (d = - r) as -> by lia.
    replace (cy + - r) with (cy - r) in * by lia. apply I2. exact Hin.
Qed.

(** X4: for a radius [r >= 0], [drawCircle] leaves no row between its two
    poles empty: in every row [cy - r .. cy + r] the pixel in the column of
    the centre has the colour (where it lies inside the canvas). *)
Theorem drawCircle_paints_every_row img color cx cy r g img' g' d :
  0 <= r -> drawCircle img color cx cy r g = Ok img' g' ->
  Z.abs d <= r -> inRect (nrgba img) cx (cy + d) = true ->
  pixel img' (cx, cy + d) = Some color.
Proof.
  intros Hr E Hd Hin. exact (drawCircle_spine _ _ _ _ _ _ _ _ Hr E d Hd Hin).
Qed.

(** ** The disc that [drawCircle] fills *)

(** One pass through the loop of [drawCircle], on the state spelled out. *)
Lemma drawCircle_step_eq c x y f dfx dfy xx yy img :
  drawCircle_step c x y (mkCircle f dfx dfy xx yy, img) =
  let yy' := if 0 <=? f then yy - 1 else yy in
  let dfy' := if 0 <=? f then dfy + 2 else dfy in
  let f1 := if 0 <=? f then f + (dfy + 2) else f in
  (mkCircle (f1 + (dfx + 2)) (dfx + 2) dfy' (xx + 1) yy',
   drawHorizLine
     (drawHorizLine
        (drawHorizLine
           (drawHorizLine img c (x - (xx + 1)) (x + (xx + 1)) (y + yy'))
           c (x - (xx + 1)) (x + (xx + 1)) (y - yy'))
        c (x - yy') (x + yy') (y + (xx + 1)))
     c (x - yy') (x + yy') (y - (xx + 1))).
Proof. unfold drawCircle_step. destruct (0 <=? f); reflexivity. Qed.

(** The arithmetic of the midpoint algorithm: [dfx] and [dfy] are the
    differences of the decision variable [f], which is the value of
    [x^2 + y^2 - r^2] at the midpoint [(xx + 1, yy - 1/2)] (less 1/4), and
    the point [(xx, yy)] stays in the ring
    [r^2 - r <= xx^2 + yy^2 <= r^2 + r]. *)
Definition circle_arith (r : Z) (s : circleState) : Prop :=
  cdfx s = 2 * cxx s + 1 /\ cdfy s = -2 * cyy s /\
  cf s = (cxx s + 1) * (cxx s + 1) + cyy s * cyy s - cyy s - r * r /\
  0 <= cxx s /\ 0 <= cyy s <= r /\
  r * r - r <= cxx s * cxx s + cyy s * cyy s <= r * r + r.

Lemma circle_arith_init img c x y r :
  0 <= r -> circle_arith r (fst (drawCircle_init img c x y r)).
Proof. intros Hr. unfold circle_arith, drawCircle_init. simpl. lia. Qed.

Lemma circle_arith_step c x y r st :
  circle_arith r (fst st) -> cxx (fst st) < cyy (fst st) ->
  let st' := drawCircle_step c x y st in
  circle_arith r (fst st') /\
  cxx (fst st') = cxx (fst st) + 1 /\
  (cyy (fst st') = cyy (fst st) \/
   cyy (fst st') = cyy (fst st) - 1 /\ 0 <= cf (fst st)).
Proof.
  destruct st as [[f dfx dfy xx yy] img]. cbn [fst cxx cyy cf cdfx cdfy].
  intros (Edfx & Edfy & Ef & Hx & Hy & Hq) Hlt.
  cbn [cxx cyy cf cdfx cdfy] in *. cbv zeta.
  rewrite drawCircle_step_eq. cbv zeta. unfold circle_arith.
  destruct (Z.leb_spec 0 f); cbn [fst cxx cyy cf cdfx cdfy]; subst dfx dfy.
  - repeat split; lia.
  - repeat split; lia.
Qed.

Definition sq (z : Z) : Z := z * z.

Lemma sq_le_abs a k : 0 <= k -> sq a <= sq k -> Z.abs a <= k.
Proof. unfold sq. intros Hk H. destruct (Z.abs_spec a); nia. Qed.

Lemma abs_le_sq a k : Z.abs a <= k -> sq a <= sq k.
Proof. unfold sq. intros H. destruct (Z.abs_spec a); nia. Qed.

Lemma abs_eq_sq a k : Z.abs a = k -> sq a = sq k.
Proof. unfold sq. intros H. destruct (Z.abs_spec a); nia. Qed.

Lemma abs_gt_sq a k : 0 <= k < Z.abs a -> sq (k + 1) <= sq a.
Proof. unfold sq. intros H. destruct (Z.abs_spec a); nia. Qed.

(** The pixels a span changes, and the pixels it paints. *)
Lemma drawHorizLine_changed img c cx k y0 px py :
  changed img (drawHorizLine img c (cx - k) (cx + k) y0) (px, py) ->
  py = y0 /\ Z.abs (px - cx) <= k.
Proof.
  unfold changed. rewrite drawHorizLine_pixel. cbn [fst snd].
  case_bool_decide as Hd; [lia |]. intros H. exfalso. apply H. reflexivity.
Qed.

Lemma drawHorizLine_painted img c cx k y0 px :
  Z.abs (px - cx) <= k -> inRect (nrgba img) px y0 = true ->
  pixel (drawHorizLine img c (cx - k) (cx + k) y0) (px, y0) = Some c.
Proof.
  intros Hk Hin. rewrite drawHorizLine_pixel. cbn [fst snd].
  rewrite bool_decide_eq_true_2 by lia. rewrite Hin. reflexivity.
Qed.

(** A pixel changed by one of two runs in a row. *)
Lemma changed_split i1 i2 i3 p :
  changed i1 i3 p -> changed i1 i2 p \/ changed i2 i3 p.
Proof.
  unfold changed. intros H.
  destruct (decide (pixel i2 p = pixel i1 p)) as [E | N]; [| auto].
  right. congruence.
Qed.

(** What the loop of [drawCircle] has done when it is at [(xx, yy)]: the
    changes lie in the disc [dx^2 + dy^2 <= r^2 + r]; of the disc
    [dx^2 + dy^2 <= r^2 - r], the rows at most [xx] and the rows more than
    [yy] away from the centre are painted; and so are the columns at most
    [xx] away from the centre in the two rows [yy] away from it. *)
Definition disc_inv (img : CaptchaImage) (c : NRGBAColor) (cx cy r : Z)
    (st : circleState * CaptchaImage) : Prop :=
  circle_arith r (fst st) /\
  paints c img (snd st) /\
  (forall px py, changed img (snd st) (px, py) ->
     sq (px - cx) + sq (py - cy) <= r * r + r) /\
  (forall px py,
     Z.abs (py - cy) <= cxx (fst st) \/ cyy (fst st) < Z.abs (py - cy) ->
     sq (px - cx) + sq (py - cy) <= r * r - r ->
     inRect (nrgba img) px py = true -> pixel (snd st) (px, py) = Some c) /\
  (forall px py,
     Z.abs (py - cy) = cyy (fst st) -> Z.abs (px - cx) <= cxx (fst st) ->
     inRect (nrgba img) px py = true -> pixel (snd st) (px, py) = Some c).

Lemma disc_inv_init img c cx cy r :
  0 <= r -> disc_inv img c cx cy r (drawCircle_init img c cx cy r).
Proof.
  intros Hr. split; [apply circle_arith_init; exact Hr |].
  pose proof (drawCircle_init_paints img c cx cy r) as P0.
  pose proof (drawCircle_init_pixels img c cx cy r) as (I1 & I2 & I3).
  split; [exact P0 |].
  unfold drawCircle_init in *. cbn [fst snd cxx cyy] in *.
  split; [| split].
  - intros px py H.
    apply changed_split with (i2 := Set_ (Set_ img cx (cy + r) c) cx (cy - r) c)
      in H as [H | H].
    + apply changed_split with (i2 := Set_ img cx (cy + r) c) in H as [H | H];
        unfold changed in H; rewrite Set_pixel in H;
        (case_bool_decide as Hd;
         [injection Hd as -> ->; unfold sq; nia
         | exfalso; apply H; rewrite andb_false_r; reflexivity]).
    + apply drawHorizLine_changed in H as [-> H].
      apply abs_le_sq in H. unfold sq in *. nia.
  - intros px py Hrow Hd Hin.
    destruct Hrow as [Hrow | Hrow].
    + assert (py = cy) as -> by lia.
      assert (Z.abs (px - cx) <= r)
        by (apply sq_le_abs; [exact Hr | unfold sq in *; nia]).
      apply I3; [lia | exact Hin].
    + pose proof (abs_gt_sq (py - cy) r ltac:(lia)) as Hs.
      pose proof (Z.square_nonneg (px - cx)) as Hp.
      exfalso. clear - Hs Hp Hd Hr. unfold sq in *. lia.
  - intros px py Hrow Hcol Hin. assert (px = cx) as -> by lia.
    destruct (Z.eq_dec py (cy + r)) as [-> | N]; [apply I1; exact Hin |].
    assert (py = cy - r) as -> by lia. apply I2. exact Hin.
Qed.

Lemma disc_inv_step img c cx cy r st :
  disc_inv img c cx cy r st -> cxx (fst st) < cyy (fst st) ->
  disc_inv img c cx cy r (drawCircle_step c cx cy st).
Proof.
  intros (Ha & P & Hout & Hin & Hrow) Hlt.
  destruct (circle_arith_step c cx cy r st Ha Hlt) as (Ha' & Ex & Ey).
  cbv zeta in Ha', Ex, Ey.
  destruct (drawCircle_step_spans c cx cy st)
    as (f' & dfx' & dfy' & xx' & yy' & _ & _ & Es).
  rewrite Es in Ha', Ex, Ey |- *. cbn [fst snd cxx cyy] in Ex, Ey.
  pose proof Ha as (_ & _ & Ef & Hx & Hy & Hq).
  pose proof Ha' as (_ & _ & _ & Hx' & Hy' & Hq').
  cbn [fst cxx cyy] in Hx', Hy', Hq'.
  set (i0 := snd st) in *.
  set (i1 := drawHorizLine i0 c (cx - xx') (cx + xx') (cy + yy')).
  set (i2 := drawHorizLine i1 c (cx - xx') (cx + xx') (cy - yy')).
  set (i3 := drawHorizLine i2 c (cx - yy') (cx + yy') (cy + xx')).
  set (i4 := drawHorizLine i3 c (cx - yy') (cx + yy') (cy - xx')).
  assert (P1 : paints c i0 i1) by apply drawHorizLine_paints.
  assert (P2 : paints c i1 i2) by apply drawHorizLine_paints.
  assert (P3 : paints c i2 i3) by apply drawHorizLine_paints.
  assert (P4 : paints c i3 i4) by apply drawHorizLine_paints.
  assert (Q1 : paints c img i1) by (eapply paints_trans; eauto).
  assert (Q2 : paints c img i2) by (eapply paints_trans; eauto).
  assert (Q3 : paints c img i3) by (eapply paints_trans; eauto).
  assert (Q4 : paints c img i4) by (eapply paints_trans; eauto).
  assert (K1 : forall p, pixel i1 p = Some c -> pixel i4 p = Some c).
  { intros p H. eapply paints_keeps; [exact P4 |].
    eapply paints_keeps; [exact P3 |].
    eapply paints_keeps; [exact P2 | exact H]. }
  assert (K0 : forall p, pixel i0 p = Some c -> pixel i4 p = Some c).
  { intros p H. apply K1. eapply paints_keeps; [exact P1 | exact H]. }
  assert (R0 : forall x y, inRect (nrgba i0) x y = inRect (nrgba img) x y)
    by (intros; apply inRect_same_fields, P).
  assert (R1 : forall x y, inRect (nrgba i1) x y = inRect (nrgba img) x y)
    by (intros; apply inRect_same_fields, Q1).
  assert (R2 : forall x y, inRect (nrgba i2) x y = inRect (nrgba img) x y)
    by (intros; apply inRect_same_fields, Q2).
  assert (R3 : forall x y, inRect (nrgba i3) x y = inRect (nrgba img) x y)
    by (intros; apply inRect_same_fields, Q3).
  split; [exact Ha' |]. split; [exact Q4 |]. cbn [fst snd cxx cyy].
  split; [| split].
  - (* the changes stay in the outer disc *)
    intros px py H.
    apply changed_split with (i2 := i0) in H as [H | H];
      [apply Hout; exact H |].
    assert (Hc : (Z.abs (py - cy) = yy' /\ Z.abs (px - cx) <= xx') \/
                 (Z.abs (py - cy) = xx' /\ Z.abs (px - cx) <= yy')).
    { apply changed_split with (i2 := i1) in H as [H | H];
        [apply drawHorizLine_changed in H; lia |].
      apply changed_split with (i2 := i2) in H as [H | H];
        [apply drawHorizLine_changed in H; lia |].
      apply changed_split with (i2 := i3) in H as [H | H];
        apply drawHorizLine_changed in H; lia. }
    destruct Hc as [[Hc1 Hc2] | [Hc1 Hc2]];
      apply abs_eq_sq in Hc1; apply abs_le_sq in Hc2; unfold sq in *; nia.
  - (* the rows reached so far are filled *)
    intros px py Hr Hd Hi. unfold sq in Hd.
    destruct (Z_le_gt_dec (Z.abs (py - cy)) (cxx (fst st))) as [Hold | Hnew].
    { apply K0, Hin; [left; exact Hold | exact Hd | exact Hi]. }
    destruct (Z_lt_le_dec (cyy (fst st)) (Z.abs (py - cy))) as [Hold | Hnew'].
    { apply K0, Hin; [right; exact Hold | exact Hd | exact Hi]. }
    destruct Hr as [Hr | Hr].
    + (* the row [xx'] away from the centre *)
      assert (Hrow' : Z.abs (py - cy) = xx') by lia.
      assert (Hcol : Z.abs (px - cx) <= yy').
      { apply abs_eq_sq in Hrow'. apply sq_le_abs; [lia |].
        unfold sq in *. nia. }
      destruct (Z.eq_dec py (cy + xx')) as [-> | N].
      * eapply paints_keeps; [exact P4 |].
        apply drawHorizLine_painted; [exact Hcol | rewrite R2; exact Hi].
      * assert (py = cy - xx') as -> by lia.
        apply drawHorizLine_painted; [exact Hcol | rewrite R3; exact Hi].
    + (* the row [yy] away from the centre, left behind by [yy--] *)
      destruct Ey as [Ey | [Ey Hf]]; [lia |].
      assert (Hrow' : Z.abs (py - cy) = cyy (fst st)) by lia.
      apply K0, Hrow; [exact Hrow' | | exact Hi].
      apply abs_eq_sq in Hrow'.
      destruct (Z_le_gt_dec (Z.abs (px - cx)) (cxx (fst st))) as [Hle | Hgt];
        [exact Hle |].
      pose proof (abs_gt_sq (px - cx) (cxx (fst st)) ltac:(lia)) as Hsq.
      exfalso. unfold sq in *. nia.
  - (* the two rows [yy'] away from the centre *)
    intros px py Hr Hcol Hi.
    destruct (Z.eq_dec py (cy + yy')) as [-> | N].
    + apply K1. apply drawHorizLine_painted; [exact Hcol | rewrite R0; exact Hi].
    + assert (py = cy - yy') as -> by lia.
      eapply paints_keeps; [exact P4 |]. eapply paints_keeps; [exact P3 |].
      apply drawHorizLine_painted; [exact Hcol | rewrite R1; exact Hi].
Qed.

Lemma drawCircle_disc img c cx cy r g img' g' :
  0 <= r -> drawCircle img c cx cy r g = Ok img' g' ->
  (forall px py, changed img img' (px, py) ->
     sq (px - cx) + sq (py - cy) <= r * r + r) /\
  (forall px py,
     sq (px - cx) + sq (py - cy) <= r * r - r ->
     inRect (nrgba img) px py = true -> pixel img' (px, py) = Some c).
Proof.
  intros Hr E. unfold drawCircle in E.
  destruct (drawCircle_fuel _ _ _ _ _ _) as [img1 |] eqn:Ef; [| discriminate].
  cbv [ret] in E. injection E as <- <-. unfold drawCircle_fuel in Ef.
  apply (drawCircle_loop_invariant (disc_inv img c cx cy r)) in Ef.
  - destruct Ef as (st' & (Ha & P & Hout & Hin & _) & <- & Hexit).
    split; [exact Hout |]. intros px py Hd Hi.
    apply Hin; [lia | exact Hd | exact Hi].
  - intros st. apply disc_inv_step.
  - apply disc_inv_init. exact Hr.
Qed.

(** X5: for a radius [r >= 0], every pixel [drawCircle] changes lies in
    the disc [dx^2 + dy^2 <= r^2 + r] around the centre (so within the
    distance [r + 1/2] of it, and in the square of half-side [r]). *)
Theorem drawCircle_stays_in_disc img color cx cy r g img' g' px py :
  0 <= r -> drawCircle img color cx cy r g = Ok img' g' ->
  pixel img' (px, py) <> pixel img (px, py) ->
  (px - cx) * (px - cx) + (py - cy) * (py - cy) <= r * r + r /\
  cx - r <= px <= cx + r /\ cy - r <= py <= cy + r.
Proof.
  intros Hr E H.
  destruct (drawCircle_disc _ _ _ _ _ _ _ _ Hr E) as [Hout _].
  specialize (Hout px py H). split; [exact Hout |].
  pose proof (Z.square_nonneg (px - cx)) as Hx.
  pose proof (Z.square_nonneg (py - cy)) as Hy.
  assert (Ha : Z.abs (px - cx) <= r).
  { destruct (Z_le_gt_dec (Z.abs (px - cx)) r) as [Hle | Hgt]; [exact Hle |].
    pose proof (abs_gt_sq (px - cx) r ltac:(lia)). unfold sq in *. lia. }
  assert (Hb : Z.abs (py - cy) <= r).
  { destruct (Z_le_gt_dec (Z.abs (py - cy)) r) as [Hle | Hgt]; [exact Hle |].
    pose proof (abs_gt_sq (py - cy) r ltac:(lia)). unfold sq in *. lia. }
  lia.
Qed.

(** X6: for a radius [r >= 0], [drawCircle] fills the disc
    [dx^2 + dy^2 <= r^2 - r] around the centre: every pixel of it that
    lies inside the canvas has the colour afterwards. *)
Theorem drawCircle_fills_disc img color cx cy r g img' g' px py :
  0 <= r -> drawCircle img color cx cy r g = Ok img' g' ->
  (px - cx) * (px - cx) + (py - cy) * (py - cy) <= r * r - r ->
  inRect (nrgba img) px py = true ->
  pixel img' (px, py) = Some color.
Proof.
  intros Hr E Hd Hi.
  destruct (drawCircle_disc _ _ _ _ _ _ _ _ Hr E) as [_ Hin].
  apply Hin; [exact Hd | exact Hi].
Qed.

(** ** Helpers of the renderer *)

(** X7: [min3] and [max3] return the smallest and the largest of their
    three arguments, so [min3] never exceeds [max3]. *)
Theorem min3_max3_correct x y z :
  min3 x y z = Z.min x (Z.min y z) /\ max3 x y z = Z.max x (Z.max y z) /\
  min3 x y z <= max3 x y z.
Proof.
  pose proof (min3_spec x y z). pose proof (max3_spec x y z). lia.
Qed.

(** X8: [rnd(from, to)] returns a number of [from .. to] after reading
    exactly one draw when the interval is not empty; from an empty
    interval it returns [from] and reads nothing (the bound it passes to
    [rand.Intn] is not positive then, and [rand.Intn] returns 0). *)
Theorem rnd_in_range from to g :
  (to < from -> rnd from to g = Ok from g) /\
  (from <= to ->
   exists v, rnd from to g = Ok v (mkRand (tape g) (S (pos g))) /\
             from <= v <= to).
Proof.
  split; [apply rnd_empty |]. intros H.
  destruct (rnd_succeeds from to H g) as (v & g' & E & Hv).
  pose proof (rnd_Ok_nonempty _ _ _ _ _ H E) as (_ & ->). eauto.
Qed.

(** X9: with the ceiling 255 that [fillWithCircles] passes, a colour whose
    channels are below 255 is always jittered (no panic, one draw read);
    the result has channels below 255 again, the same alpha and the same
    differences between its channels. *)
Theorem setRandomBrightness_keeps_below_white c g :
  below_white c ->
  exists c',
    setRandomBrightness c 255 g = Ok c' (mkRand (tape g) (S (pos g))) /\
    below_white c' /\ A c' = A c /\
    R c' - G c' = R c - G c /\ G c' - B c' = G c - B c.
Proof.
  intros (Hc & Hr & Hg & Hb).
  pose proof (max3_spec (R c) (G c) (B c)) as Hx.
  pose proof (min3_spec (R c) (G c) (B c)) as Hn.
  destruct (setRandomBrightness_below c 255 g Hc) as (n & E & Hb');
    [unfold is_uint8; lia | lia |].
  exists (shifted c n). split; [exact E |].
  unfold below_white, color_ok, is_uint8, shifted in *. simpl. lia.
Qed.

(** The loop of [fillWithCircles] reads four draws for every circle. *)
Lemma fillWithCircles_loop_draws k : forall maxradius color img g,
  below_white color -> 1 <= maxradius ->
  2 * maxradius <= MaxX (nrgba img) -> 2 * maxradius <= MaxY (nrgba img) ->
  exists img',
    fillWithCircles_loop k maxradius (MaxX (nrgba img)) (MaxY (nrgba img))
      color img g
    = Ok img' (mkRand (tape g) (pos g + 4 * k)) /\
    same_fields img img'.
Proof.
  induction k as [| k IH]; intros maxradius color img g Hc Hm Hx Hy;
    cbn [fillWithCircles_loop].
  - exists img. split; [| apply same_fields_refl].
    cbv [ret]. destruct g as [t p]. simpl. do 2 f_equal. lia.
  - destruct (setRandomBrightness_succeeds color Hc g) as (c' & g1 & E1 & Hc').
    assert (Eg1 : g1 = mkRand (tape g) (S (pos g))).
    { destruct Hc as (Hok & Hr & Hg & Hb).
      pose proof (max3_spec (R color) (G color) (B color)).
      destruct (setRandomBrightness_below color 255 g Hok) as (n & E & _);
        [unfold is_uint8; lia | lia |]. congruence. }
    unfold bind at 1. rewrite E1.
    destruct (rnd_succeeds 1 maxradius Hm g1) as (r & g2 & E2 & Hr).
    pose proof (rnd_Ok_nonempty _ _ _ _ _ Hm E2) as (_ & Eg2).
    unfold bind at 1. rewrite E2.
    assert (Hrx : r <= MaxX (nrgba img) - r) by lia.
    assert (Hry : r <= MaxY (nrgba img) - r) by lia.
    destruct (rnd_succeeds r (MaxX (nrgba img) - r) Hrx g2)
      as (cx & g3 & E3 & _).
    pose proof (rnd_Ok_nonempty _ _ _ _ _ Hrx E3) as (_ & Eg3).
    unfold bind at 1. rewrite E3.
    destruct (rnd_succeeds r (MaxY (nrgba img) - r) Hry g3)
      as (cy & g4 & E4 & _).
    pose proof (rnd_Ok_nonempty _ _ _ _ _ Hry E4) as (_ & Eg4).
    unfold bind at 1. rewrite E4.
    destruct (drawCircle_Ok img c' cx cy r g4) as (img1 & E5 & [F _]).
    unfold bind at 1. rewrite E5.
    pose proof F as (_ & _ & _ & _ & Ex & Ey).
    destruct (IH maxradius c' img1 g4 Hc' Hm ltac:(lia) ltac:(lia))
      as (img' & E6 & F6).
    rewrite Ex, Ey in E6. rewrite E6.
    exists img'. split; [| eapply same_fields_trans; eauto].
    subst g4 g3 g2 g1. simpl. do 2 f_equal. lia.
Qed.

(** X10: on a canvas with room for the largest circle, [fillWithCircles]
    returns on every state of the random source, having read exactly four
    draws for each of its [n] circles and changed nothing but pixels. *)
Theorem fillWithCircles_returns img n maxradius g :
  below_white (primaryColor img) -> 1 <= maxradius ->
  2 * maxradius <= MaxX (nrgba img) -> 2 * maxradius <= MaxY (nrgba img) ->
  exists img',
    fillWithCircles img n maxradius g
    = Ok img' (mkRand (tape g) (pos g + 4 * Z.to_nat n)) /\
    same_fields img img'.
Proof. intros. unfold fillWithCircles. apply fillWithCircles_loop_draws; auto. Qed.

(** ** Termination *)

(** A computation whose loops never exhaust the passes the model allows
    them: it returns or it panics. *)
Definition terminates {T} (m : M T) : Prop := forall g, m g <> OutOfFuel.

Lemma terminates_ret {T} (v : T) : terminates (ret v).
Proof. intros g. discriminate. Qed.

Lemma terminates_panic {T} : terminates (@panic T).
Proof. intros g. discriminate. Qed.

Lemma terminates_bind {T U} (m : M T) (k : T -> M U) (P : T -> Prop) :
  terminates m -> post m P -> (forall v, P v -> terminates (k v)) ->
  terminates (bind m k).
Proof.
  intros Hm Hp Hk g. unfold bind.
  destruct (m g) as [v g1 | |] eqn:E; [| discriminate | exfalso; exact (Hm g E)].
  apply Hk. eapply Hp. exact E.
Qed.

Lemma terminates_bind' {T U} (m : M T) (k : T -> M U) :
  terminates m -> (forall v, terminates (k v)) -> terminates (bind m k).
Proof.
  intros Hm Hk. apply terminates_bind with (P := fun _ => True); auto.
  intros g v g' _. exact I.
Qed.

Lemma terminates_Intn n : terminates (Intn n).
Proof.
  intros g. unfold Intn. destruct (n <=? 0); [discriminate |].
  cbv [bind draw ret]. discriminate.
Qed.

Lemma terminates_rnd from to : terminates (rnd from to).
Proof.
  unfold rnd. apply terminates_bind'; [apply terminates_Intn |].
  intros v. apply terminates_ret.
Qed.

Lemma terminates_Float64 : terminates Float64.
Proof. intros g. cbv [Float64 bind draw ret]. discriminate. Qed.

Lemma terminates_drawCircle img c x y r : terminates (drawCircle img c x y r).
Proof.
  intros g. destruct (drawCircle_Ok img c x y r g) as (img' & -> & _).
  discriminate.
Qed.

Lemma terminates_setRandomBrightness c max :
  terminates (setRandomBrightness c max).
Proof.
  unfold setRandomBrightness. destruct (_ <? _); [apply terminates_ret |].
  apply terminates_bind'; [apply terminates_Intn | intros; apply terminates_ret].
Qed.

Create HintDb terminates.
#[local] Hint Resolve terminates_ret terminates_panic terminates_Intn
  terminates_rnd terminates_Float64 terminates_drawCircle
  terminates_setRandomBrightness : terminates.

Ltac terminates_step :=
  first
    [ solve [auto with terminates]
    | match goal with
      | |- terminates (bind _ _) => apply terminates_bind'; [| intros ]
      | |- terminates (if ?b then _ else _) => destruct b
      | |- terminates (match ?o with Some _ => _ | None => _ end) =>
          destruct o
      | |- terminates (let '(_, _) := ?p in _) => destruct p
      end ].
Ltac terminates_auto := repeat terminates_step.

Lemma terminates_fillWithCircles img n maxradius :
  terminates (fillWithCircles img n maxradius).
Proof.
  unfold fillWithCircles. generalize (primaryColor img) as color.
  generalize img at 3 as img0.
  induction (Z.to_nat n) as [| k IH]; intros; cbn [fillWithCircles_loop];
    terminates_auto.
Qed.

(** Every pass of the loop of [strikeThrough] advances [x] by at least
    one, so [maxx - x] passes are never exceeded. *)
Lemma terminates_strikeThrough_loop fuel : forall maxx maxy x y img,
  maxx - x <= Z.of_nat fuel ->
  terminates (strikeThrough_loop fuel maxx maxy x y img).
Proof.
  induction fuel as [| fuel IH]; intros maxx maxy x y img Hf;
    cbn [strikeThrough_loop]; destruct (Z.ltb_spec x maxx);
    try apply terminates_ret; [lia |].
  eapply terminates_bind; [| apply strikeThrough_body_post |].
  - unfold strikeThrough_body. terminates_auto.
  - intros [[r y1] img1] [Hr _]. apply IH. lia.
Qed.

Lemma terminates_strikeThrough img : terminates (strikeThrough img).
Proof.
  unfold strikeThrough. apply terminates_bind'; [apply terminates_rnd |].
  intros y. apply terminates_strikeThrough_loop. lia.
Qed.

#[local] Hint Resolve terminates_fillWithCircles terminates_strikeThrough
  : terminates.

Section FontTermination.

Variables fontWidth fontHeight blackChar : Z.
Variable font : list (list Z).

Lemma terminates_drawNumber_cols k : forall number x y yy xx minr maxr img,
  terminates (drawNumber_cols fontWidth blackChar k number x y yy xx
                minr maxr img).
Proof.
  induction k as [| k IH]; intros; cbn [drawNumber_cols]; terminates_auto.
Qed.

Lemma terminates_drawNumber_rows k : forall number skf xs x y yy minr maxr img,
  terminates (drawNumber_rows fontWidth blackChar k number skf xs x y yy
                minr maxr img).
Proof.
  induction k as [| k IH]; intros; cbn [drawNumber_rows]; terminates_auto.
  apply terminates_drawNumber_cols.
Qed.

Lemma terminates_drawNumber img number x y :
  terminates (drawNumber fontWidth fontHeight blackChar img number x y).
Proof.
  unfold drawNumber. terminates_auto. cbv zeta.
  apply terminates_drawNumber_rows.
Qed.

Lemma terminates_drawNumbers numbers : forall x y img,
  terminates (drawNumbers fontWidth fontHeight blackChar font numbers x y img).
Proof.
  induction numbers as [| n rest IH]; intros; cbn [drawNumbers];
    terminates_auto.
  apply terminates_drawNumber.
Qed.

Lemma terminates_NewImage_background numbers width height :
  terminates (NewImage_background fontWidth fontHeight numbers width height).
Proof. unfold NewImage_background. terminates_auto. Qed.

Lemma terminates_NewImage_anchor img numbers width height :
  terminates (NewImage_anchor img numbers width height).
Proof. unfold NewImage_anchor. terminates_auto. Qed.

Lemma terminates_NewImage numbers width height :
  terminates (NewImage fontWidth fontHeight blackChar font
                numbers width height).
Proof.
  unfold NewImage.
  apply terminates_bind'; [apply terminates_NewImage_background | intros img].
  apply terminates_bind'; [apply terminates_NewImage_anchor | intros [x y]].
  apply terminates_bind'; [apply terminates_drawNumbers | intros img1].
  apply terminates_strikeThrough.
Qed.

(** X11: every loop of [NewImage] terminates, whatever the digits, the
    sizes and the random source: no run exhausts the passes the model
    allows the loops of [drawCircle] and [strikeThrough] (the radius and
    the width of the canvas), so a run returns an image or panics. *)
Theorem NewImage_terminates numbers width height g :
  (exists img g',
     NewImage fontWidth fontHeight blackChar font numbers width height g
     = Ok img g') \/
  NewImage fontWidth fontHeight blackChar font numbers width height g
  = Panic.
Proof.
  pose proof (terminates_NewImage numbers width height g) as H.
  destruct (NewImage _ _ _ _ _ _ _ g) as [img g' | |]; [eauto | auto |].
  exfalso. apply H. reflexivity.
Qed.

End FontTermination.

(** X12: [strikeThrough] returns on every image and on every state of the
    random source, whatever [dotSize] is, with pixels painted in the
    primary colour and nothing else changed: every pass advances [x] by a
    step [r >= 1].  With [dotSize < 4] the interval [1 .. dotSize/2 - 1]
    of the step is empty, and every step is exactly 1. *)
Theorem strikeThrough_always_returns img g :
  (exists img' g',
     strikeThrough img g = Ok img' g' /\
     paints (primaryColor img) img img') /\
  (dotSize img < 4 ->
   forall maxy x y g0 r y' img1 g1,
     strikeThrough_body maxy x y img g0 = Ok (r, y', img1) g1 -> r = 1).
Proof.
  split; [apply strikeThrough_total |].
  intros Hd maxy x y g0 r y' img1 g1 E. unfold strikeThrough_body in E.
  apply bind_Ok in E as (r0 & g2 & Er & E).
  apply bind_Ok in E as (dy & g3 & _ & E).
  apply bind_Ok in E as (y2 & g4 & _ & E).
  apply bind_Ok in E as (img2 & g5 & _ & E).
  cbv [ret] in E. injection E as <- _ _ _.
  apply rnd_Ok in Er as [(_ & -> & _) | (Hne & _)]; [reflexivity |].
  exfalso. zlia.
Qed.

(** ** The strike-through line *)

(** The horizontal diameter of a circle is painted. *)
Lemma drawCircle_diameter img c cx cy r g img' g' px :
  drawCircle img c cx cy r g = Ok img' g' ->
  cx - r <= px <= cx + r -> inRect (nrgba img) px cy = true ->
  pixel img' (px, cy) = Some c.
Proof.
  intros E Hpx Hin. unfold drawCircle in E.
  destruct (drawCircle_fuel _ _ _ _ _ _) as [img1 |] eqn:Ef; [| discriminate].
  cbv [ret] in E. injection E as <- <-. unfold drawCircle_fuel in Ef.
  apply drawCircle_loop_paints in Ef.
  eapply paints_keeps; [exact Ef |].
  apply (drawCircle_init_pixels img c cx cy r); assumption.
Qed.

(** One pass of the loop of [strikeThrough]: a step [r >= 1], a height
    strictly inside a canvas of three rows or more, and one circle of
    radius [r] around [(x, y')]. *)
Lemma strikeThrough_body_circle maxy x y img g r y' img' g' :
  strikeThrough_body maxy x y img g = Ok (r, y', img') g' ->
  1 <= r /\ (3 <= maxy -> 0 < y' < maxy) /\
  drawCircle img (primaryColor img) x y' r g' = Ok img' g'.
Proof.
  intros E. unfold strikeThrough_body in E.
  apply bind_Ok in E as (r0 & g1 & Er & E).
  apply bind_Ok in E as (dy & g2 & _ & E).
  apply bind_Ok in E as (y2 & g3 & Ey & E).
  apply bind_Ok in E as (img2 & g4 & Ec & E).
  cbv [ret] in E. injection E as <- <- <- <-.
  apply rnd_bounds in Er as (Hr & _).
  pose proof (drawCircle_inv _ _ _ _ _ _ _ _ Ec) as [-> _].
  split; [lia |]. split; [| exact Ec].
  intros Hm.
  assert (Hthird : Z.quot maxy 3 <= maxy - Z.quot maxy 3) by zlia.
  destruct (Z.leb_spec (y + dy) 0) as [H0 | H0]; cbn [orb] in Ey.
  - apply (rnd_Ok_nonempty _ _ _ _ _ Hthird) in Ey as (Hy & _). zlia.
  - destruct (Z.leb_spec maxy (y + dy)) as [H1 | H1].
    + apply (rnd_Ok_nonempty _ _ _ _ _ Hthird) in Ey as (Hy & _). zlia.
    + cbv [ret] in Ey. injection Ey as <- _. lia.
Qed.

(** From [x] on, the loop leaves a painted pixel in every column. *)
Lemma strikeThrough_loop_columns fuel : forall maxx maxy x y img g img' g',
  0 <= x -> 3 <= maxy ->
  maxx = MaxX (nrgba img) -> maxy = MaxY (nrgba img) ->
  strikeThrough_loop fuel maxx maxy x y img g = Ok img' g' ->
  forall px, x <= px < maxx ->
    exists py, 0 < py < maxy /\ pixel img' (px, py) = Some (primaryColor img).
Proof.
  induction fuel as [| fuel IH];
    intros maxx maxy x y img g img' g' Hx Hm Ex Ey E px Hpx;
    cbn [strikeThrough_loop] in E;
    destruct (Z.ltb_spec x maxx) as [Hlt | Hge]; try discriminate E; try lia.
  apply bind_Ok in E as ([[r y1] img1] & g1 & E1 & E).
  apply strikeThrough_body_circle in E1 as (Hr & Hy & Ec).
  specialize (Hy Hm).
  pose proof (drawCircle_inv _ _ _ _ _ _ _ _ Ec) as [_ P1].
  pose proof P1 as [(Ec1 & _ & _ & _ & Ex1 & Ey1) _].
  pose proof (strikeThrough_loop_paints _ _ _ _ _ _ _ _ _ E) as P2.
  rewrite Ec1 in P2.
  destruct (Z_lt_le_dec px (x + r)) as [Hnear | Hfar].
  - exists y1. split; [exact Hy |].
    eapply paints_keeps; [exact P2 |].
    eapply drawCircle_diameter; [exact Ec | lia |].
    apply inRect_true. lia.
  - rewrite <- Ec1.
    eapply (IH maxx maxy (x + r) y1 img1); [lia | exact Hm | | | exact E | lia];
      congruence.
Qed.

Lemma strikeThrough_columns img g img' g' px :
  3 <= MaxY (nrgba img) ->
  strikeThrough img g = Ok img' g' ->
  0 <= px < MaxX (nrgba img) ->
  exists py, 0 < py < MaxY (nrgba img) /\
             pixel img' (px, py) = Some (primaryColor img).
Proof.
  intros Hm E Hpx. unfold strikeThrough in E.
  apply bind_Ok in E as (y & g1 & _ & E).
  eapply strikeThrough_loop_columns; [| exact Hm | | | exact E | exact Hpx];
    [lia | reflexivity | reflexivity].
Qed.

(** X13: on a canvas of three rows or more, the line [strikeThrough]
    draws crosses the whole width: in every column of the canvas, the
    image it returns has a pixel in the primary colour, at a height
    strictly inside the canvas. *)
Theorem strikeThrough_crosses_every_column img g img' g' px :
  3 <= MaxY (nrgba img) ->
  strikeThrough img g = Ok img' g' ->
  0 <= px < MaxX (nrgba img) ->
  exists py, 0 < py < MaxY (nrgba img) /\
             pixel img' (px, py) = Some (primaryColor img).
Proof. apply strikeThrough_columns. Qed.

(** ** The digit renderer and the glyph table *)

Section FontGlyphs.

Variables fontWidth fontHeight blackChar : Z.
Variable font : list (list Z).

(** A row without a black cell draws nothing and reads no draw. *)
Lemma drawNumber_cols_blank k : forall number x y yy xx minr maxr img g,
  0 <= yy * fontWidth + xx ->
  yy * fontWidth + xx + Z.of_nat k <= len number ->
  Forall (fun b => b <> blackChar) number ->
  drawNumber_cols fontWidth blackChar k number x y yy xx minr maxr img g
  = Ok img g.
Proof.
  induction k as [| k IH]; intros number x y yy xx minr maxr img g H0 Hl Hb;
    cbn [drawNumber_cols]; [reflexivity |].
  unfold len in Hl.
  destruct (lookup_lt_is_Some_2 number (Z.to_nat (yy * fontWidth + xx)))
    as [b Eb]; [lia |].
  rewrite Eb. rewrite Forall_lookup in Hb. pose proof (Hb _ _ Eb) as Hne.
  destruct (decide (b = blackChar)) as [-> | _]; [contradiction |].
  unfold bind, ret. apply IH; [lia | unfold len; lia |].
  rewrite Forall_lookup. exact Hb.
Qed.

Lemma drawNumber_rows_blank k : forall number skf xs x y yy minr maxr img g,
  0 <= fontWidth -> 0 <= yy ->
  (yy + Z.of_nat k) * fontWidth <= len number ->
  Forall (fun b => b <> blackChar) number ->
  drawNumber_rows fontWidth blackChar k number skf xs x y yy minr maxr img g
  = Ok img g.
Proof.
  induction k as [| k IH];
    intros number skf xs x y yy minr maxr img g Hw Hy Hl Hb;
    cbn [drawNumber_rows]; [reflexivity |].
  unfold bind. rewrite drawNumber_cols_blank; [| nia | nia | exact Hb].
  apply IH; [exact Hw | lia | | exact Hb].
  replace (yy + 1 + Z.of_nat k) with (yy + Z.of_nat (S k)) by lia. exact Hl.
Qed.

(** X14: a glyph without a black cell (and with a cell for every position
    of the [fontWidth] x [fontHeight] grid) leaves the image as it was:
    [drawNumber] reads its three draws (the skew factor, the sign of the
    skew and the vertical jitter) and draws no dot. *)
Theorem drawNumber_blank_glyph img number x y g :
  0 <= fontWidth -> 0 <= fontHeight -> 0 <= dotSize img ->
  fontWidth * fontHeight <= len number ->
  Forall (fun b => b <> blackChar) number ->
  drawNumber fontWidth fontHeight blackChar img number x y g
  = Ok img (mkRand (tape g) (pos g + 3)).
Proof.
  intros Hw Hh Hd Hl Hb. unfold drawNumber.
  destruct (Float64_succeeds g) as (u & g1 & E1 & _).
  assert (Eg1 : g1 = mkRand (tape g) (S (pos g)))
    by (cbv [Float64 bind draw ret] in E1; congruence).
  unfold bind at 1. rewrite E1.
  assert (Hskew : - maxSkew <= maxSkew) by (unfold maxSkew; lia).
  assert (Hjit : - Z.quot (dotSize img) 2 <= Z.quot (dotSize img) 2) by zlia.
  destruct (rnd_succeeds (- maxSkew) maxSkew Hskew g1) as (k & g2 & E2 & _).
  pose proof (rnd_Ok_nonempty _ _ _ _ _ Hskew E2) as (_ & Eg2).
  unfold bind at 1. rewrite E2.
  destruct (rnd_succeeds (- Z.quot (dotSize img) 2) (Z.quot (dotSize img) 2)
              Hjit g2) as (dy & g3 & E3 & _).
  pose proof (rnd_Ok_nonempty _ _ _ _ _ Hjit E3) as (_ & Eg3).
  unfold bind at 1. rewrite E3. cbv zeta.
  rewrite drawNumber_rows_blank; [| exact Hw | lia | | exact Hb].
  - subst g3 g2 g1. simpl. do 2 f_equal. lia.
  - rewrite Z2Nat.id by lia. lia.
Qed.

(** A row that was drawn had a cell for each of its columns. *)
Lemma drawNumber_cols_indexed k : forall number x y yy xx minr maxr img g img' g',
  0 <= yy * fontWidth + xx ->
  drawNumber_cols fontWidth blackChar (S k) number x y yy xx minr maxr img g
  = Ok img' g' ->
  yy * fontWidth + xx + Z.of_nat k < len number.
Proof.
  induction k as [| k IH];
    intros number x y yy xx minr maxr img g img' g' H0 E;
    cbn [drawNumber_cols] in E;
    destruct (number !! Z.to_nat (yy * fontWidth + xx)) as [b |] eqn:Eb;
    try discriminate E;
    apply lookup_lt_Some in Eb; unfold len.
  - lia.
  - apply bind_Ok in E as (img1 & g1 & _ & E).
    apply IH in E; [unfold len in E; lia | lia].
Qed.

Lemma drawNumber_rows_indexed k : forall number skf xs x y yy minr maxr img g img' g',
  0 < fontWidth -> 0 <= yy ->
  drawNumber_rows fontWidth blackChar (S k) number skf xs x y yy minr maxr
    img g = Ok img' g' ->
  (yy + Z.of_nat k + 1) * fontWidth <= len number.
Proof.
  induction k as [| k IH];
    intros number skf xs x y yy minr maxr img g img' g' Hw Hy E;
    cbn [drawNumber_rows] in E;
    apply bind_Ok in E as (img1 & g1 & E1 & E).
  - destruct (Z.to_nat fontWidth) as [| w] eqn:Ew; [lia |].
    apply drawNumber_cols_indexed in E1; [| nia]. nia.
  - apply IH in E; [nia | exact Hw | lia].
Qed.

(** X15: a glyph with fewer than [fontWidth * fontHeight] cells makes
    [drawNumber] panic on every state of the random source (the index
    [yy*fontWidth+xx] runs out of the slice), whatever it drew before. *)
Theorem drawNumber_short_glyph_panics img number x y g :
  0 < fontWidth -> 0 < fontHeight ->
  len number < fontWidth * fontHeight ->
  drawNumber fontWidth fontHeight blackChar img number x y g = Panic.
Proof.
  intros Hw Hh Hl.
  pose proof (terminates_drawNumber fontWidth fontHeight blackChar
                img number x y g) as Ht.
  destruct (drawNumber _ _ _ img number x y g) as [img' g' | |] eqn:E;
    [| reflexivity | contradiction].
  exfalso. unfold drawNumber in E.
  apply bind_Ok in E as (u & g1 & _ & E).
  apply bind_Ok in E as (k & g2 & _ & E).
  apply bind_Ok in E as (dy & g3 & _ & E). cbv zeta in E.
  destruct (Z.to_nat fontHeight) as [| h] eqn:Eh; [lia |].
  apply drawNumber_rows_indexed in E; [| exact Hw | lia]. nia.
Qed.

(** The digits that were drawn had a glyph in the table. *)
Lemma drawNumbers_indexed numbers : forall x y img g img' g',
  drawNumbers fontWidth fontHeight blackChar font numbers x y img g
  = Ok img' g' ->
  Forall (fun n => n < len font) numbers.
Proof.
  induction numbers as [| n rest IH]; intros x y img g img' g' E;
    cbn [drawNumbers] in E; [constructor |].
  destruct (font !! Z.to_nat n) as [glyph |] eqn:Eg; [| discriminate E].
  apply lookup_lt_Some in Eg.
  apply bind_Ok in E as (img1 & g1 & _ & E). apply IH in E.
  constructor; [unfold len; lia | exact E].
Qed.

(** A digit without a glyph ends the run in a panic. *)
Lemma NewImage_no_glyph_panics numbers width height g :
  Exists (fun n => len font <= n) numbers ->
  NewImage fontWidth fontHeight blackChar font numbers width height g
  = Panic.
Proof.
  intros Hn.
  pose proof (terminates_NewImage fontWidth fontHeight blackChar font
                numbers width height g) as Ht.
  destruct (NewImage _ _ _ _ numbers width height g) as [img' g' | |] eqn:E;
    [| reflexivity | contradiction].
  exfalso. unfold NewImage in E.
  apply bind_Ok in E as (img1 & g1 & _ & E).
  apply bind_Ok in E as ([x y] & g2 & _ & E).
  apply bind_Ok in E as (img2 & g3 & E & _).
  apply drawNumbers_indexed in E.
  rewrite Exists_exists in Hn. destruct Hn as (n & Hin & Hn).
  rewrite Forall_forall in E. specialize (E n Hin). lia.
Qed.

(** X16: a digit that has no glyph in the table (one of 10 and more, for a
    table of ten glyphs) makes [NewImage] panic on every state of the
    random source, whatever the sizes are. *)
Theorem NewImage_panics_on_digit_without_glyph numbers width height g :
  Exists (fun n => len font <= n) numbers ->
  NewImage fontWidth fontHeight blackChar font numbers width height g
  = Panic.
Proof. apply NewImage_no_glyph_panics. Qed.

End FontGlyphs.

(** ** The band of rows a digit is drawn in *)

(** All changes lie in the rows [lo .. hi]. *)
Definition rows_in (lo hi : Z) (img img' : CaptchaImage) : Prop :=
  forall px py, changed img img' (px, py) -> lo <= py <= hi.

Lemma rows_in_refl lo hi img : rows_in lo hi img img.
Proof. intros px py H. exfalso. apply H. reflexivity. Qed.

Lemma rows_in_trans lo hi i1 i2 i3 :
  rows_in lo hi i1 i2 -> rows_in lo hi i2 i3 -> rows_in lo hi i1 i3.
Proof.
  intros H1 H2 px py H.
  apply changed_split with (i2 := i2) in H as [H | H]; eauto.
Qed.

Section FontBand.

Variables fontWidth fontHeight blackChar : Z.
Variable font : list (list Z).

Lemma drawNumber_cols_rows_in ds k : forall number x y yy xx minr maxr img,
  dotSize img = ds -> 0 <= minr <= maxr ->
  post (drawNumber_cols fontWidth blackChar k number x y yy xx minr maxr img)
       (rows_in (y + yy * ds - maxr)
                (y + yy * ds + maxr + Z.quot maxr 2) img).
Proof.
  induction k as [| k IH];
    intros number x y yy xx minr maxr img Ed Hr g img' g' E;
    cbn [drawNumber_cols] in E.
  - inv_run. apply rows_in_refl.
  - destruct (number !! _) as [b |]; [| discriminate E].
    apply bind_Ok in E as (img1 & g1 & E1 & E).
    assert (H1 : rows_in (y + yy * ds - maxr)
                   (y + yy * ds + maxr + Z.quot maxr 2) img img1 /\
                 dotSize img1 = ds).
    { destruct (decide (b = blackChar)).
      - apply bind_Ok in E1 as (or & g2 & Eo & E1).
        apply bind_Ok in E1 as (jx & g3 & _ & E1).
        apply bind_Ok in E1 as (jy & g4 & Ej & E1).
        apply (rnd_Ok_nonempty _ _ _ _ _ (proj2 Hr)) in Eo as (Ho & _).
        assert (Hor : 0 <= or) by lia.
        assert (Hhalf : 0 <= Z.quot or 2) by zlia.
        apply (rnd_Ok_nonempty _ _ _ _ _ Hhalf) in Ej as (Hj & _).
        pose proof (drawCircle_inv _ _ _ _ _ _ _ _ E1) as [_ [F _]].
        split; [| destruct F as (_ & _ & _ & -> & _); exact Ed].
        intros px py H.
        destruct (drawCircle_within_box _ _ _ _ _ _ _ _ Hor E1 px py H)
          as [_ Hy].
        rewrite Ed in Hy. zlia.
      - cbv [ret] in E1. injection E1 as <- <-.
        split; [apply rows_in_refl | exact Ed]. }
    destruct H1 as [H1 Ed1].
    eapply rows_in_trans; [exact H1 |]. eapply IH; eauto.
Qed.

Lemma drawNumber_rows_rows_in ds k : forall number skf xs x y yy minr maxr img,
  dotSize img = ds -> 0 <= ds -> 0 <= minr <= maxr -> 0 <= yy ->
  k = O \/ yy + Z.of_nat k <= fontHeight ->
  post (drawNumber_rows fontWidth blackChar k number skf xs x y yy
          minr maxr img)
       (rows_in (y - maxr)
                (y + (fontHeight - 1) * ds + maxr + Z.quot maxr 2) img).
Proof.
  induction k as [| k IH];
    intros number skf xs x y yy minr maxr img Ed Hd Hr Hy Hk g img' g' E;
    cbn [drawNumber_rows] in E.
  - inv_run. apply rows_in_refl.
  - destruct Hk as [Hk | Hk]; [discriminate Hk |].
    apply bind_Ok in E as (img1 & g1 & E1 & E).
    pose proof (drawNumber_cols_paints _ _ _ _ _ _ _ _ _ _ _ _ _ _ E1)
      as [(_ & _ & _ & Ed1 & _) _].
    apply (drawNumber_cols_rows_in ds) in E1; [| exact Ed | exact Hr].
    eapply rows_in_trans.
    + intros px py H. specialize (E1 px py H). nia.
    + eapply IH; [| exact Hd | exact Hr | | | exact E];
        [congruence | lia | right; lia].
Qed.

(** The band of rows of a digit, and of a row of digits drawn at the same
    height. *)
Definition band_top (ds y : Z) : Z :=
  y - Z.quot ds 2 - (Z.quot ds 2 + Z.quot ds 4).
Definition band_bottom (ds y : Z) : Z :=
  y + Z.quot ds 2 + (fontHeight - 1) * ds
  + (Z.quot ds 2 + Z.quot ds 4) + Z.quot (Z.quot ds 2 + Z.quot ds 4) 2.

Lemma drawNumber_band img number x y :
  0 <= dotSize img ->
  post (drawNumber fontWidth fontHeight blackChar img number x y)
       (rows_in (band_top (dotSize img) y) (band_bottom (dotSize img) y) img).
Proof.
  intros Hd g img' g' E px py H. unfold band_top, band_bottom.
  unfold drawNumber in E.
  apply bind_Ok in E as (u & g1 & _ & E).
  apply bind_Ok in E as (k & g2 & _ & E).
  apply bind_Ok in E as (dy & g3 & Ey & E). cbv zeta in E.
  assert (Hjit : - Z.quot (dotSize img) 2 <= Z.quot (dotSize img) 2) by zlia.
  apply (rnd_Ok_nonempty _ _ _ _ _ Hjit) in Ey as (Hy & _).
  apply (drawNumber_rows_rows_in (dotSize img)) in E;
    [| reflexivity | exact Hd | zlia | lia |].
  - specialize (E px py H). lia.
  - destruct (Z.to_nat fontHeight) eqn:Ek; [left; reflexivity | right; lia].
Qed.


(** X17: a digit stays in its band of rows. With [dotSize >= 0], every
    pixel [drawNumber] changes lies between the row
    [y - minr - maxr] and the row
    [y + minr + (fontHeight - 1) * dotSize + maxr + maxr / 2],
    where [minr = dotSize / 2] and [maxr = dotSize / 2 + dotSize / 4] are
    the smallest and the largest radius of a dot. *)
Theorem drawNumber_stays_in_band img number x y g img' g' px py :
  0 <= dotSize img ->
  drawNumber fontWidth fontHeight blackChar img number x y g = Ok img' g' ->
  pixel img' (px, py) <> pixel img (px, py) ->
  let minr := Z.quot (dotSize img) 2 in
  let maxr := Z.quot (dotSize img) 2 + Z.quot (dotSize img) 4 in
  y - minr - maxr <= py
  <= y + minr + (fontHeight - 1) * dotSize img + maxr + Z.quot maxr 2.
Proof.
  intros Hd E H. cbv zeta.
  exact (drawNumber_band img number x y Hd g img' g' E px py H).
Qed.



End FontBand.

(** ** The image assembler *)

Section FontAssembler.

Variables fontWidth fontHeight blackChar : Z.
Variable font : list (list Z).


End FontAssembler.

(** ** The pixels of the finished image *)

(** A colour with the hue of [p]: below the ceiling 255, with the alpha of
    [p] and the differences between the channels that [p] has. *)
Definition hue_of (p c : NRGBAColor) : Prop :=
  below_white c /\ A c = A p /\
  R c - G c = R p - G p /\ G c - B c = G p - B p.

(** Every stored pixel lies inside the canvas and has a colour in [Q]. *)
Definition canvas_ok (Q : NRGBAColor -> Prop) (img : CaptchaImage) : Prop :=
  forall p c, pixel img p = Some c ->
    inRect (nrgba img) (fst p) (snd p) = true /\ Q c.

Lemma Set_canvas_ok Q img x y c :
  canvas_ok Q img -> Q c -> canvas_ok Q (Set_ img x y c).
Proof.
  intros H Hc p c' E. rewrite (inRect_same_fields img) by apply Set_paints.
  rewrite Set_pixel in E. destruct (inRect (nrgba img) x y) eqn:Ei;
    [| exact (H p c' E)].
  cbn [andb] in E. case_bool_decide as Ep; [| exact (H p c' E)].
  subst p. injection E as <-. auto.
Qed.

Lemma drawHorizLine_canvas_ok Q img c fromX toX y :
  canvas_ok Q img -> Q c -> canvas_ok Q (drawHorizLine img c fromX toX y).
Proof.
  intros H Hc p c' E.
  rewrite (inRect_same_fields img) by apply drawHorizLine_paints.
  rewrite drawHorizLine_pixel in E. case_bool_decide as Ep.
  - destruct Ep as [Ey _].
    destruct (inRect (nrgba img) (fst p) y) eqn:Ei; cbn [andb] in E;
      [| exact (H p c' E)].
    injection E as <-. rewrite Ey. auto.
  - exact (H p c' E).
Qed.

Lemma drawCircle_canvas_ok Q img c x y r g img' g' :
  canvas_ok Q img -> Q c -> drawCircle img c x y r g = Ok img' g' ->
  canvas_ok Q img'.
Proof.
  intros H Hc E. unfold drawCircle in E.
  destruct (drawCircle_fuel _ _ _ _ _ _) as [img1 |] eqn:Ef; [| discriminate].
  cbv [ret] in E. injection E as <- <-. unfold drawCircle_fuel in Ef.
  apply (drawCircle_loop_invariant (fun st => canvas_ok Q (snd st))) in Ef.
  - destruct Ef as (st' & W & <- & _). exact W.
  - intros st W _.
    destruct (drawCircle_step_spans c x y st)
      as (f' & dfx' & dfy' & xx' & yy' & _ & _ & ->).
    cbn [snd]. repeat apply drawHorizLine_canvas_ok; assumption.
  - unfold drawCircle_init. cbn [snd].
    apply drawHorizLine_canvas_ok; [| exact Hc].
    repeat apply Set_canvas_ok; assumption.
Qed.

(** The jitter of [fillWithCircles] keeps the hue. *)
Lemma setRandomBrightness_hue p c :
  hue_of p c -> post (setRandomBrightness c 255) (hue_of p).
Proof.
  intros ((Hc & Hr & Hg & Hb) & Ha & Hrg & Hgb) g c' g' E.
  pose proof (max3_spec (R c) (G c) (B c)) as Hx.
  pose proof (min3_spec (R c) (G c) (B c)) as Hn.
  destruct (setRandomBrightness_below c 255 g Hc) as (n & E' & Hb');
    [unfold is_uint8; lia | lia |].
  rewrite E' in E. injection E as <- <-.
  unfold hue_of, below_white, color_ok, is_uint8, shifted in *. simpl. lia.
Qed.

Lemma fillWithCircles_loop_canvas_ok p k : forall maxradius maxx maxy color img,
  canvas_ok (hue_of p) img -> hue_of p color ->
  post (fillWithCircles_loop k maxradius maxx maxy color img)
       (canvas_ok (hue_of p)).
Proof.
  induction k as [| k IH];
    intros maxradius maxx maxy color img H Hc g img' g' E;
    cbn [fillWithCircles_loop] in E.
  - inv_run. exact H.
  - apply bind_Ok in E as (c1 & g1 & E1 & E).
    apply (setRandomBrightness_hue p color Hc) in E1.
    apply bind_Ok in E as (r & g2 & _ & E).
    apply bind_Ok in E as (cx & g3 & _ & E).
    apply bind_Ok in E as (cy & g4 & _ & E).
    apply bind_Ok in E as (img1 & g5 & E5 & E).
    eapply IH; [| exact E1 | exact E].
    eapply drawCircle_canvas_ok; [exact H | exact E1 | exact E5].
Qed.

Lemma strikeThrough_loop_canvas_ok Q fuel : forall maxx maxy x y img,
  canvas_ok Q img -> Q (primaryColor img) ->
  post (strikeThrough_loop fuel maxx maxy x y img) (canvas_ok Q).
Proof.
  induction fuel as [| fuel IH]; intros maxx maxy x y img H Hc g img' g' E;
    cbn [strikeThrough_loop] in E; destruct (x <? maxx);
    try discriminate E; try (inv_run; exact H).
  apply bind_Ok in E as ([[r y1] img1] & g1 & E1 & E).
  pose proof (strikeThrough_body_post _ _ _ _ _ _ _ E1) as [_ [F _]].
  eapply IH; [| | exact E].
  - unfold strikeThrough_body in E1.
    apply bind_Ok in E1 as (r0 & g2 & _ & E1).
    apply bind_Ok in E1 as (dy & g3 & _ & E1).
    apply bind_Ok in E1 as (y2 & g4 & _ & E1).
    apply bind_Ok in E1 as (img2 & g5 & E5 & E1).
    cbv [ret] in E1. injection E1 as _ _ <- _.
    eapply drawCircle_canvas_ok; [exact H | exact Hc | exact E5].
  - destruct F as (-> & _). exact Hc.
Qed.

Lemma strikeThrough_canvas_ok Q img :
  canvas_ok Q img -> Q (primaryColor img) ->
  post (strikeThrough img) (canvas_ok Q).
Proof.
  intros H Hc g img' g' E. unfold strikeThrough in E.
  apply bind_Ok in E as (y & g1 & _ & E).
  eapply strikeThrough_loop_canvas_ok; eauto.
Qed.

Section FontPixels.

Variables fontWidth fontHeight blackChar : Z.
Variable font : list (list Z).

Lemma drawNumber_cols_canvas_ok Q k : forall number x y yy xx minr maxr img,
  canvas_ok Q img -> Q (primaryColor img) ->
  post (drawNumber_cols fontWidth blackChar k number x y yy xx minr maxr img)
       (canvas_ok Q).
Proof.
  induction k as [| k IH];
    intros number x y yy xx minr maxr img H Hc g img' g' E;
    cbn [drawNumber_cols] in E.
  - inv_run. exact H.
  - destruct (number !! _) as [b |]; [| discriminate E].
    apply bind_Ok in E as (img1 & g1 & E1 & E).
    assert (H1 : canvas_ok Q img1 /\ primaryColor img1 = primaryColor img).
    { destruct (decide (b = blackChar)).
      - apply bind_Ok in E1 as (or & g2 & _ & E1).
        apply bind_Ok in E1 as (jx & g3 & _ & E1).
        apply bind_Ok in E1 as (jy & g4 & _ & E1).
        split; [eapply drawCircle_canvas_ok; eauto |].
        apply drawCircle_inv in E1 as (_ & F & _). apply F.
      - inv_run. auto. }
    destruct H1 as [H1 Ec]. eapply IH; [exact H1 | | exact E].
    rewrite Ec. exact Hc.
Qed.

Lemma drawNumber_rows_canvas_ok Q k : forall number skf xs x y yy minr maxr img,
  canvas_ok Q img -> Q (primaryColor img) ->
  post (drawNumber_rows fontWidth blackChar k number skf xs x y yy
          minr maxr img)
       (canvas_ok Q).
Proof.
  induction k as [| k IH];
    intros number skf xs x y yy minr maxr img H Hc g img' g' E;
    cbn [drawNumber_rows] in E.
  - inv_run. exact H.
  - apply bind_Ok in E as (img1 & g1 & E1 & E).
    pose proof (drawNumber_cols_paints _ _ _ _ _ _ _ _ _ _ _ _ _ _ E1)
      as [(Ec & _) _].
    eapply IH; [| | exact E].
    + eapply drawNumber_cols_canvas_ok; eauto.
    + rewrite Ec. exact Hc.
Qed.

Lemma drawNumber_canvas_ok Q img number x y :
  canvas_ok Q img -> Q (primaryColor img) ->
  post (drawNumber fontWidth fontHeight blackChar img number x y)
       (canvas_ok Q).
Proof.
  intros H Hc g img' g' E. unfold drawNumber in E.
  apply bind_Ok in E as (u & g1 & _ & E).
  apply bind_Ok in E as (k & g2 & _ & E).
  apply bind_Ok in E as (dy & g3 & _ & E).
  eapply drawNumber_rows_canvas_ok; eauto.
Qed.

Lemma drawNumbers_canvas_ok Q numbers : forall x y img,
  canvas_ok Q img -> Q (primaryColor img) ->
  post (drawNumbers fontWidth fontHeight blackChar font numbers x y img)
       (canvas_ok Q).
Proof.
  induction numbers as [| n rest IH]; intros x y img H Hc g img' g' E;
    cbn [drawNumbers] in E.
  - inv_run. exact H.
  - destruct (font !! _) as [glyph |]; [| discriminate E].
    apply bind_Ok in E as (img1 & g1 & E1 & E).
    pose proof (drawNumber_paints _ _ _ _ _ _ _ _ _ _ E1) as [(Ec & _) _].
    eapply IH; [| | exact E].
    + eapply drawNumber_canvas_ok; eauto.
    + rewrite Ec. exact Hc.
Qed.

(** The primary colour [NewImage] draws, and the background it paints
    with it. *)
Lemma NewImage_background_canvas_ok numbers width height :
  post (NewImage_background fontWidth fontHeight numbers width height)
       (fun img =>
          let p := primaryColor img in
          (0 <= R p <= 128 /\ 0 <= G p <= 128 /\ 0 <= B p <= 128 /\
           A p = 255) /\
          MaxX (nrgba img) = width /\ MaxY (nrgba img) = height /\
          canvas_ok (hue_of p) img).
Proof.
  intros g img g' E. unfold NewImage_background in E.
  apply bind_Ok in E as (r & g1 & Er & E).
  apply bind_Ok in E as (gr & g2 & Eg & E).
  apply bind_Ok in E as (b & g3 & Eb & E).
  assert (H129 : 0 < 129) by lia.
  apply (Intn_Ok_pos _ _ _ _ H129) in Er as (Hr & _).
  apply (Intn_Ok_pos _ _ _ _ H129) in Eg as (Hg & _).
  apply (Intn_Ok_pos _ _ _ _ H129) in Eb as (Hb & _).
  destruct (sizes fontWidth fontHeight width height (len numbers))
    as [[nw nh] ds] eqn:Es.
  rewrite (calculateSizes_fields _ _ _ _ _ _ _ _ _ Es) in E.
  cbn [nrgba primaryColor dotSize] in E.
  rewrite !uint8_id in E by (unfold is_uint8; lia).
  set (p := mkColor r gr b 255) in *.
  set (img0 := mkImage (NewNRGBA width height) p nw nh ds) in *.
  pose proof (fillWithCircles_same_fields _ _ _ _ _ _ E)
    as (Ec & _ & _ & _ & Ex & Ey).
  cbv zeta. rewrite Ec, Ex, Ey. cbn [img0 primaryColor nrgba MaxX MaxY NewNRGBA].
  split; [simpl; lia |]. split; [reflexivity |]. split; [reflexivity |].
  unfold fillWithCircles in E.
  eapply fillWithCircles_loop_canvas_ok; [| | exact E].
  - intros q c Eq. unfold pixel in Eq. cbn in Eq.
    rewrite lookup_empty in Eq. discriminate.
  - cbn [img0 primaryColor].
    unfold hue_of, below_white, color_ok, is_uint8. simpl. lia.
Qed.

(** X19: in every image [NewImage] returns, the canvas has the requested
    bounds, the primary colour is opaque with channels in 0..128, and
    every stored pixel lies inside the canvas and is opaque, below the
    ceiling 255, with the hue of the primary colour (the differences
    between its channels): the picture is the primary colour in various
    brightness on a background that was never painted. *)
Theorem NewImage_pixels numbers width height g img g' :
  NewImage fontWidth fontHeight blackChar font numbers width height g
  = Ok img g' ->
  let p := primaryColor img in
  MaxX (nrgba img) = width /\ MaxY (nrgba img) = height /\
  (0 <= R p <= 128 /\ 0 <= G p <= 128 /\ 0 <= B p <= 128 /\ A p = 255) /\
  forall x y c, pixel img (x, y) = Some c ->
    (0 <= x < width /\ 0 <= y < height) /\
    A c = 255 /\ 0 <= R c < 255 /\ 0 <= G c < 255 /\ 0 <= B c < 255 /\
    R c - G c = R p - G p /\ G c - B c = G p - B p.
Proof.
  intros E. unfold NewImage in E.
  apply bind_Ok in E as (img1 & g1 & E1 & E).
  apply bind_Ok in E as ([x0 y0] & g2 & _ & E).
  apply bind_Ok in E as (img2 & g3 & E2 & E).
  apply NewImage_background_canvas_ok in E1 as (Hp & Ex & Ey & H1).
  cbv zeta in Hp, H1.
  pose proof (drawNumbers_paints _ _ _ _ _ _ _ _ _ _ _ E2)
    as [(Ec2 & _ & _ & _ & Ex2 & Ey2) _].
  pose proof (strikeThrough_paints _ _ _ _ E)
    as [(Ec3 & _ & _ & _ & Ex3 & Ey3) _].
  assert (Hq : hue_of (primaryColor img1) (primaryColor img1)).
  { unfold hue_of, below_white, color_ok, is_uint8. lia. }
  assert (H2 : canvas_ok (hue_of (primaryColor img1)) img2).
  { eapply drawNumbers_canvas_ok; [exact H1 | exact Hq | exact E2]. }
  assert (H3 : canvas_ok (hue_of (primaryColor img1)) img).
  { eapply strikeThrough_canvas_ok; [exact H2 | | exact E].
    rewrite Ec2. exact Hq. }
  cbv zeta. rewrite Ec3, Ec2, Ex3, Ex2, Ey3, Ey2.
  split; [exact Ex |]. split; [exact Ey |]. split; [exact Hp |].
  intros x y c Ec. destruct (H3 _ _ Ec) as [Hin Hh].
  cbn [fst snd] in Hin. apply inRect_true in Hin.
  rewrite Ex3, Ex2, Ey3, Ey2, Ex, Ey in Hin.
  unfold hue_of, below_white, color_ok, is_uint8 in Hh. lia.
Qed.

(** X20: every image [NewImage] returns for a height of three rows or
    more is struck through across its whole width: in every column there
    is a pixel in the primary colour, at a height strictly inside the
    canvas. *)
Theorem NewImage_struck_through numbers width height g img g' px :
  3 <= height ->
  NewImage fontWidth fontHeight blackChar font numbers width height g
  = Ok img g' ->
  0 <= px < width ->
  exists py, 0 < py < height /\ pixel img (px, py) = Some (primaryColor img).
Proof.
  intros Hh E Hpx. unfold NewImage in E.
  apply bind_Ok in E as (img1 & g1 & E1 & E).
  apply bind_Ok in E as ([x0 y0] & g2 & _ & E).
  apply bind_Ok in E as (img2 & g3 & E2 & E).
  apply NewImage_background_canvas_ok in E1 as (_ & Ex & Ey & _).
  pose proof (drawNumbers_paints _ _ _ _ _ _ _ _ _ _ _ E2)
    as [(_ & _ & _ & _ & Ex2 & Ey2) _].
  pose proof (strikeThrough_paints _ _ _ _ E) as [(Ec3 & _) _].
  rewrite Ec3. rewrite <- Ey, <- Ey2. rewrite <- Ex, <- Ex2 in Hpx.
  eapply strikeThrough_columns; [| exact E | exact Hpx].
  rewrite Ey2, Ey. exact Hh.
Qed.

End FontPixels.

(** ** The layout engine: the digits fit the usable height *)

(** On non-negative finite numbers, [x > y] decides the order of the
    values. *)
Lemma F64_gtb_false_le x y :
  F64Round.good x -> F64Round.good y -> F64.gtb x y = false ->
  (F64Round.fval x <= F64Round.fval y)%Q.
Proof.
  intros Hx Hy. unfold F64.gtb, SFltb.
  destruct x as [[|] | | | [|] mx ex]; try contradiction;
    destruct y as [[|] | | | [|] my ey]; try contradiction;
    cbn [SFcompare F64Round.fval]; try discriminate; intros E.
  - apply (F64Round.fval_nonneg (S754_finite false my ey)).
  - destruct Hx as [Cx _], Hy as [Cy _].
    pose proof (F64Round.canonical_digits _ _ Cx) as [Dx Lx].
    pose proof (F64Round.canonical_digits _ _ Cy) as [Dy Ly].
    destruct (Z.compare_spec ey ex) as [-> | Hlt | Hgt]; [| discriminate |].
    + apply F64Round.valQ_le_same.
      change (PosDef.Pos.compare_cont Eq my mx) with (Pos.compare my mx) in E.
      destruct (Pos.compare_spec my mx); try discriminate; lia.
    + destruct Cy as [_ Ey]. rewrite F64Round.fexp_spec in Ey.
      pose proof (F64Round.valQ_digits_lt (Zpos mx) ex ltac:(lia)) as U.
      pose proof (F64Round.valQ_digits_ge (Zpos my) ey ltac:(lia)) as L.
      pose proof (F64Round.b2_le (Zdigits2 (Zpos mx) + ex)
                    (Zdigits2 (Zpos my) - 1 + ey) ltac:(lia)).
      lra.
Qed.

Lemma F64_to_int_of_int z : 0 < z < 2 ^ 53 -> F64.to_int (F64.of_int z) = z.
Proof.
  intros Hz. destruct (F64Round.of_int_exact z Hz) as [F V].
  rewrite F64Round.to_int_floor by (apply F64Round.finite_pos_good, F).
  rewrite (Qfloor_comp _ _ V). apply Qfloor_Z.
Qed.

Section LayoutFit.

Variables fontWidth fontHeight : Z.

(** The height of a digit and its dot come from the conversion of a
    number that does not exceed the usable height. *)
Lemma sizes_fit_height width height ncount nw nh ds :
  0 < fontWidth < 2 ^ 53 -> 0 < fontHeight < 2 ^ 53 ->
  0 < width < 2 ^ 53 -> 0 < height < 2 ^ 53 -> 1 <= ncount < 2 ^ 53 ->
  sizes fontWidth fontHeight width height ncount = (nw, nh, ds) ->
  nh + ds <= height - 2 * Z.quot (Z.min width height) 5.
Proof.
  intros Hfw Hfh Hw Hh Hn. unfold sizes.
  assert (Eb : (if height <? width then Z.quot height 5 else Z.quot width 5)
               = Z.quot (Z.min width height) 5).
  { destruct (Z.ltb_spec height width);
      [rewrite Z.min_r by lia | rewrite Z.min_l by lia]; reflexivity. }
  rewrite Eb. set (border := Z.quot (Z.min width height) 5).
  assert (Hb : 0 <= border /\ 2 * border < width /\ 2 * border < height)
    by (unfold border; zlia).
  destruct (F64Round.of_int_exact (width - border * 2) ltac:(lia)) as [Fw Vw].
  destruct (F64Round.of_int_exact (height - border * 2) ltac:(lia))
    as [Fh' Vh'].
  pose proof (F64_to_int_of_int (height - border * 2) ltac:(lia)) as Th.
  destruct (F64Round.of_int_exact fontWidth Hfw) as [Ffw Vfw].
  destruct (F64Round.of_int_exact fontHeight Hfh) as [Ffh Vfh].
  destruct (F64Round.of_int_exact ncount ltac:(lia)) as [Fnc Vnc].
  destruct (F64Round.of_int_exact 1 ltac:(lia)) as [F1 V1].
  set (w := F64.of_int (width - border * 2)) in *.
  set (h := F64.of_int (height - border * 2)) in *.
  set (fh := F64.of_int fontHeight) in *.
  set (nc := F64.of_int ncount) in *.
  set (fw1 := F64.add (F64.of_int fontWidth) (F64.of_int 1)).
  assert (P53 : (F64Round.b2 53 == inject_Z (2 ^ 53))%Q)
    by (apply F64Round.b2_Z; lia).
  assert (B106 : (F64Round.b2 106 == F64Round.b2 53 * F64Round.b2 53)%Q)
    by (rewrite <- F64Round.b2_add; reflexivity).
  assert (Iw : (F64Round.fval w <= F64Round.b2 53)%Q)
    by (rewrite Vw, P53, <- Zle_Qle; lia).
  assert (Ifh : (1 <= F64Round.fval fh <= F64Round.b2 53)%Q)
    by (rewrite Vfh, P53, <- !Zle_Qle; change (inject_Z 1) with 1%Q;
        rewrite <- (Zle_Qle 1); lia).
  assert (Inc : (1 <= F64Round.fval nc)%Q)
    by (rewrite Vnc; rewrite <- (Zle_Qle 1); lia).
  assert (R53 : F64Round.finite_pos (F64Round.pow2 53))
    by (apply F64Round.pow2_finite_pos; lia).
  assert (R0 : F64Round.finite_pos (F64Round.pow2 0))
    by (apply F64Round.pow2_finite_pos; lia).
  assert (R106 : F64Round.finite_pos (F64Round.pow2 106))
    by (apply F64Round.pow2_finite_pos; lia).
  assert (P0 : (F64Round.b2 0 == 1)%Q) by reflexivity.
  destruct (F64Round.add_good (F64.of_int fontWidth) (F64.of_int 1)
              (F64Round.pow2 53) (F64Round.pow2 0) Ffw F1 R53 R0)
    as [Ffw1 [Lfw1 Ufw1]].
  { rewrite Vfw, V1, F64Round.fval_pow2, P53, <- inject_Z_plus, <- Zle_Qle.
    lia. }
  { rewrite Vfw, V1, F64Round.fval_pow2, P0.
    assert (0 <= inject_Z fontWidth)%Q by (rewrite <- (Zle_Qle 0); lia).
    change (inject_Z 1) with 1%Q. lra. }
  fold fw1 in Ffw1, Lfw1, Ufw1.
  rewrite F64Round.fval_pow2 in Lfw1, Ufw1. rewrite P0 in Lfw1.
  destruct (F64Round.div_good w nc (F64Round.finite_pos_good _ Fw) Fnc Inc)
    as [Gnw Unw].
  set (nw0 := F64.div w nc) in *.
  pose proof (F64Round.fval_nonneg nw0) as Pnw.
  destruct (F64Round.mul_good nw0 fh (F64Round.pow2 106) Gnw
              (F64Round.finite_pos_good _ Ffh) R106) as [Gt Ut].
  { rewrite F64Round.fval_pow2, B106. nra. }
  destruct (F64Round.div_good (F64.mul nw0 fh) fw1 Gt Ffw1 Lfw1) as [Gnh Unh].
  set (nh0 := F64.div (F64.mul nw0 fh) fw1) in *.
  destruct (F64.gtb nh0 h) eqn:Eg; intros [= <- <- <-].
  - lia.
  - pose proof (F64_gtb_false_le nh0 h Gnh (F64Round.finite_pos_good _ Fh') Eg)
      as Hle.
    pose proof (F64Round.to_int_mono _ _ Gnh (F64Round.finite_pos_good _ Fh')
                  Hle). lia.
Qed.

(** X21: for positive width and height and at least one digit (all below
    [2^53], as is the font), the height [calculateSizes] gives a digit,
    the dot that was taken off it put back, does not exceed the usable
    height, the height of the image less a border of a fifth of its
    smaller side above and below. *)
Theorem calculateSizes_fits_usable_height img width height digitCount :
  0 < fontWidth < 2 ^ 53 -> 0 < fontHeight < 2 ^ 53 ->
  0 < width < 2 ^ 53 -> 0 < height < 2 ^ 53 -> 1 <= digitCount < 2 ^ 53 ->
  let img' := calculateSizes fontWidth fontHeight img width height
                digitCount in
  numHeight img' + dotSize img'
  <= height - 2 * Z.quot (Z.min width height) 5.
Proof.
  intros Hfw Hfh Hw Hh Hn. cbv zeta. unfold calculateSizes.
  destruct (sizes fontWidth fontHeight width height digitCount)
    as [[nw nh] ds] eqn:E. cbn [numHeight dotSize].
  exact (sizes_fit_height width height digitCount nw nh ds Hfw Hfh Hw Hh Hn E).
Qed.

(** X22: without a digit, the division by the number of digits gives
    [+Inf] and no failure; the comparison [nh > h] then selects the sizes
    derived from the height, so a digit with its dot is as high as the
    usable height, and the three sizes are non-negative. *)
Theorem calculateSizes_without_digits img width height :
  0 < fontWidth < 2 ^ 53 -> 0 < fontHeight < 2 ^ 53 ->
  0 < width < 2 ^ 53 -> 0 < height < 2 ^ 53 ->
  let img' := calculateSizes fontWidth fontHeight img width height 0 in
  let h := F64.of_int (height - 2 * Z.quot (Z.min width height) 5) in
  F64.div (F64.of_int (width - 2 * Z.quot (Z.min width height) 5))
          (F64.of_int 0) = S754_infinity false /\
  dotSize img' = F64.to_int (F64.div h (F64.of_int fontHeight)) /\
  numHeight img' + dotSize img'
  = height - 2 * Z.quot (Z.min width height) 5 /\
  0 <= numWidth img' /\ 0 <= numHeight img' /\ 0 <= dotSize img'.
Proof.
  intros Hfw Hfh Hw Hh. cbv zeta. unfold calculateSizes, sizes.
  assert (Eb : (if height <? width then Z.quot height 5 else Z.quot width 5)
               = Z.quot (Z.min width height) 5).
  { destruct (Z.ltb_spec height width);
      [rewrite Z.min_r by lia | rewrite Z.min_l by lia]; reflexivity. }
  rewrite Eb. set (border := Z.quot (Z.min width height) 5).
  assert (Hb : 0 <= border /\ 2 * border < width /\ 2 * border < height)
    by (unfold border; zlia).
  replace (width - border * 2) with (width - 2 * border) by lia.
  replace (height - border * 2) with (height - 2 * border) by lia.
  destruct (F64Round.of_int_exact (width - 2 * border) ltac:(lia)) as [Fw Vw].
  destruct (F64Round.of_int_exact (height - 2 * border) ltac:(lia))
    as [Fh' Vh'].
  pose proof (F64_to_int_of_int (height - 2 * border) ltac:(lia)) as Th.
  destruct (F64Round.of_int_exact fontWidth Hfw) as [Ffw Vfw].
  destruct (F64Round.of_int_exact fontHeight Hfh) as [Ffh Vfh].
  destruct (F64Round.of_int_exact 1 ltac:(lia)) as [F1 V1].
  set (w := F64.of_int (width - 2 * border)) in *.
  set (h := F64.of_int (height - 2 * border)) in *.
  set (fh := F64.of_int fontHeight) in *.
  set (fw1 := F64.add (F64.of_int fontWidth) (F64.of_int 1)).
  assert (P53 : (F64Round.b2 53 == inject_Z (2 ^ 53))%Q)
    by (apply F64Round.b2_Z; lia).
  assert (B106 : (F64Round.b2 106 == F64Round.b2 53 * F64Round.b2 53)%Q)
    by (rewrite <- F64Round.b2_add; reflexivity).
  assert (Ih : (F64Round.fval h <= F64Round.b2 53)%Q)
    by (rewrite Vh', P53, <- Zle_Qle; lia).
  assert (Ifh : (1 <= F64Round.fval fh <= F64Round.b2 53)%Q)
    by (rewrite Vfh, P53, <- !Zle_Qle; change (inject_Z 1) with 1%Q;
        rewrite <- (Zle_Qle 1); lia).
  assert (R53 : F64Round.finite_pos (F64Round.pow2 53))
    by (apply F64Round.pow2_finite_pos; lia).
  assert (R0 : F64Round.finite_pos (F64Round.pow2 0))
    by (apply F64Round.pow2_finite_pos; lia).
  assert (R106 : F64Round.finite_pos (F64Round.pow2 106))
    by (apply F64Round.pow2_finite_pos; lia).
  assert (P0 : (F64Round.b2 0 == 1)%Q) by reflexivity.
  destruct (F64Round.add_good (F64.of_int fontWidth) (F64.of_int 1)
              (F64Round.pow2 53) (F64Round.pow2 0) Ffw F1 R53 R0)
    as [Ffw1 [Lfw1 Ufw1]].
  { rewrite Vfw, V1, F64Round.fval_pow2, P53, <- inject_Z_plus, <- Zle_Qle.
    lia. }
  { rewrite Vfw, V1, F64Round.fval_pow2, P0.
    assert (0 <= inject_Z fontWidth)%Q by (rewrite <- (Zle_Qle 0); lia).
    change (inject_Z 1) with 1%Q. lra. }
  fold fw1 in Ffw1, Lfw1, Ufw1.
  rewrite F64Round.fval_pow2 in Lfw1, Ufw1. rewrite P0 in Lfw1.
  (* the division by zero and what follows from it *)
  assert (Einf : F64.div w (F64.of_int 0) = S754_infinity false).
  { change (F64.of_int 0) with (S754_zero false).
    destruct w as [| | | [|] mw ew]; try contradiction. reflexivity. }
  assert (Emul : F64.mul (S754_infinity false) fh = S754_infinity false).
  { destruct fh as [| | | [|] mf ef]; try contradiction. reflexivity. }
  assert (Ediv : F64.div (S754_infinity false) fw1 = S754_infinity false).
  { destruct fw1 as [| | | [|] mf ef]; try contradiction. reflexivity. }
  assert (Egt : F64.gtb (S754_infinity false) h = true).
  { destruct h as [| | | [|] mh eh]; try contradiction. reflexivity. }
  rewrite Einf, Emul, Ediv, Egt. cbn [numWidth numHeight dotSize].
  destruct (F64Round.div_good fw1 fh (F64Round.finite_pos_good _ Ffw1) Ffh
              (proj1 Ifh)) as [Gq Uq].
  pose proof (F64Round.fval_nonneg (F64.div fw1 fh)) as Pq.
  pose proof (F64Round.fval_nonneg h) as Ph.
  destruct (F64Round.mul_good (F64.div fw1 fh) h (F64Round.pow2 106) Gq
              (F64Round.finite_pos_good _ Fh') R106) as [Gnw1 _].
  { rewrite F64Round.fval_pow2, B106. nra. }
  destruct (F64Round.div_good h fh (F64Round.finite_pos_good _ Fh') Ffh
              (proj1 Ifh)) as [Gd Ud].
  pose proof (F64Round.to_int_mono _ _ Gd (F64Round.finite_pos_good _ Fh') Ud).
  pose proof (F64Round.to_int_nonneg _ Gd).
  pose proof (F64Round.to_int_nonneg _ Gnw1).
  split; [reflexivity |]. split; [reflexivity |]. lia.
Qed.

End LayoutFit.

(** ** Concrete instances of the further properties *)

Lemma drawCircle_stays_in_disc_witness :
  exists img',
    0 <= 2 /\
    drawCircle (blankImage 7 7) opaqueRed 3 3 2 (sampleRand 0)
      = Ok img' (sampleRand 0) /\
    pixel img' (4, 4) <> pixel (blankImage 7 7) (4, 4) /\
    ((4 - 3) * (4 - 3) + (4 - 3) * (4 - 3) <= 2 * 2 + 2 /\
     3 - 2 <= 4 <= 3 + 2 /\ 3 - 2 <= 4 <= 3 + 2).
Proof.
  assert (Hr : 0 <= 2) by lia.
  eexists. split; [exact Hr |]. split; [reflexivity |].
  match goal with
  | |- pixel ?i _ <> _ /\ _ =>
      assert (E : drawCircle (blankImage 7 7) opaqueRed 3 3 2 (sampleRand 0)
                  = Ok i (sampleRand 0)) by reflexivity;
      assert (Hc : pixel i (4, 4) <> pixel (blankImage 7 7) (4, 4))
        by (vm_compute; discriminate);
      split; [exact Hc |];
      exact (drawCircle_stays_in_disc (blankImage 7 7) opaqueRed 3 3 2
               (sampleRand 0) i (sampleRand 0) 4 4 Hr E Hc)
  end.
Defined.

Lemma drawCircle_fills_disc_witness :
  exists img',
    0 <= 2 /\
    drawCircle (blankImage 7 7) opaqueRed 3 3 2 (sampleRand 0)
      = Ok img' (sampleRand 0) /\
    (4 - 3) * (4 - 3) + (2 - 3) * (2 - 3) <= 2 * 2 - 2 /\
    inRect (nrgba (blankImage 7 7)) 4 2 = true /\
    pixel img' (4, 2) = Some opaqueRed.
Proof.
  assert (Hr : 0 <= 2) by lia.
  assert (Hd : (4 - 3) * (4 - 3) + (2 - 3) * (2 - 3) <= 2 * 2 - 2) by lia.
  assert (Hi : inRect (nrgba (blankImage 7 7)) 4 2 = true) by reflexivity.
  eexists. split; [exact Hr |]. split; [reflexivity |].
  split; [exact Hd |]. split; [exact Hi |].
  match goal with
  | |- pixel ?i _ = _ =>
      assert (E : drawCircle (blankImage 7 7) opaqueRed 3 3 2 (sampleRand 0)
                  = Ok i (sampleRand 0)) by reflexivity;
      exact (drawCircle_fills_disc (blankImage 7 7) opaqueRed 3 3 2
               (sampleRand 0) i (sampleRand 0) 4 2 Hr E Hd Hi)
  end.
Defined.

Lemma drawCircle_rows_are_centred_spans_witness :
  exists img',
    drawCircle (blankImage 7 7) opaqueRed 3 3 2 (sampleRand 0)
      = Ok img' (sampleRand 0) /\
    pixel img' (4, 4) <> pixel (blankImage 7 7) (4, 4) /\
    Z.abs (2 - 3) <= Z.abs (4 - 3) /\
    inRect (nrgba (blankImage 7 7)) 2 4 = true /\
    pixel img' (2, 4) = Some opaqueRed.
Proof.
  assert (Hq : Z.abs (2 - 3) <= Z.abs (4 - 3)) by lia.
  assert (Hi : inRect (nrgba (blankImage 7 7)) 2 4 = true) by reflexivity.
  eexists. split; [reflexivity |].
  match goal with
  | |- pixel ?i _ <> _ /\ _ =>
      assert (E : drawCircle (blankImage 7 7) opaqueRed 3 3 2 (sampleRand 0)
                  = Ok i (sampleRand 0)) by reflexivity;
      assert (Hc : pixel i (4, 4) <> pixel (blankImage 7 7) (4, 4))
        by (vm_compute; discriminate);
      split; [exact Hc |]; split; [exact Hq |]; split; [exact Hi |];
      exact (drawCircle_rows_are_centred_spans (blankImage 7 7) opaqueRed
               3 3 2 (sampleRand 0) i (sampleRand 0) 4 4 2 E Hc Hq Hi)
  end.
Defined.

Lemma drawCircle_paints_every_row_witness :
  exists img',
    0 <= 2 /\
    drawCircle (blankImage 7 7) opaqueRed 3 3 2 (sampleRand 0)
      = Ok img' (sampleRand 0) /\
    Z.abs (-1) <= 2 /\
    inRect (nrgba (blankImage 7 7)) 3 (3 + -1) = true /\
    pixel img' (3, 3 + -1) = Some opaqueRed.
Proof.
  assert (Hr : 0 <= 2) by lia.
  assert (Hd : Z.abs (-1) <= 2) by lia.
  assert (Hi : inRect (nrgba (blankImage 7 7)) 3 (3 + -1) = true)
    by reflexivity.
  eexists. split; [exact Hr |]. split; [reflexivity |].
  split; [exact Hd |]. split; [exact Hi |].
  match goal with
  | |- pixel ?i _ = _ =>
      assert (E : drawCircle (blankImage 7 7) opaqueRed 3 3 2 (sampleRand 0)
                  = Ok i (sampleRand 0)) by reflexivity;
      exact (drawCircle_paints_every_row (blankImage 7 7) opaqueRed 3 3 2
               (sampleRand 0) i (sampleRand 0) (-1) Hr E Hd Hi)
  end.
Defined.

Lemma setRandomBrightness_keeps_below_white_witness :
  below_white (mkColor 10 20 30 255) /\
  exists c',
    setRandomBrightness (mkColor 10 20 30 255) 255 (sampleRand 1)
      = Ok c' (mkRand (tape (sampleRand 1)) (S (pos (sampleRand 1)))) /\
    below_white c' /\ A c' = A (mkColor 10 20 30 255) /\
    R c' - G c' = R (mkColor 10 20 30 255) - G (mkColor 10 20 30 255) /\
    G c' - B c' = G (mkColor 10 20 30 255) - B (mkColor 10 20 30 255).
Proof.
  assert (Hc : below_white (mkColor 10 20 30 255))
    by (unfold below_white, color_ok, is_uint8; simpl; lia).
  split; [exact Hc |].
  exact (setRandomBrightness_keeps_below_white (mkColor 10 20 30 255)
           (sampleRand 1) Hc).
Defined.

Lemma fillWithCircles_returns_witness :
  let img := mkImage (NewNRGBA 8 8) (mkColor 10 20 30 255) 0 0 2 in
  below_white (primaryColor img) /\ 1 <= 2 /\
  2 * 2 <= MaxX (nrgba img) /\ 2 * 2 <= MaxY (nrgba img) /\
  exists img',
    fillWithCircles img 3 2 (sampleRand 1)
    = Ok img' (mkRand (tape (sampleRand 1))
                      (pos (sampleRand 1) + 4 * Z.to_nat 3)) /\
    same_fields img img'.
Proof.
  intros img.
  assert (Hc : below_white (primaryColor img))
    by (unfold below_white, color_ok, is_uint8; simpl; lia).
  assert (Hx : 2 * 2 <= MaxX (nrgba img)) by (simpl; lia).
  assert (Hy : 2 * 2 <= MaxY (nrgba img)) by (simpl; lia).
  split; [exact Hc |]. split; [lia |]. split; [exact Hx |].
  split; [exact Hy |].
  exact (fillWithCircles_returns img 3 2 (sampleRand 1) Hc ltac:(lia) Hx Hy).
Defined.

Lemma strikeThrough_crosses_every_column_witness :
  let img := mkImage (NewNRGBA 12 12) opaqueRed 0 0 4 in
  exists img' g',
    3 <= MaxY (nrgba img) /\
    strikeThrough img (sampleRand 2) = Ok img' g' /\
    0 <= 5 < MaxX (nrgba img) /\
    exists py, 0 < py < MaxY (nrgba img) /\
               pixel img' (5, py) = Some (primaryColor img).
Proof.
  intros img.
  destruct (strikeThrough_succeeds img ltac:(simpl; lia) ltac:(simpl; lia)
              (sampleRand 2)) as (img' & g' & E & _).
  assert (Hm : 3 <= MaxY (nrgba img)) by (simpl; lia).
  assert (Hp : 0 <= 5 < MaxX (nrgba img)) by (simpl; lia).
  exists img', g'. split; [exact Hm |]. split; [exact E |].
  split; [exact Hp |].
  exact (strikeThrough_crosses_every_column img (sampleRand 2) img' g' 5
           Hm E Hp).
Defined.

Lemma drawNumber_blank_glyph_witness :
  let img := mkImage (NewNRGBA 30 30) opaqueRed 3 6 2 in
  0 <= stdFontWidth /\ 0 <= stdFontHeight /\ 0 <= dotSize img /\
  stdFontWidth * stdFontHeight <= len (replicate 40 0) /\
  Forall (fun b => b <> stdBlackChar) (replicate 40 0) /\
  drawNumber stdFontWidth stdFontHeight stdBlackChar img (replicate 40 0)
    5 5 (sampleRand 1)
  = Ok img (mkRand (tape (sampleRand 1)) (pos (sampleRand 1) + 3)).
Proof.
  intros img.
  assert (Hw : 0 <= stdFontWidth) by (unfold stdFontWidth; lia).
  assert (Hh : 0 <= stdFontHeight) by (unfold stdFontHeight; lia).
  assert (Hd : 0 <= dotSize img) by (simpl; lia).
  assert (Hl : stdFontWidth * stdFontHeight <= len (replicate 40 0))
    by (vm_compute; discriminate).
  assert (Hb : Forall (fun b => b <> stdBlackChar) (replicate 40 0))
    by (apply Forall_replicate; discriminate).
  split; [exact Hw |]. split; [exact Hh |]. split; [exact Hd |].
  split; [exact Hl |]. split; [exact Hb |].
  exact (drawNumber_blank_glyph stdFontWidth stdFontHeight stdBlackChar img
           (replicate 40 0) 5 5 (sampleRand 1) Hw Hh Hd Hl Hb).
Defined.

Lemma drawNumber_short_glyph_panics_witness :
  let img := mkImage (NewNRGBA 30 30) opaqueRed 3 6 2 in
  0 < stdFontWidth /\ 0 < stdFontHeight /\
  len (replicate 39 stdBlackChar) < stdFontWidth * stdFontHeight /\
  drawNumber stdFontWidth stdFontHeight stdBlackChar img
    (replicate 39 stdBlackChar) 5 5 (sampleRand 1) = Panic.
Proof.
  intros img.
  assert (Hw : 0 < stdFontWidth) by (unfold stdFontWidth; lia).
  assert (Hh : 0 < stdFontHeight) by (unfold stdFontHeight; lia).
  assert (Hl : len (replicate 39 stdBlackChar) < stdFontWidth * stdFontHeight)
    by (vm_compute; reflexivity).
  split; [exact Hw |]. split; [exact Hh |]. split; [exact Hl |].
  exact (drawNumber_short_glyph_panics stdFontWidth stdFontHeight
           stdBlackChar img (replicate 39 stdBlackChar) 5 5 (sampleRand 1)
           Hw Hh Hl).
Defined.

Lemma drawNumber_stays_in_band_witness :
  let img := mkImage (NewNRGBA 30 30) opaqueRed 3 6 2 in
  exists img' g',
    0 <= dotSize img /\
    drawNumber stdFontWidth stdFontHeight stdBlackChar img (sampleGlyph 0)
      5 5 (sampleRand 1) = Ok img' g' /\
    pixel img' (5, 5) <> pixel img (5, 5) /\
    let minr := Z.quot (dotSize img) 2 in
    let maxr := Z.quot (dotSize img) 2 + Z.quot (dotSize img) 4 in
    5 - minr - maxr <= 5
    <= 5 + minr + (stdFontHeight - 1) * dotSize img + maxr + Z.quot maxr 2.
Proof.
  intros img.
  assert (Ep : match drawNumber stdFontWidth stdFontHeight stdBlackChar img
                       (sampleGlyph 0) 5 5 (sampleRand 1) with
               | Ok i _ => pixel i (5, 5) = Some opaqueRed
               | _ => False
               end) by (vm_compute; reflexivity).
  destruct (drawNumber stdFontWidth stdFontHeight stdBlackChar img
              (sampleGlyph 0) 5 5 (sampleRand 1)) as [img' g' | |] eqn:E;
    [| contradiction..].
  assert (Hd : 0 <= dotSize img) by (simpl; lia).
  assert (Hc : pixel img' (5, 5) <> pixel img (5, 5))
    by (rewrite Ep; vm_compute; discriminate).
  exists img', g'. split; [exact Hd |]. split; [reflexivity |].
  split; [exact Hc |].
  exact (drawNumber_stays_in_band stdFontWidth stdFontHeight stdBlackChar
           img (sampleGlyph 0) 5 5 (sampleRand 1) img' g' 5 5 Hd E Hc).
Defined.

Lemma NewImage_panics_on_digit_without_glyph_witness :
  Exists (fun n => len sampleFont <= n) [1; 12] /\
  stdNewImage [1; 12] 300 80 (sampleRand 1) = Panic.
Proof.
  assert (Hn : Exists (fun n => len sampleFont <= n) [1; 12])
    by (apply Exists_cons_tl, Exists_cons_hd; vm_compute; discriminate).
  split; [exact Hn |].
  exact (NewImage_panics_on_digit_without_glyph stdFontWidth stdFontHeight
           stdBlackChar sampleFont [1; 12] 300 80 (sampleRand 1) Hn).
Defined.


(** Five digits on 300 x 80 are drawn on every state of the random
    source. *)
Lemma stdNewImage_run g :
  exists img g', stdNewImage [1; 2; 3; 4; 5] 300 80 g = Ok img g'.
Proof.
  assert (Hn : digits_ok [1; 2; 3; 4; 5]) by (repeat constructor; lia).
  destruct (NewImage_succeeds_sized stdFontWidth stdFontHeight stdBlackChar
              sampleFont [1; 2; 3; 4; 5] 300 80 36 42 6 sampleFont_ok Hn
              stdSizes_300_80_5 g)
    as (img & g' & E & _).
  eauto.
Qed.

Lemma NewImage_pixels_witness :
  exists img g',
    stdNewImage [1; 2; 3; 4; 5] 300 80 (sampleRand 1) = Ok img g' /\
    let p := primaryColor img in
    MaxX (nrgba img) = 300 /\ MaxY (nrgba img) = 80 /\
    (0 <= R p <= 128 /\ 0 <= G p <= 128 /\ 0 <= B p <= 128 /\ A p = 255) /\
    forall x y c, pixel img (x, y) = Some c ->
      (0 <= x < 300 /\ 0 <= y < 80) /\
      A c = 255 /\ 0 <= R c < 255 /\ 0 <= G c < 255 /\ 0 <= B c < 255 /\
      R c - G c = R p - G p /\ G c - B c = G p - B p.
Proof.
  destruct (stdNewImage_run (sampleRand 1)) as (img & g' & E).
  exists img, g'. split; [exact E |].
  exact (NewImage_pixels stdFontWidth stdFontHeight stdBlackChar sampleFont
           [1; 2; 3; 4; 5] 300 80 (sampleRand 1) img g' E).
Defined.

Lemma NewImage_struck_through_witness :
  exists img g',
    3 <= 80 /\
    stdNewImage [1; 2; 3; 4; 5] 300 80 (sampleRand 1) = Ok img g' /\
    0 <= 150 < 300 /\
    exists py, 0 < py < 80 /\ pixel img (150, py) = Some (primaryColor img).
Proof.
  destruct (stdNewImage_run (sampleRand 1)) as (img & g' & E).
  exists img, g'. split; [lia |]. split; [exact E |]. split; [lia |].
  exact (NewImage_struck_through stdFontWidth stdFontHeight stdBlackChar
           sampleFont [1; 2; 3; 4; 5] 300 80 (sampleRand 1) img g' 150
           ltac:(lia) E ltac:(lia)).
Defined.

Lemma calculateSizes_fits_usable_height_witness :
  0 < stdFontWidth < 2 ^ 53 /\ 0 < stdFontHeight < 2 ^ 53 /\
  0 < 300 < 2 ^ 53 /\ 0 < 80 < 2 ^ 53 /\ 1 <= 5 < 2 ^ 53 /\
  let img' := calculateSizes stdFontWidth stdFontHeight (blankImage 300 80)
                300 80 5 in
  numHeight img' + dotSize img' <= 80 - 2 * Z.quot (Z.min 300 80) 5.
Proof.
  unfold stdFontWidth, stdFontHeight.
  repeat (split; [lia |]).
  apply (calculateSizes_fits_usable_height 5 8 (blankImage 300 80) 300 80 5);
    lia.
Defined.

Lemma calculateSizes_without_digits_witness :
  0 < stdFontWidth < 2 ^ 53 /\ 0 < stdFontHeight < 2 ^ 53 /\
  0 < 300 < 2 ^ 53 /\ 0 < 80 < 2 ^ 53 /\
  let img' := calculateSizes stdFontWidth stdFontHeight (blankImage 300 80)
                300 80 0 in
  let h := F64.of_int (80 - 2 * Z.quot (Z.min 300 80) 5) in
  F64.div (F64.of_int (300 - 2 * Z.quot (Z.min 300 80) 5)) (F64.of_int 0)
    = S754_infinity false /\
  dotSize img' = F64.to_int (F64.div h (F64.of_int stdFontHeight)) /\
  numHeight img' + dotSize img' = 80 - 2 * Z.quot (Z.min 300 80) 5 /\
  0 <= numWidth img' /\ 0 <= numHeight img' /\ 0 <= dotSize img'.
Proof.
  unfold stdFontWidth, stdFontHeight.
  repeat (split; [lia |]).
  apply (calculateSizes_without_digits 5 8 (blankImage 300 80) 300 80); lia.
Defined.


